(** * AgentHub session hub: a shallow embedding of the daemon

    The daemon multiplexes interactive terminals and CLI chat sessions behind a
    WebSocket gateway.  This development embeds

    - the JavaScript string primitives the parsers rely on,
    - [cli-parser.ts] ([parseCLILine], [MessageAccumulator]),
    - [terminal-parser.ts] ([stripAnsi], [isPromptLine], [detectToolUsage],
      [parseTerminalChunk], [TerminalMessageAccumulator]),
    - the state manager ([getAuthToken], [validateToken], [loadState], ...),
    - the terminal manager and the CLI chat manager,
    - the gateway's [handleMessage],

    and proves the properties the specification states about them.

    Conventions.  A JavaScript string is the list of its UTF-16 code units.
    A value that may be [undefined] is an [option].  [JSON.parse] and
    [JSON.stringify] are parameters of the sections that use them.  A
    [Map] whose entries the program enumerates is kept with the order of
    insertion of its keys.  [console.log] and friends are not
    modelled. *)

From Stdlib Require Import QArith Qcanon.
From Stdlib.Strings Require Import Byte.
From stdpp Require Import gmap list strings numbers pretty.

#[local] Close Scope Q_scope.
#[local] Close Scope Qc_scope.

Set Default Proof Using "Type".
#[local] Set Warnings "-register-all".

(** ** JavaScript strings *)

Module JS.

Abbreviation jsstring := (list N).

(** An ASCII literal as code units. *)
Definition lit (s : string) : jsstring :=
  map Ascii.N_of_ascii (String.list_ascii_of_string s).
#[global] Arguments lit : simpl never.

(** WhiteSpace and LineTerminator code points of ECMAScript: what
    [String.prototype.trim] removes and what the regular expression class
    [\s] matches. *)
Definition is_ws (c : N) : bool :=
  bool_decide (c ∈ [9; 10; 11; 12; 13; 32; 160; 5760; 8232; 8233; 8239;
                     8287; 12288; 65279]%N)
  || ((8192 <=? c)%N && (c <=? 8202)%N).

Fixpoint drop_while {A} (p : A → bool) (l : list A) : list A :=
  match l with
  | [] => []
  | x :: l' => if p x then drop_while p l' else l
  end.

Definition trimStart (s : jsstring) : jsstring := drop_while is_ws s.
Definition trimEnd (s : jsstring) : jsstring :=
  reverse (drop_while is_ws (reverse s)).
Definition trim (s : jsstring) : jsstring := trimEnd (trimStart s).

Definition str_eqb (a b : jsstring) : bool := bool_decide (a = b).

Fixpoint startsWith (p s : jsstring) : bool :=
  match p, s with
  | [], _ => true
  | c :: p', d :: s' => (c =? d)%N && startsWith p' s'
  | _ :: _, [] => false
  end.

Definition endsWith (p s : jsstring) : bool :=
  startsWith (reverse p) (reverse s).

Fixpoint includes (p s : jsstring) : bool :=
  startsWith p s ||
  match s with
  | [] => false
  | _ :: s' => includes p s'
  end.

(** [s.split(sep)] for a one-unit separator: the pieces between
    separators, always at least one piece. *)
Fixpoint split (sep : N) (s : jsstring) : list jsstring :=
  match s with
  | [] => [[]]
  | c :: s' =>
      if (c =? sep)%N then [] :: split sep s'
      else match split sep s' with
           | [] => [[c]]
           | piece :: rest => (c :: piece) :: rest
           end
  end.

(** [a.join(sep)]. *)
Fixpoint join (sep : jsstring) (l : list jsstring) : jsstring :=
  match l with
  | [] => []
  | [x] => x
  | x :: l' => x ++ sep ++ join sep l'
  end.

Definition LF : N := 10.

(** *** JSON values

    The value [JSON.parse] returns.  An object is the list of its own
    properties, each name once; a number is its rational value (finite
    doubles). *)
Inductive JSON : Type :=
  | JNull
  | JBool (b : bool)
  | JNum (q : Qc)
  | JStr (s : jsstring)
  | JArr (l : list JSON)
  | JObj (props : list (jsstring * JSON)).

(** A JavaScript value that may be [undefined]. *)
Abbreviation JSValue := (option JSON).

Definition JZero : JSON := JNum 0%Qc.

(** ToBoolean. *)
Definition truthy (v : JSValue) : bool :=
  match v with
  | None => false
  | Some JNull => false
  | Some (JBool b) => b
  | Some (JNum q) => bool_decide (q ≠ 0%Qc)
  | Some (JStr s) => bool_decide (s ≠ [])
  | Some (JArr _) => true
  | Some (JObj _) => true
  end.

(** [a || b]. *)
Definition or_else (a b : JSValue) : JSValue := if truthy a then a else b.

Fixpoint assoc {V} (k : jsstring) (l : list (jsstring * V)) : option V :=
  match l with
  | [] => None
  | (k', v) :: l' => if decide (k = k') then Some v else assoc k l'
  end.

(** [v.k] for a property name [k] that no prototype defines (every name
    read in the daemon is of that kind): the own property of an object,
    [undefined] on any other value.  Reading a property of [null] throws
    and is handled at the call sites. *)
Definition get (v : JSValue) (k : jsstring) : JSValue :=
  match v with
  | Some (JObj props) => assoc k props
  | _ => None
  end.

Definition is_str (v : JSValue) (s : jsstring) : bool :=
  match v with
  | Some (JStr s') => str_eqb s' s
  | _ => false
  end.

End JS.
Import JS.

(** ** cli-parser.ts: the structured-event grammar *)

Module CliParser.

(** The [type] of an event; [complete_event] and [raw_event] stand for
    ['complete'] and ['raw']. *)
Inductive EventType : Type :=
  | init | user_message | assistant_chunk | assistant_complete
  | thinking | tool_call | tool_result | complete_event | error | raw_event.

(** [new Date()] read at clock value [t], or [new Date(v)]. *)
Inductive Date : Type :=
  | DateNow (t : N)
  | DateFrom (v : JSON).

Record Stats : Type := {
  totalTokens : JSON;
  inputTokens : JSON;
  outputTokens : JSON;
  durationMs : JSON;
  toolCalls : JSON;
}.

Record CLIEvent : Type := {
  type : EventType;
  timestamp : Date;
  sessionId : JSValue;
  model : JSValue;
  role : JSValue;
  content : JSValue;
  isStreaming : JSValue;
  toolName : JSValue;
  toolArgs : JSValue;
  toolResult : JSValue;
  stats : option Stats;
  raw : option jsstring;
}.

(** [v || d] where [d] is a literal. *)
Definition or_default (v : JSValue) (d : JSON) : JSON :=
  match v with
  | Some j => if truthy v then j else d
  | None => d
  end.

Section Parse.

Variable JSON_parse : jsstring → option JSON.   (* [None]: SyntaxError *)

Definition parseCLILine (now : N) (line : jsstring) : option CLIEvent :=
  let trimmed := trim line in
  if str_eqb trimmed [] then None
  else if negb (startsWith (lit "{") trimmed) then
    if includes (lit "Thinking") trimmed || includes (lit "...") trimmed then
      Some {| type := thinking; timestamp := DateNow now;
              sessionId := None; model := None; role := None;
              content := Some (JStr trimmed); isStreaming := None;
              toolName := None; toolArgs := None; toolResult := None;
              stats := None; raw := None |}
    else None
  else
    match JSON_parse trimmed with
    | None => None                        (* catch: not valid JSON *)
    | Some JNull => None                  (* [json.timestamp] throws, caught *)
    | Some j =>
        let json : JSValue := Some j in
        let timestamp :=
          match get json (lit "timestamp") with
          | Some t => if truthy (Some t) then DateFrom t else DateNow now
          | None => DateNow now
          end in
        let ty := get json (lit "type") in
        if is_str ty (lit "init") then
          Some {| type := init; timestamp := timestamp;
                  sessionId := get json (lit "session_id");
                  model := get json (lit "model"); role := None;
                  content := None; isStreaming := None;
                  toolName := None; toolArgs := None; toolResult := None;
                  stats := None; raw := None |}
        else if is_str ty (lit "message") then
          if is_str (get json (lit "role")) (lit "user") then
            Some {| type := user_message; timestamp := timestamp;
                    sessionId := None; model := None;
                    role := Some (JStr (lit "user"));
                    content := get json (lit "content"); isStreaming := None;
                    toolName := None; toolArgs := None; toolResult := None;
                    stats := None; raw := None |}
          else if is_str (get json (lit "role")) (lit "assistant") then
            Some {| type := if truthy (get json (lit "delta"))
                            then assistant_chunk else assistant_complete;
                    timestamp := timestamp;
                    sessionId := None; model := None;
                    role := Some (JStr (lit "assistant"));
                    content := get json (lit "content");
                    isStreaming :=
                      or_else (get json (lit "delta")) (Some (JBool false));
                    toolName := None; toolArgs := None; toolResult := None;
                    stats := None; raw := None |}
          else None                       (* break; return null *)
        else if is_str ty (lit "tool_call") then
          Some {| type := tool_call; timestamp := timestamp;
                  sessionId := None; model := None; role := None;
                  content := None; isStreaming := None;
                  toolName := or_else (get json (lit "tool"))
                                      (get json (lit "name"));
                  toolArgs := or_else (get json (lit "args"))
                                      (get json (lit "arguments"));
                  toolResult := None; stats := None; raw := None |}
        else if is_str ty (lit "tool_result") then
          Some {| type := tool_result; timestamp := timestamp;
                  sessionId := None; model := None; role := None;
                  content := None; isStreaming := None;
                  toolName := or_else (get json (lit "tool"))
                                      (get json (lit "name"));
                  toolArgs := None;
                  toolResult := get json (lit "result");
                  stats := None; raw := None |}
        else if is_str ty (lit "result") then
          let st := get json (lit "stats") in
          Some {| type := complete_event; timestamp := timestamp;
                  sessionId := None; model := None; role := None;
                  content := None; isStreaming := None;
                  toolName := None; toolArgs := None; toolResult := None;
                  stats :=
                    if truthy st then
                      Some {| totalTokens :=
                                or_default (get st (lit "total_tokens")) JZero;
                              inputTokens :=
                                or_default
                                  (or_else (get st (lit "input_tokens"))
                                           (get st (lit "input"))) JZero;
                              outputTokens :=
                                or_default
                                  (or_else (get st (lit "output_tokens"))
                                           (get st (lit "output"))) JZero;
                              durationMs :=
                                or_default (get st (lit "duration_ms")) JZero;
                              toolCalls :=
                                or_default (get st (lit "tool_calls")) JZero |}
                    else None;
                  raw := None |}
        else if is_str ty (lit "error") then
          Some {| type := error; timestamp := timestamp;
                  sessionId := None; model := None; role := None;
                  content :=
                    Some (or_default
                            (or_else (get json (lit "message"))
                                     (get json (lit "error")))
                            (JStr (lit "Unknown error")));
                  isStreaming := None;
                  toolName := None; toolArgs := None; toolResult := None;
                  stats := None; raw := None |}
        else
          Some {| type := raw_event; timestamp := timestamp;
                  sessionId := None; model := None; role := None;
                  content := None; isStreaming := None;
                  toolName := None; toolArgs := None; toolResult := None;
                  stats := None; raw := Some trimmed |}
    end.

End Parse.

(** *** MessageAccumulator *)

Record MessageAccumulator : Type := {
  currentMessage : jsstring;
  acc_isStreaming : bool;
}.

(** [new MessageAccumulator()] *)
Definition new_accumulator : MessageAccumulator :=
  {| currentMessage := []; acc_isStreaming := false |}.

Definition reset (a : MessageAccumulator) : MessageAccumulator :=
  {| currentMessage := []; acc_isStreaming := false |}.

Definition addChunk (chunk : jsstring) (a : MessageAccumulator)
  : jsstring * MessageAccumulator :=
  let a' := {| currentMessage := currentMessage a ++ chunk;
               acc_isStreaming := true |} in
  (currentMessage a', a').

Definition complete (a : MessageAccumulator)
  : jsstring * MessageAccumulator :=
  let a' := {| currentMessage := currentMessage a;
               acc_isStreaming := false |} in
  (currentMessage a', a').

Definition getCurrentMessage (a : MessageAccumulator) : jsstring :=
  currentMessage a.

Definition isCurrentlyStreaming (a : MessageAccumulator) : bool :=
  acc_isStreaming a.

(** Feeding chunks one after the other: the value every [addChunk] call
    returned, and the accumulator the last call left. *)
Fixpoint addChunks (chunks : list jsstring) (a : MessageAccumulator)
  : list jsstring * MessageAccumulator :=
  match chunks with
  | [] => ([], a)
  | c :: cs =>
      let '(r, a1) := addChunk c a in
      let '(rs, a2) := addChunks cs a1 in
      (r :: rs, a2)
  end.

End CliParser.

(** ** terminal-parser.ts: the raw-terminal grammar *)

Module TerminalParser.

Definition ESC : N := 27.

Definition is_param (c : N) : bool :=
  ((48 <=? c)%N && (c <=? 57)%N) || (c =? 59)%N.          (* [0-9;] *)

Definition is_letter (c : N) : bool :=
  ((97 <=? c)%N && (c <=? 122)%N) || ((65 <=? c)%N && (c <=? 90)%N).

Fixpoint take_while {A} (p : A → bool) (l : list A) : list A :=
  match l with
  | [] => []
  | x :: l' => if p x then x :: take_while p l' else []
  end.

(** Length of the match of [/\x1b\[[0-9;]*[a-zA-Z]/] anchored at the start
    of [s], if there is one.  The classes [[0-9;]] and [[a-zA-Z]] are
    disjoint, so the greedy star never has to give a unit back. *)
Definition ansi_match (s : jsstring) : option nat :=
  match s with
  | e :: b :: rest =>
      if (e =? ESC)%N && (b =? 91)%N then
        let params := take_while is_param rest in
        match drop (length params) rest with
        | c :: _ => if is_letter c then Some (3 + length params) else None
        | [] => None
        end
      else None
  | _ => None
  end.

(** The global replace: scan left to right; where the expression matches,
    drop the match and go on after it; elsewhere keep the unit.  [skip]
    counts the units of the current match still to drop. *)
Fixpoint strip_from (skip : nat) (s : jsstring) : jsstring :=
  match s with
  | [] => []
  | c :: s' =>
      match skip with
      | S k => strip_from k s'
      | O =>
          match ansi_match s with
          | Some n => strip_from (pred n) s'
          | None => c :: strip_from 0 s'
          end
      end
  end.

Definition stripAnsi (text : jsstring) : jsstring := strip_from 0 text.

Definition GT : N := 62.          (* > *)
Definition HEAVY_GT : N := 10095. (* U+276F, the heavy right angle glyph *)

(** [clean.match(/^[>❯]\s*$/) !== null] *)
Definition prompt_regex (clean : jsstring) : bool :=
  match clean with
  | c :: rest => ((c =? GT)%N || (c =? HEAVY_GT)%N) && forallb is_ws rest
  | [] => false
  end.

Definition isPromptLine (line : jsstring) : bool :=
  let clean := trim (stripAnsi line) in
  str_eqb clean [GT] || str_eqb clean [HEAVY_GT]
  || endsWith (lit "> ") clean || prompt_regex clean.

End TerminalParser.

(** ** Effects: a state and exception monad

    [M S A] is a computation over a store [S] that returns an [A] or
    throws; the store a throwing computation leaves behind is kept, as
    the side effects of JavaScript code that throws half-way are. *)

Module Eff.

Inductive Exn : Type :=
  | Error (msg : jsstring)
  | TypeError
  | SyntaxError
  | SystemError.             (* a failed file-system or process call *)

Inductive Res (S A : Type) : Type :=
  | Ok (a : A) (s : S)
  | Throw (e : Exn) (s : S).
Arguments Ok {S A} a s.
Arguments Throw {S A} e s.

Definition M (S A : Type) : Type := S → Res S A.

Definition ret {S A} (a : A) : M S A := λ s, Ok a s.

Definition bind {S A B} (m : M S A) (k : A → M S B) : M S B :=
  λ s, match m s with
       | Ok a s' => k a s'
       | Throw e s' => Throw e s'
       end.

Definition throw {S A} (e : Exn) : M S A := λ s, Throw e s.

(** [try { m } catch (e) { h e }] *)
Definition try_catch {S A} (m : M S A) (h : Exn → M S A) : M S A :=
  λ s, match m s with
       | Ok a s' => Ok a s'
       | Throw e s' => h e s'
       end.

Definition gets {S A} (f : S → A) : M S A := λ s, Ok (f s) s.
Definition modify {S} (f : S → S) : M S unit := λ s, Ok tt (f s).

Declare Scope eff_scope.
Delimit Scope eff_scope with eff.
Bind Scope eff_scope with M.

Notation "'let*' x ':=' m 'in' k" := (bind m (λ x, k))
  (at level 10, x name, m at level 100, k at level 200,
   format "'[v' 'let*'  x  ':='  m  'in' '/' k ']'") : eff_scope.
Notation "'let*' ' p ':=' m 'in' k" := (bind m (λ x, match x with p => k end))
  (at level 10, p strict pattern, m at level 100, k at level 200) : eff_scope.
Notation "m '>>' k" := (bind m (λ _, k))
  (at level 100, k at level 200, right associativity) : eff_scope.

(** [xs.forEach(f)] over a snapshot of the elements. *)
Fixpoint forEach {S A} (f : A → M S unit) (xs : list A) : M S unit :=
  match xs with
  | [] => ret tt
  | x :: xs' => bind (f x) (λ _, forEach f xs')
  end.

(** Running a computation of a component on the store that contains it. *)
Definition zoom {S T A} (proj : S → T) (upd : T → S → S) (m : M T A)
  : M S A :=
  λ s, match m (proj s) with
       | Ok a t => Ok a (upd t s)
       | Throw e t => Throw e (upd t s)
       end.

Definition returned {S A} (r : Res S A) : option A :=
  match r with Ok a _ => Some a | Throw _ _ => None end.

Definition store {S A} (r : Res S A) : S :=
  match r with Ok _ s => s | Throw _ s => s end.

End Eff.
Import Eff.
#[local] Open Scope eff_scope.

(** ** The state manager (state.ts) *)

Module State.

Inductive Path : Type := AUTH_TOKEN_FILE | STATE_FILE.

Inductive File : Type :=
  | Missing
  | Unreadable               (* exists, but reading it fails *)
  | Content (data : jsstring).

(** The part of the file system the state manager touches: the state
    directory [~/.agent-hub] and the two files in it.  [writable] tells
    whether creating the directory and writing a file succeed. *)
Record Fs : Type := {
  state_dir : bool;
  writable : bool;
  auth_token_file : File;
  state_file : File;
}.

Definition file (p : Path) (fs : Fs) : File :=
  match p with
  | AUTH_TOKEN_FILE => auth_token_file fs
  | STATE_FILE => state_file fs
  end.

Definition set_file (p : Path) (f : File) (fs : Fs) : Fs :=
  match p with
  | AUTH_TOKEN_FILE =>
      {| state_dir := state_dir fs; writable := writable fs;
         auth_token_file := f; state_file := state_file fs |}
  | STATE_FILE =>
      {| state_dir := state_dir fs; writable := writable fs;
         auth_token_file := auth_token_file fs; state_file := f |}
  end.

Definition existsSync (p : Path) : M Fs bool :=
  gets (λ fs, match file p fs with Missing => false | _ => true end).

Definition readFileSync (p : Path) : M Fs jsstring :=
  λ fs, match file p fs with
        | Content data => Ok data fs
        | _ => Throw SystemError fs
        end.

Definition writeFileSync (p : Path) (data : jsstring) : M Fs unit :=
  λ fs, if writable fs then Ok tt (set_file p (Content data) fs)
        else Throw SystemError fs.

Definition mkdirSync : M Fs unit :=
  λ fs, if writable fs
        then Ok tt {| state_dir := true; writable := writable fs;
                      auth_token_file := auth_token_file fs;
                      state_file := state_file fs |}
        else Throw SystemError fs.

Definition ensureStateDir : M Fs unit :=
  let* dir := gets state_dir in
  if negb dir then mkdirSync else ret tt.

(** [uuid] is the value [uuidv4()] returns when it is called. *)
Definition getAuthToken (uuid : jsstring) : M Fs jsstring :=
  ensureStateDir >>
  let* present := existsSync AUTH_TOKEN_FILE in
  if present then
    let* data := readFileSync AUTH_TOKEN_FILE in
    ret (trim data)
  else
    let token := lit "ah_" ++ filter (λ c, c ≠ 45%N) uuid in
    writeFileSync AUTH_TOKEN_FILE token >>
    ret token.

(** [token === validToken]: only a string can be identical to the token. *)
Definition validateToken (uuid : jsstring) (token : JSValue) : M Fs bool :=
  let* validToken := getAuthToken uuid in
  ret (is_str token validToken).

(** *** The state record

    At run time a [DaemonState] is a plain object: the list of its
    properties. *)
Abbreviation Props := (list (jsstring * JSON)).

Definition DEFAULT_STATE : Props :=
  [ (lit "activeProject", JNull);
    (lit "recentProjects", JArr []);
    (lit "cliPid", JNull);
    (lit "status", JStr (lit "idle")) ].

(** [o[k] = v] on an object: overwrite in place or append. *)
Fixpoint set_prop (k : jsstring) (v : JSON) (o : Props) : Props :=
  match o with
  | [] => [(k, v)]
  | (k', v') :: o' =>
      if decide (k = k') then (k, v) :: o' else (k', v') :: set_prop k v o'
  end.

Definition index_key (i : nat) : jsstring := lit (pretty i).

(** The own enumerable properties object spread copies from a value:
    the properties of an object, the indexed elements of an array or of
    a string, nothing for [null], a boolean or a number. *)
Definition own_props (v : JSON) : Props :=
  match v with
  | JObj props => props
  | JArr l => imap (λ i x, (index_key i, x)) l
  | JStr s => imap (λ i c, (index_key i, JStr [c])) s
  | _ => []
  end.

(** [{ ...base, ...v }] *)
Definition spread (base : Props) (v : JSON) : Props :=
  fold_left (λ o kv, set_prop kv.1 kv.2 o) (own_props v) base.

Section Persist.

Variable JSON_parse : jsstring → option JSON.      (* [None]: SyntaxError *)
Variable JSON_stringify : JSON → jsstring.

Definition loadState : M Fs Props :=
  ensureStateDir >>
  let* present := existsSync STATE_FILE in
  if negb present then ret DEFAULT_STATE
  else
    try_catch
      (let* data := readFileSync STATE_FILE in
       match JSON_parse data with
       | Some v => ret (spread DEFAULT_STATE v)
       | None => throw SyntaxError
       end)
      (λ _, ret DEFAULT_STATE).

Definition saveState (state : Props) : M Fs unit :=
  ensureStateDir >>
  writeFileSync STATE_FILE (JSON_stringify (JObj state)).

Definition updateState (updates : Props) : M Fs Props :=
  let* current := loadState in
  let newState := spread current (JObj updates) in
  saveState newState >>
  ret newState.

(** [p !== projectPath] *)
Definition differs (projectPath : jsstring) (p : JSON) : bool :=
  negb (is_str (Some p) projectPath).

Definition addRecentProject (projectPath : jsstring) : M Fs unit :=
  let* state := loadState in
  match assoc (lit "recentProjects") state with
  | Some (JArr l) =>
      let recent := JStr projectPath :: List.filter (differs projectPath) l in
      saveState (set_prop (lit "recentProjects") (JArr (take 10 recent)) state)
  | _ => throw TypeError        (* [.filter] is not a function *)
  end.

End Persist.

End State.

(** ** Subscriber sets

    A JavaScript [Set] of callbacks: its elements in insertion order,
    without repetition.  A callback is a function object; the type that
    stands for it has a decidable equality (object identity). *)

Module Subscribers.
Section Subscribers.
Context {Callback : Type} `{EqDecision Callback}.

Definition add (cb : Callback) (subs : list Callback) : list Callback :=
  if decide (cb ∈ subs) then subs else subs ++ [cb].

Definition delete (cb : Callback) (subs : list Callback) : list Callback :=
  filter (λ c, c ≠ cb) subs.

End Subscribers.
End Subscribers.

(** ** The terminal manager (terminal-manager.ts) *)

Module Terminal.

Abbreviation Loc := nat.      (* a reference to a session object *)
Abbreviation Pty := nat.      (* a pseudo-terminal process object *)

Inductive EventType : Type := output | exit | error | created | list_.

Record SessionInfo : Type := {
  info_id : jsstring;
  info_projectPath : jsstring;
  info_projectName : jsstring;
  info_createdAt : N;
  info_lastActivity : N;
  bufferLines : nat;
}.

Record TerminalEvent : Type := {
  type : EventType;
  sessionId : jsstring;
  data : option jsstring;
  exitCode : option Z;
  event_sessions : option (list SessionInfo);
}.

(** Calls made on [node-pty]. *)
Inductive PtyCall : Type :=
  | pty_spawn (p : Pty) (cwd : jsstring)
  | pty_write (p : Pty) (data : jsstring)
  | pty_resize (p : Pty) (cols rows : JSON)
  | pty_kill (p : Pty).

Section Manager.
Context {Callback : Type} `{EqDecision Callback} {Ext : Type}.

(** What calling a subscriber does: it acts on the world outside the
    manager ([Ext]) and may throw. *)
Variable invoke : Callback → TerminalEvent → M Ext unit.
Variable basename : jsstring → jsstring.              (* [path.basename] *)

Record TerminalSession : Type := {
  id : jsstring;
  projectPath : jsstring;
  projectName : jsstring;
  ptyProcess : Pty;
  buffer : list jsstring;
  maxBufferLines : nat;
  createdAt : N;
  lastActivity : N;
  subscribers : list Callback;
}.

(** The manager, the session objects its maps and closures refer to,
    and the traces of what it did to the outside.  A JavaScript [Map]
    enumerates its entries in the order in which their keys were
    inserted: [order] holds the keys of [sessions] in that order. *)
Record Store : Type := {
  sessions : gmap jsstring Loc;
  order : list jsstring;
  projectToSession : gmap jsstring jsstring;
  heap : gmap Loc TerminalSession;
  pty_calls : list PtyCall;
  delivered : list (Callback * TerminalEvent);
  ext : Ext;
}.

Definition empty (e : Ext) : Store :=
  {| sessions := ∅; order := []; projectToSession := ∅; heap := ∅;
     pty_calls := []; delivered := []; ext := e |}.

(** [this.sessions.set(i, session)]: a key that is new goes last, a key
    that is there keeps its place. *)
Definition sessions_set (i : jsstring) (session : Loc) (st : Store) : Store :=
  {| sessions := <[i := session]> (sessions st);
     order := if decide (i ∈ order st) then order st else order st ++ [i];
     projectToSession := projectToSession st;
     heap := heap st; pty_calls := pty_calls st;
     delivered := delivered st; ext := ext st |}.

(** [this.sessions.delete(i)] *)
Definition sessions_delete (i : jsstring) (st : Store) : Store :=
  {| sessions := delete i (sessions st);
     order := filter (λ k, k ≠ i) (order st);
     projectToSession := projectToSession st;
     heap := heap st; pty_calls := pty_calls st;
     delivered := delivered st; ext := ext st |}.

Definition set_projectToSession
    (f : gmap jsstring jsstring → gmap jsstring jsstring) (st : Store)
  : Store :=
  {| sessions := sessions st; order := order st;
     projectToSession := f (projectToSession st);
     heap := heap st; pty_calls := pty_calls st;
     delivered := delivered st; ext := ext st |}.

Definition set_heap (f : gmap Loc TerminalSession → gmap Loc TerminalSession)
    (st : Store) : Store :=
  {| sessions := sessions st; order := order st;
     projectToSession := projectToSession st;
     heap := f (heap st); pty_calls := pty_calls st;
     delivered := delivered st; ext := ext st |}.

Definition set_ext (e : Ext) (st : Store) : Store :=
  {| sessions := sessions st; order := order st;
     projectToSession := projectToSession st;
     heap := heap st; pty_calls := pty_calls st;
     delivered := delivered st; ext := e |}.

Definition pty (c : PtyCall) : M Store unit :=
  modify (λ st,
    {| sessions := sessions st; order := order st;
       projectToSession := projectToSession st;
       heap := heap st; pty_calls := pty_calls st ++ [c];
       delivered := delivered st; ext := ext st |}).

(** [callback(event)] *)
Definition call (cb : Callback) (event : TerminalEvent) : M Store unit :=
  modify (λ st,
    {| sessions := sessions st; order := order st;
       projectToSession := projectToSession st;
       heap := heap st; pty_calls := pty_calls st;
       delivered := delivered st ++ [(cb, event)]; ext := ext st |}) >>
  zoom ext set_ext (invoke cb event).

(** Dereferencing a session object. *)
Definition deref (l : Loc) : M Store TerminalSession :=
  λ st, match heap st !! l with
        | Some s => Ok s st
        | None => Throw TypeError st
        end.

Definition update (l : Loc) (f : TerminalSession → TerminalSession)
  : M Store unit :=
  modify (set_heap (alter f l)).

Definition touch (now : N) (s : TerminalSession) : TerminalSession :=
  {| id := id s; projectPath := projectPath s; projectName := projectName s;
     ptyProcess := ptyProcess s; buffer := buffer s;
     maxBufferLines := maxBufferLines s; createdAt := createdAt s;
     lastActivity := now; subscribers := subscribers s |}.

Definition set_buffer (b : list jsstring) (s : TerminalSession)
  : TerminalSession :=
  {| id := id s; projectPath := projectPath s; projectName := projectName s;
     ptyProcess := ptyProcess s; buffer := b;
     maxBufferLines := maxBufferLines s; createdAt := createdAt s;
     lastActivity := lastActivity s; subscribers := subscribers s |}.

Definition set_subscribers (f : list Callback → list Callback)
    (s : TerminalSession) : TerminalSession :=
  {| id := id s; projectPath := projectPath s; projectName := projectName s;
     ptyProcess := ptyProcess s; buffer := buffer s;
     maxBufferLines := maxBufferLines s; createdAt := createdAt s;
     lastActivity := lastActivity s; subscribers := f (subscribers s) |}.

(** [broadcast(session, event)]: every subscriber is called inside its
    own [try]/[catch]. *)
Definition broadcast (session : Loc) (event : TerminalEvent) : M Store unit :=
  let* s := deref session in
  forEach (λ callback, try_catch (call callback event) (λ _, ret tt))
          (subscribers s).

(** [a.slice(-n)] *)
Definition slice_last {A} (n : nat) (a : list A) : list A :=
  match n with
  | O => a
  | _ => drop (length a - n) a
  end.

(** The buffer after the lines of [data] arrived. *)
Definition push_lines (data : jsstring) (s : TerminalSession)
  : TerminalSession :=
  let buffer' := buffer s ++ split LF data in
  set_buffer (if decide (maxBufferLines s < length buffer')
              then slice_last (maxBufferLines s) buffer'
              else buffer') s.

(** The [onData] handler of the session object [session]. *)
Definition onData (session : Loc) (now : N) (data : jsstring)
  : M Store unit :=
  let* s := deref session in
  update session (touch now) >>
  update session (push_lines data) >>
  broadcast session
    {| type := output; sessionId := id s; data := Some data;
       exitCode := None; event_sessions := None |}.

(** The [onExit] handler of the session object [session]. *)
Definition onExit (session : Loc) (code : Z) : M Store unit :=
  let* s := deref session in
  broadcast session
    {| type := exit; sessionId := id s; data := None;
       exitCode := Some code; event_sessions := None |} >>
  modify (sessions_delete (id s)) >>
  modify (set_projectToSession (delete (projectPath s))).

(** What the environment answers during [getOrCreateSession]. *)
Record SpawnEnv : Type := {
  random : jsstring;                (* [Math.random().toString(36).substr(2, 9)] *)
  path_exists : bool;               (* [fs.existsSync(projectPath)] *)
  spawned : Pty + jsstring;         (* [pty.spawn]: the process, or the
                                       message of the error it throws *)
  now : N;
}.

Definition generateId (env : SpawnEnv) : jsstring :=
  lit "term_" ++ lit (pretty (now env)) ++ lit "_" ++ random env.

Definition new_loc (st : Store) : Loc := fresh (dom (heap st)).

Definition getOrCreateSession (env : SpawnEnv) (path : jsstring)
  : M Store Loc :=
  let* existingId := gets (λ st, projectToSession st !! path) in
  let* existing :=
    gets (λ st, match existingId with
                | Some i => if decide (i = []) then None else sessions st !! i
                | None => None
                end) in
  match existing with
  | Some session =>
      update session (touch (now env)) >> ret session
  | None =>
      if negb (path_exists env) then
        throw (Error (lit "Project path does not exist: " ++ path))
      else
        match spawned env with
        | inr msg => throw (Error (lit "Failed to create terminal: " ++ msg))
        | inl p =>
            pty (pty_spawn p path) >>
            let* session := gets new_loc in
            let sid := generateId env in
            modify (set_heap (insert session
              {| id := sid; projectPath := path;
                 projectName := basename path; ptyProcess := p;
                 buffer := []; maxBufferLines := 5000;
                 createdAt := now env; lastActivity := now env;
                 subscribers := [] |})) >>
            modify (sessions_set sid session) >>
            modify (set_projectToSession (insert path sid)) >>
            broadcast session
              {| type := created; sessionId := sid; data := None;
                 exitCode := None; event_sessions := None |} >>
            ret session
        end
  end.

Definition getSession (sessionId : jsstring) : M Store (option Loc) :=
  gets (λ st, sessions st !! sessionId).

Definition write (now : N) (sessionId data : jsstring) : M Store bool :=
  let* found := getSession sessionId in
  match found with
  | None => ret false
  | Some session =>
      let* s := deref session in
      pty (pty_write (ptyProcess s) data) >>
      update session (touch now) >>
      ret true
  end.

Definition resize (sessionId : jsstring) (cols rows : JSON) : M Store bool :=
  let* found := getSession sessionId in
  match found with
  | None => ret false
  | Some session =>
      let* s := deref session in
      pty (pty_resize (ptyProcess s) cols rows) >>
      ret true
  end.

Definition close (sessionId : jsstring) : M Store bool :=
  let* found := getSession sessionId in
  match found with
  | None => ret false
  | Some session =>
      let* s := deref session in
      pty (pty_kill (ptyProcess s)) >>
      modify (sessions_delete sessionId) >>
      modify (set_projectToSession (delete (projectPath s))) >>
      ret true
  end.

(** The closure [subscribe] returns. *)
Inductive Unsubscribe : Type :=
  | dummy_unsubscribe                           (* [() => {}] *)
  | unsubscribe_from (session : Loc) (callback : Callback).

Definition run_unsubscribe (u : Unsubscribe) : M Store unit :=
  match u with
  | dummy_unsubscribe => ret tt
  | unsubscribe_from session callback =>
      update session (set_subscribers (Subscribers.delete callback))
  end.

Definition subscribe (sessionId : jsstring) (callback : Callback)
  : M Store Unsubscribe :=
  let* found := getSession sessionId in
  match found with
  | None => ret dummy_unsubscribe
  | Some session =>
      update session (set_subscribers (Subscribers.add callback)) >>
      let* s := deref session in
      (if decide (0 < length (buffer s)) then
         call callback
           {| type := output; sessionId := sessionId;
              data := Some (join [LF] (buffer s)); exitCode := None; event_sessions := None |}
       else ret tt) >>
      ret (unsubscribe_from session callback)
  end.

Definition info_of (s : TerminalSession) : SessionInfo :=
  {| info_id := id s; info_projectPath := projectPath s;
     info_projectName := projectName s; info_createdAt := createdAt s;
     info_lastActivity := lastActivity s;
     bufferLines := length (buffer s) |}.

(** The sessions of the map, in the order the map enumerates them. *)
Definition listSessions : M Store (list SessionInfo) :=
  gets (λ st,
    omap (λ i, match sessions st !! i with
               | Some session => info_of <$> heap st !! session
               | None => None
               end) (order st)).

Definition getBuffer (sessionId : jsstring) (lastN : option nat)
  : M Store (list jsstring) :=
  let* found := getSession sessionId in
  match found with
  | None => ret []
  | Some session =>
      let* s := deref session in
      match lastN with
      | Some (S n) => ret (slice_last (S n) (buffer s))
      | _ => ret (buffer s)
      end
  end.

Definition runCommand (now : N) (sessionId command : jsstring)
  : M Store bool :=
  let* found := getSession sessionId in
  match found with
  | None => ret false
  | Some session =>
      let* s := deref session in
      pty (pty_write (ptyProcess s) (command ++ [13%N])) >>
      update session (touch now) >>
      ret true
  end.

(** [for (const [id] of this.sessions) this.close(id)]: every entry is
    visited once, in the order of the map; [close(id)] removes no entry
    but the one that is being visited. *)
Definition closeAll : M Store unit :=
  let* ids := gets order in
  forEach (λ i, close i >> ret tt) ids.

End Manager.

End Terminal.

(** ** The CLI chat manager (cli-chat-manager.ts) *)

Module Chat.
Import CliParser.

Abbreviation Loc := nat.       (* a reference to a session object *)
Abbreviation Proc := nat.      (* a [ChildProcess] object *)

Inductive Role : Type := user | assistant.

(** What happened to child processes: the manager's calls and the
    [close] events it received. *)
Inductive ProcEvent : Type :=
  | proc_spawn (p : Proc) (args : list jsstring) (cwd : jsstring)
  | proc_kill (p : Proc)
  | proc_closed (p : Proc).

Section Manager.
Context {Callback : Type} `{EqDecision Callback} {Ext : Type}.

Variable invoke : Callback → CLIEvent → M Ext unit.
Variable basename : jsstring → jsstring.              (* [path.basename] *)
Variable JSON_parse : jsstring → option JSON.
Variable ToString : JSON → jsstring.     (* string conversion of a value *)
Variable Buffer_toString : list byte → jsstring.
  (* [data.toString()] of a [Buffer]: the bytes decoded as UTF-8, each
     chunk on its own *)

Record ChatSession : Type := {
  id : jsstring;
  projectPath : jsstring;
  projectName : jsstring;
  subscribers : list Callback;
  isReady : bool;
  session_model : option jsstring;
  createdAt : N;
  currentProcess : option Proc;
  conversationHistory : list (Role * jsstring);
}.

(** The variables the handlers of one spawned process close over. *)
Record Invocation : Type := {
  inv_session : Loc;
  accumulator : MessageAccumulator;
  lineBuffer : jsstring;
  startTime : N;
}.

(** [order] holds the keys of [sessions] in the order of their insertion,
    the order in which the [Map] enumerates its entries. *)
Record Store : Type := {
  sessions : gmap jsstring Loc;
  order : list jsstring;
  heap : gmap Loc ChatSession;
  invocations : gmap Proc Invocation;
  proc_log : list ProcEvent;
  delivered : list (Callback * CLIEvent);
  ext : Ext;
}.

Definition empty (e : Ext) : Store :=
  {| sessions := ∅; order := []; heap := ∅; invocations := ∅;
     proc_log := []; delivered := []; ext := e |}.

(** [this.sessions.set(i, session)]: a key that is new goes last, a key
    that is there keeps its place. *)
Definition sessions_set (i : jsstring) (session : Loc) (st : Store) : Store :=
  {| sessions := <[i := session]> (sessions st);
     order := if decide (i ∈ order st) then order st else order st ++ [i];
     heap := heap st;
     invocations := invocations st; proc_log := proc_log st;
     delivered := delivered st; ext := ext st |}.

(** [this.sessions.delete(i)] *)
Definition sessions_delete (i : jsstring) (st : Store) : Store :=
  {| sessions := delete i (sessions st);
     order := filter (λ k, k ≠ i) (order st);
     heap := heap st;
     invocations := invocations st; proc_log := proc_log st;
     delivered := delivered st; ext := ext st |}.

(** [this.sessions.clear()] *)
Definition sessions_clear (st : Store) : Store :=
  {| sessions := ∅; order := []; heap := heap st;
     invocations := invocations st; proc_log := proc_log st;
     delivered := delivered st; ext := ext st |}.

Definition set_heap (f : gmap Loc ChatSession → gmap Loc ChatSession)
    (st : Store) : Store :=
  {| sessions := sessions st; order := order st; heap := f (heap st);
     invocations := invocations st; proc_log := proc_log st;
     delivered := delivered st; ext := ext st |}.

Definition set_invocations
    (f : gmap Proc Invocation → gmap Proc Invocation) (st : Store) : Store :=
  {| sessions := sessions st; order := order st; heap := heap st;
     invocations := f (invocations st); proc_log := proc_log st;
     delivered := delivered st; ext := ext st |}.

Definition set_ext (e : Ext) (st : Store) : Store :=
  {| sessions := sessions st; order := order st; heap := heap st;
     invocations := invocations st; proc_log := proc_log st;
     delivered := delivered st; ext := e |}.

Definition log (ev : ProcEvent) : M Store unit :=
  modify (λ st,
    {| sessions := sessions st; order := order st; heap := heap st;
       invocations := invocations st; proc_log := proc_log st ++ [ev];
       delivered := delivered st; ext := ext st |}).

(** [callback(event)] *)
Definition call (cb : Callback) (event : CLIEvent) : M Store unit :=
  modify (λ st,
    {| sessions := sessions st; order := order st; heap := heap st;
       invocations := invocations st; proc_log := proc_log st;
       delivered := delivered st ++ [(cb, event)]; ext := ext st |}) >>
  zoom ext set_ext (invoke cb event).

Definition deref (l : Loc) : M Store ChatSession :=
  λ st, match heap st !! l with
        | Some s => Ok s st
        | None => Throw TypeError st
        end.

Definition update (l : Loc) (f : ChatSession → ChatSession) : M Store unit :=
  modify (set_heap (alter f l)).

Definition set_subscribers (f : list Callback → list Callback)
    (s : ChatSession) : ChatSession :=
  {| id := id s; projectPath := projectPath s; projectName := projectName s;
     subscribers := f (subscribers s); isReady := isReady s;
     session_model := session_model s; createdAt := createdAt s;
     currentProcess := currentProcess s;
     conversationHistory := conversationHistory s |}.

Definition set_currentProcess (p : option Proc) (s : ChatSession)
  : ChatSession :=
  {| id := id s; projectPath := projectPath s; projectName := projectName s;
     subscribers := subscribers s; isReady := isReady s;
     session_model := session_model s; createdAt := createdAt s;
     currentProcess := p;
     conversationHistory := conversationHistory s |}.

Definition push_history (r : Role) (text : jsstring) (s : ChatSession)
  : ChatSession :=
  {| id := id s; projectPath := projectPath s; projectName := projectName s;
     subscribers := subscribers s; isReady := isReady s;
     session_model := session_model s; createdAt := createdAt s;
     currentProcess := currentProcess s;
     conversationHistory := conversationHistory s ++ [(r, text)] |}.

Definition broadcast (session : Loc) (event : CLIEvent) : M Store unit :=
  let* s := deref session in
  forEach (λ callback, try_catch (call callback event) (λ _, ret tt))
          (subscribers s).

Definition event_of (ty : CliParser.EventType) (now : N) : CLIEvent :=
  {| type := ty; timestamp := DateNow now;
     sessionId := None; model := None; role := None; content := None;
     isStreaming := None; toolName := None; toolArgs := None;
     toolResult := None; stats := None; raw := None |}.

Definition init_event (now : N) (sid : jsstring) (m : option jsstring)
  : CLIEvent :=
  {| type := init; timestamp := DateNow now;
     sessionId := Some (JStr sid); model := JStr <$> m; role := None;
     content := None; isStreaming := None; toolName := None;
     toolArgs := None; toolResult := None; stats := None; raw := None |}.

Definition with_content (c : JSValue) (streaming : JSValue) (e : CLIEvent)
  : CLIEvent :=
  {| type := type e; timestamp := timestamp e;
     sessionId := CliParser.sessionId e; model := model e; role := role e;
     content := c; isStreaming := streaming; toolName := toolName e;
     toolArgs := toolArgs e; toolResult := toolResult e;
     stats := stats e; raw := raw e |}.

Definition with_role (r : jsstring) (e : CLIEvent) : CLIEvent :=
  {| type := type e; timestamp := timestamp e;
     sessionId := CliParser.sessionId e; model := model e;
     role := Some (JStr r);
     content := content e; isStreaming := isStreaming e;
     toolName := toolName e; toolArgs := toolArgs e;
     toolResult := toolResult e; stats := stats e; raw := raw e |}.

Definition with_stats (st : option Stats) (e : CLIEvent) : CLIEvent :=
  {| type := type e; timestamp := timestamp e;
     sessionId := CliParser.sessionId e; model := model e; role := role e;
     content := content e; isStreaming := isStreaming e;
     toolName := toolName e; toolArgs := toolArgs e;
     toolResult := toolResult e; stats := st; raw := raw e |}.

Definition new_loc (st : Store) : Loc := fresh (dom (heap st)).
Definition new_proc (st : Store) : Proc := fresh (dom (invocations st)).

Definition generateId (now : N) (random : jsstring) : jsstring :=
  lit "chat_" ++ lit (pretty now) ++ lit "_" ++ random.

(** [create(projectPath)]; [random] is the random part of the id. *)
Definition create (now : N) (random : jsstring) (path : jsstring)
  : M Store Loc :=
  let sid := generateId now random in
  let* session := gets new_loc in
  modify (set_heap (insert session
    {| id := sid; projectPath := path; projectName := basename path;
       subscribers := []; isReady := true;
       session_model := Some (lit "gemini-3-pro"); createdAt := now;
       currentProcess := None; conversationHistory := [] |})) >>
  modify (sessions_set sid session) >>
  broadcast session (init_event now sid (Some (lit "gemini-3-pro"))) >>
  ret session.

(** [send(sessionId, message)].  [spawn_throws] is what [spawn] does when
    it is called: [None] when it returns the child process, [Some e] when
    it throws [e] on the spot, as it does when it refuses its arguments
    (a NUL in the message, say).  The call is in no [try]: the exception
    leaves [send], after the user turn was recorded and announced and
    before any process is attached. *)
Definition send (now : N) (spawn_throws : option Exn)
    (sessionId message : jsstring) : M Store bool :=
  let* found := gets (λ st, sessions st !! sessionId) in
  match found with
  | None => ret false
  | Some session =>
      update session (push_history user message) >>
      broadcast session
        (with_role (lit "user")
           (with_content (Some (JStr message)) None
              (event_of user_message now))) >>
      broadcast session (event_of thinking now) >>
      let* s := deref session in
      match spawn_throws with
      | Some e => throw e
      | None =>
          let* geminiProcess := gets new_proc in
          log (proc_spawn geminiProcess
                 [lit "-o"; lit "stream-json"; lit "-p"; message]
                 (projectPath s)) >>
          update session (set_currentProcess (Some geminiProcess)) >>
          modify (set_invocations (insert geminiProcess
            {| inv_session := session; accumulator := new_accumulator;
               lineBuffer := []; startTime := now |})) >>
          ret true
      end
  end.

Definition string_of (v : JSValue) : jsstring :=
  match or_default v (JStr []) with
  | JStr s => s
  | j => ToString j
  end.

Definition set_accumulator (a : MessageAccumulator) (i : Invocation)
  : Invocation :=
  {| inv_session := inv_session i; accumulator := a;
     lineBuffer := lineBuffer i; startTime := startTime i |}.

Definition set_lineBuffer (b : jsstring) (i : Invocation) : Invocation :=
  {| inv_session := inv_session i; accumulator := accumulator i;
     lineBuffer := b; startTime := startTime i |}.

Definition invocation (p : Proc) : M Store Invocation :=
  λ st, match invocations st !! p with
        | Some i => Ok i st
        | None => Throw TypeError st
        end.

(** The duration the handler fills in when the statistics carry none. *)
Definition fill_duration (now start : N) (st : Stats) : Stats :=
  if truthy (Some (durationMs st)) then st
  else {| totalTokens := totalTokens st; inputTokens := inputTokens st;
          outputTokens := outputTokens st;
          durationMs := JNum (Qc_of_Z (Z.of_N now - Z.of_N start));
          toolCalls := toolCalls st |}.

(** The body of the loop over the complete lines of a stdout chunk. *)
Definition on_line (p : Proc) (now : N) (line : jsstring) : M Store unit :=
  let* i := invocation p in
  match parseCLILine JSON_parse now line with
  | None => ret tt
  | Some event =>
      match type event with
      | assistant_chunk =>
          let '(fullContent, a) :=
            addChunk (string_of (content event)) (accumulator i) in
          modify (set_invocations (alter (set_accumulator a) p)) >>
          broadcast (inv_session i)
            (with_content (Some (JStr fullContent)) (Some (JBool true)) event)
      | complete_event =>
          let '(finalContent, a) := complete (accumulator i) in
          modify (set_invocations (alter (set_accumulator a) p)) >>
          (if decide (finalContent ≠ [])
           then update (inv_session i) (push_history assistant finalContent)
           else ret tt) >>
          broadcast (inv_session i)
            (with_stats (fill_duration now (startTime i) <$> stats event)
                        event) >>
          modify (set_invocations (alter (set_accumulator (reset a)) p))
      | _ => broadcast (inv_session i) event
      end
  end.

(** [a.pop()] on a non-empty array: the elements before the last, and
    the last. *)
Definition pop {A} (d : A) (l : list A) : list A * A :=
  (removelast l, List.last l d).

(** The [stdout] [data] handler of process [p]; [data] is the [Buffer]
    the stream hands over. *)
Definition on_stdout (p : Proc) (now : N) (data : list byte)
  : M Store unit :=
  let* i := invocation p in
  let '(lines, rest) :=
    pop [] (split LF (lineBuffer i ++ Buffer_toString data)) in
  modify (set_invocations (alter (set_lineBuffer rest) p)) >>
  forEach (on_line p now) lines.

Definition exit_text (code : option Z) : jsstring :=
  lit "Process exited with code " ++
  match code with
  | Some c => lit (pretty c)
  | None => lit "null"
  end.

(** The [close] handler of process [p]. *)
Definition on_close (p : Proc) (now : N) (code : option Z) : M Store unit :=
  let* i := invocation p in
  log (proc_closed p) >>
  update (inv_session i) (set_currentProcess None) >>
  if decide (code = Some 0%Z) then ret tt
  else broadcast (inv_session i)
         (with_content (Some (JStr (exit_text code))) None
            (event_of error now)).

(** The [error] handler of process [p]. *)
Definition on_error (p : Proc) (now : N) (message : jsstring)
  : M Store unit :=
  let* i := invocation p in
  broadcast (inv_session i)
    (with_content (Some (JStr (lit "Process error: " ++ message))) None
       (event_of error now)).

Inductive Unsubscribe : Type :=
  | dummy_unsubscribe                           (* [() => {}] *)
  | unsubscribe_from (session : Loc) (callback : Callback).

Definition run_unsubscribe (u : Unsubscribe) : M Store unit :=
  match u with
  | dummy_unsubscribe => ret tt
  | unsubscribe_from session callback =>
      update session (set_subscribers (Subscribers.delete callback))
  end.

Definition subscribe (now : N) (sessionId : jsstring) (callback : Callback)
  : M Store Unsubscribe :=
  let* found := gets (λ st, sessions st !! sessionId) in
  match found with
  | None => ret dummy_unsubscribe
  | Some session =>
      update session (set_subscribers (Subscribers.add callback)) >>
      let* s := deref session in
      (if isReady s
       then call callback (init_event now sessionId (session_model s))
       else ret tt) >>
      ret (unsubscribe_from session callback)
  end.

Definition close (sessionId : jsstring) : M Store unit :=
  let* found := gets (λ st, sessions st !! sessionId) in
  match found with
  | None => ret tt
  | Some session =>
      let* s := deref session in
      match currentProcess s with
      | Some p => log (proc_kill p)
      | None => ret tt
      end >>
      modify (sessions_delete sessionId)
  end.

Definition getSession (sessionId : jsstring) : M Store (option Loc) :=
  gets (λ st, sessions st !! sessionId).

Record ChatSessionInfo : Type := {
  info_id : jsstring;
  info_projectPath : jsstring;
  info_projectName : jsstring;
  info_model : option jsstring;
  info_isReady : bool;
  info_createdAt : N;
}.

Definition info_of (s : ChatSession) : ChatSessionInfo :=
  {| info_id := id s; info_projectPath := projectPath s;
     info_projectName := projectName s; info_model := session_model s;
     info_isReady := isReady s; info_createdAt := createdAt s |}.

(** The session objects of the map, in the order the map enumerates
    them: [this.sessions.values()]. *)
Definition values (st : Store) : list Loc :=
  omap (λ i, sessions st !! i) (order st).

Definition listSessions : M Store (list ChatSessionInfo) :=
  gets (λ st, omap (λ session, info_of <$> heap st !! session) (values st)).

Definition closeAll : M Store unit :=
  let* live := gets values in
  forEach (λ session,
             let* s := deref session in
             match currentProcess s with
             | Some p => log (proc_kill p)
             | None => ret tt
             end) live >>
  modify sessions_clear.

End Manager.

End Chat.

(** ** The gateway (the daemon's WebSocket server) *)

Module Daemon.

Abbreviation Ws := nat.        (* a WebSocket object *)

Inductive ReadyState : Type := CONNECTING | OPEN | CLOSING | CLOSED.

#[global] Instance ReadyState_eq_dec : EqDecision ReadyState.
Proof. solve_decision. Defined.

(** The messages the gateway sends, by their [type] field. *)
Inductive OutgoingMessage : Type :=
  | out_error (data : jsstring)
  | out_status (status : State.Props)
  | out_projects (projects : JSValue)
  | out_ready (data : jsstring)
  | out_complete (data : jsstring)
  | out_token (token : jsstring)
  | out_terminal_output (sessionId : jsstring) (data : option jsstring)
  | out_terminal_exit (sessionId : jsstring) (exitCode : option Z)
  | out_terminal_created (sessionId : jsstring) (data : jsstring)
  | out_terminal_list (sessions : list Terminal.SessionInfo)
  | out_terminal_closed (sessionId : jsstring)
  | out_cli_chat_event (sessionId : jsstring) (event : CliParser.CLIEvent)
  | out_cli_chat_created (sessionId : jsstring) (data : jsstring)
  | out_cli_chat_list (sessions : list Chat.ChatSessionInfo).

Record Socket : Type := {
  readyState : ReadyState;
  sent : list OutgoingMessage;       (* what [ws.send] was given, in order *)
}.

Abbreviation Sockets := (gmap Ws Socket).

Definition is_open (ws : Ws) (net : Sockets) : bool :=
  match net !! ws with
  | Some s => bool_decide (readyState s = OPEN)
  | None => false
  end.

Definition ws_send (ws : Ws) (message : OutgoingMessage) : M Sockets unit :=
  modify (alter (λ s, {| readyState := readyState s;
                         sent := sent s ++ [message] |}) ws).

(** [sendTo(ws, message)] *)
Definition sendTo (ws : Ws) (message : OutgoingMessage) : M Sockets unit :=
  let* open := gets (is_open ws) in
  if open then ws_send ws message else ret tt.

(** The closures the gateway subscribes with.  Every evaluation of the
    arrow function makes a new function object: [cb_id] tells them
    apart. *)
Record TermCallback : Type := { tcb_id : nat; tcb_ws : Ws }.
Record ChatCallback : Type :=
  { ccb_id : nat; ccb_ws : Ws; ccb_sessionId : jsstring }.

#[global] Instance TermCallback_eq_dec : EqDecision TermCallback.
Proof. solve_decision. Defined.
#[global] Instance ChatCallback_eq_dec : EqDecision ChatCallback.
Proof. solve_decision. Defined.

Definition handleTerminalEvent (ws : Ws) (event : Terminal.TerminalEvent)
  : M Sockets unit :=
  match Terminal.type event with
  | Terminal.output =>
      sendTo ws (out_terminal_output (Terminal.sessionId event)
                                     (Terminal.data event))
  | Terminal.exit =>
      sendTo ws (out_terminal_exit (Terminal.sessionId event)
                                   (Terminal.exitCode event))
  | _ => ret tt
  end.

Definition invoke_term (cb : TermCallback) (event : Terminal.TerminalEvent)
  : M Sockets unit :=
  handleTerminalEvent (tcb_ws cb) event.

Definition invoke_chat (cb : ChatCallback) (event : CliParser.CLIEvent)
  : M Sockets unit :=
  sendTo (ccb_ws cb) (out_cli_chat_event (ccb_sessionId cb) event).

Inductive Unsubscribe : Type :=
  | term_unsubscribe (u : @Terminal.Unsubscribe TermCallback)
  | chat_unsubscribe (u : @Chat.Unsubscribe ChatCallback).

Record ClientState : Type := {
  subscriptions : gset jsstring;
  unsubscribeFns : gmap jsstring Unsubscribe;
}.

Abbreviation TermStore E := (@Terminal.Store TermCallback E).
Abbreviation ChatStore E := (@Chat.Store ChatCallback E).

(** The daemon process: the managers, the client table, the sockets,
    and the state directory. *)
Record World : Type := {
  fs : State.Fs;
  sockets : Sockets;
  clients : gmap Ws ClientState;
  term : TermStore unit;
  chat : ChatStore unit;
  closures : nat;                    (* function objects created so far *)
}.

Definition set_fs (x : State.Fs) (w : World) : World :=
  {| fs := x; sockets := sockets w; clients := clients w;
     term := term w; chat := chat w; closures := closures w |}.
Definition set_sockets (x : Sockets) (w : World) : World :=
  {| fs := fs w; sockets := x; clients := clients w;
     term := term w; chat := chat w; closures := closures w |}.
Definition set_clients (f : gmap Ws ClientState → gmap Ws ClientState)
    (w : World) : World :=
  {| fs := fs w; sockets := sockets w; clients := f (clients w);
     term := term w; chat := chat w; closures := closures w |}.
Definition set_term (x : TermStore unit) (w : World) : World :=
  {| fs := fs w; sockets := sockets w; clients := clients w;
     term := x; chat := chat w; closures := closures w |}.
Definition set_chat (x : ChatStore unit) (w : World) : World :=
  {| fs := fs w; sockets := sockets w; clients := clients w;
     term := term w; chat := x; closures := closures w |}.

Definition term_with {E1 E2} (st : TermStore E1) (e : E2) : TermStore E2 :=
  {| Terminal.sessions := Terminal.sessions st;
     Terminal.order := Terminal.order st;
     Terminal.projectToSession := Terminal.projectToSession st;
     Terminal.heap := Terminal.heap st;
     Terminal.pty_calls := Terminal.pty_calls st;
     Terminal.delivered := Terminal.delivered st;
     Terminal.ext := e |}.

Definition chat_with {E1 E2} (st : ChatStore E1) (e : E2) : ChatStore E2 :=
  {| Chat.sessions := Chat.sessions st;
     Chat.order := Chat.order st;
     Chat.heap := Chat.heap st;
     Chat.invocations := Chat.invocations st;
     Chat.proc_log := Chat.proc_log st;
     Chat.delivered := Chat.delivered st;
     Chat.ext := e |}.

(** The components of the world seen from the code that runs on them.
    The managers' subscribers write to the sockets. *)
Definition on_fs {A} : M State.Fs A → M World A := zoom fs set_fs.
Definition on_sockets {A} : M Sockets A → M World A :=
  zoom sockets set_sockets.
Definition on_term {A} : M (TermStore Sockets) A → M World A :=
  zoom (λ w, term_with (term w) (sockets w))
       (λ t w, set_sockets (Terminal.ext t) (set_term (term_with t tt) w)).
Definition on_chat {A} : M (ChatStore Sockets) A → M World A :=
  zoom (λ w, chat_with (chat w) (sockets w))
       (λ t w, set_sockets (Chat.ext t) (set_chat (chat_with t tt) w)).

(** What the environment answers while one message is handled. *)
Inductive StreamEvent : Type :=
  | onToken (token : jsstring)
  | onComplete (fullText : jsstring)
  | onError (message : jsstring).

Record Env : Type := {
  uuid : jsstring;                    (* [uuidv4()] *)
  now : N;                            (* the clock *)
  random : jsstring;                  (* the random part of a new id *)
  path_exists : bool;                 (* [fs.existsSync(projectPath)] *)
  spawned : Terminal.Pty + jsstring;  (* [pty.spawn] *)
  stream : list StreamEvent;          (* callbacks of [streamGeminiResponse] *)
  stream_throws : option jsstring;    (* and the error it rejects with *)
  gemini_throws : option Exn;         (* [spawn] of the CLI, when it throws *)
}.

Definition spawn_env (env : Env) : Terminal.SpawnEnv :=
  {| Terminal.random := random env;
     Terminal.path_exists := path_exists env;
     Terminal.spawned := spawned env;
     Terminal.now := now env |}.

Section Gateway.

Variable JSON_parse : jsstring → option JSON.
Variable JSON_stringify : JSON → jsstring.
Variable ToString : JSON → jsstring.
Variable basename : jsstring → jsstring.

(** [JSON.parse] checks no type: a field that the [IncomingMessage]
    interface declares as a string can hold a number, an object, [null].
    When such a value passes the tests of its command, it goes on into
    code that is written for strings.  What the handler does from there
    is not followed here: [ill_typed] stands for it, and nothing is
    assumed about it. *)
Variable ill_typed : Env → Ws → ClientState → JSValue → M World unit.

Definition loadState := State.loadState JSON_parse.
Definition updateState := State.updateState JSON_parse JSON_stringify.
Definition addRecentProject :=
  State.addRecentProject JSON_parse JSON_stringify.

(** [err.message] *)
Definition message_of (e : Exn) : jsstring :=
  match e with
  | Error msg => msg
  | TypeError => lit "TypeError"
  | SyntaxError => lit "SyntaxError"
  | SystemError => lit "SystemError"
  end.

(** Broadcast to all connected clients.  Every socket keeps its own
    record of what was sent on it, so the order in which the clients are
    visited leaves no trace. *)
Definition broadcast (message : OutgoingMessage) : M World unit :=
  let* all := gets (λ w, (map_to_list (clients w)).*1) in
  forEach (λ ws, on_sockets (sendTo ws message)) all.

(** [field msg k = Some s]: the field [k] of the message is the string
    [s]. *)
Definition field (msg : JSValue) (k : string) : option jsstring :=
  match get msg (lit k) with
  | Some (JStr s) => Some s
  | _ => None
  end.

(** [required msg k = Some s]: the field is the string [s], and [s] is
    not empty. *)
Definition required (msg : JSValue) (k : string) : option jsstring :=
  match field msg k with
  | Some [] => None
  | r => r
  end.

(** What the test [!msg.k] and the code behind it find in a field that
    the interface declares as a string. *)
Inductive Arg : Type :=
  | falsy                   (* [!msg.k] holds: the field is absent, [null],
                               [false], zero or the empty string *)
  | text (s : jsstring)     (* a string that is not empty *)
  | other.                  (* a truthy value that is not a string *)

Definition arg (msg : JSValue) (k : string) : Arg :=
  match get msg (lit k) with
  | Some (JStr s) => if decide (s = []) then falsy else text s
  | v => if truthy v then other else falsy
  end.

Definition new_closure : M World nat :=
  let* n := gets closures in
  modify (λ w, {| fs := fs w; sockets := sockets w; clients := clients w;
                  term := term w; chat := chat w; closures := S n |}) >>
  ret n.

Definition remember (ws : Ws) (sub : option jsstring) (key : jsstring)
    (u : Unsubscribe) : M World unit :=
  modify (set_clients (alter (λ c,
    {| subscriptions := match sub with
                        | Some sid => {[sid]} ∪ subscriptions c
                        | None => subscriptions c
                        end;
       unsubscribeFns := <[key := u]> (unsubscribeFns c) |}) ws)).

Definition forget (ws : Ws) (key : jsstring) : M World unit :=
  modify (set_clients (alter (λ c,
    {| subscriptions := subscriptions c ∖ {[key]};
       unsubscribeFns := delete key (unsubscribeFns c) |}) ws)).

Definition run_unsubscribe (u : Unsubscribe) : M World unit :=
  match u with
  | term_unsubscribe u => on_term (Terminal.run_unsubscribe u)
  | chat_unsubscribe u => on_chat (Chat.run_unsubscribe u)
  end.

Definition session_id_of (session : Terminal.Loc)
  : M (TermStore Sockets) (jsstring * jsstring) :=
  let* s := Terminal.deref session in
  ret (Terminal.id s, Terminal.projectName s).

Definition stream_callback (ws : Ws) (e : StreamEvent) : M World unit :=
  match e with
  | onToken token => on_sockets (sendTo ws (out_token token))
  | onComplete fullText => on_sockets (sendTo ws (out_complete fullText))
  | onError message => on_sockets (sendTo ws (out_error message))
  end.

(** The [switch (msg.type)] of [handleMessage]. *)
Definition dispatch (env : Env) (ws : Ws) (client : ClientState)
    (msg : JSValue) : M World unit :=
  let reply m := on_sockets (sendTo ws m) in
  let untyped := ill_typed env ws client msg in
  let ty := get msg (lit "type") in
  if is_str ty (lit "status") then
    let* state := on_fs loadState in
    reply (out_status state)
  else if is_str ty (lit "list-projects") then
    let* state := on_fs loadState in
    reply (out_projects (assoc (lit "recentProjects") state))
  else if is_str ty (lit "switch-project") then
    match arg msg "projectPath" with
    | falsy => reply (out_error (lit "projectPath required"))
    | text projectPath =>
        on_fs (addRecentProject projectPath) >>
        on_fs (updateState [ (lit "activeProject", JStr projectPath);
                             (lit "status", JStr (lit "ready")) ]) >>
        broadcast (out_ready (lit "Project loaded: " ++ projectPath)) >>
        let* state := on_fs loadState in
        broadcast (out_status state)
    | other => untyped
    end
  else if is_str ty (lit "chat") then
    match arg msg "message" with
    | falsy => reply (out_error (lit "message required"))
    | text message =>
        let* currentState := on_fs loadState in
        if negb (truthy (assoc (lit "activeProject") currentState)) then
          reply (out_error
                   (lit "No project selected. Switch to a project first."))
        else
          try_catch
            (forEach (stream_callback ws) (stream env) >>
             match stream_throws env with
             | Some m => throw (Error m)
             | None => ret tt
             end)
            (λ err, reply (out_error (message_of err)))
    | other => untyped
    end
  else if is_str ty (lit "stop") then
    on_fs (updateState [ (lit "activeProject", JNull);
                         (lit "status", JStr (lit "idle")) ]) >>
    let* state := on_fs loadState in
    broadcast (out_status state)
  else if is_str ty (lit "terminal-create") then
    match arg msg "projectPath" with
    | falsy => reply (out_error (lit "projectPath required"))
    | text projectPath =>
        try_catch
          (let* session :=
             on_term (Terminal.getOrCreateSession invoke_term basename
                        (spawn_env env) projectPath) in
           let* '(sid, name) := on_term (session_id_of session) in
           let* n := new_closure in
           let* unsubCreate :=
             on_term (Terminal.subscribe invoke_term sid
                        {| tcb_id := n; tcb_ws := ws |}) in
           remember ws (Some sid) sid (term_unsubscribe unsubCreate) >>
           on_fs (addRecentProject projectPath) >>
           reply (out_terminal_created sid name) >>
           let* sessions := on_term Terminal.listSessions in
           broadcast (out_terminal_list sessions))
          (λ err, reply (out_error (lit "Failed to create terminal: "
                                      ++ message_of err)))
    | other => untyped
    end
  else if is_str ty (lit "terminal-write") then
    (* [!msg.sessionId || msg.data === undefined] *)
    match arg msg "sessionId", get msg (lit "data") with
    | falsy, _ | _, None =>
        reply (out_error (lit "sessionId and data required"))
    | text sessionId, Some (JStr data) =>
        let* ok := on_term (Terminal.write (now env) sessionId data) in
        if ok then ret tt else reply (out_error (lit "Session not found"))
    | _, _ => untyped
    end
  else if is_str ty (lit "terminal-resize") then
    (* [!msg.sessionId || !msg.cols || !msg.rows] *)
    match arg msg "sessionId", get msg (lit "cols"), get msg (lit "rows")
    with
    | falsy, _, _ | _, None, _ | _, _, None =>
        reply (out_error (lit "sessionId, cols, and rows required"))
    | text sessionId, Some cols, Some rows =>
        if truthy (Some cols) && truthy (Some rows) then
          on_term (Terminal.resize sessionId cols rows) >> ret tt
        else reply (out_error (lit "sessionId, cols, and rows required"))
    | other, Some cols, Some rows =>
        if truthy (Some cols) && truthy (Some rows) then untyped
        else reply (out_error (lit "sessionId, cols, and rows required"))
    end
  else if is_str ty (lit "terminal-close") then
    match arg msg "sessionId" with
    | falsy => reply (out_error (lit "sessionId required"))
    | text sessionId =>
        on_term (Terminal.close sessionId) >>
        reply (out_terminal_closed sessionId)
    | other => untyped
    end
  else if is_str ty (lit "terminal-list") then
    let* sessions := on_term Terminal.listSessions in
    reply (out_terminal_list sessions)
  else if is_str ty (lit "terminal-subscribe") then
    match arg msg "sessionId" with
    | falsy => reply (out_error (lit "sessionId required"))
    | text sessionId =>
        if decide (sessionId ∈ subscriptions client) then ret tt
        else
          let* n := new_closure in
          let* unsub :=
            on_term (Terminal.subscribe invoke_term sessionId
                       {| tcb_id := n; tcb_ws := ws |}) in
          remember ws (Some sessionId) sessionId (term_unsubscribe unsub)
    | other => untyped
    end
  else if is_str ty (lit "terminal-unsubscribe") then
    match arg msg "sessionId" with
    | falsy => reply (out_error (lit "sessionId required"))
    | text sessionId =>
        match unsubscribeFns client !! sessionId with
        | Some unsubFn => run_unsubscribe unsubFn >> forget ws sessionId
        | None => ret tt
        end
    | other => untyped
    end
  else if is_str ty (lit "terminal-run-gemini") then
    match arg msg "sessionId" with
    | falsy => reply (out_error (lit "sessionId required"))
    | text sessionId =>
        on_term (Terminal.runCommand (now env) sessionId (lit "gemini")) >>
        ret tt
    | other => untyped
    end
  else if is_str ty (lit "cli-chat-create") then
    match arg msg "projectPath" with
    | falsy => reply (out_error (lit "projectPath required"))
    | text projectPath =>
        try_catch
          (let* chatSession :=
             on_chat (Chat.create invoke_chat basename (now env)
                        (random env) projectPath) in
           let* s := on_chat (Chat.deref chatSession) in
           reply (out_cli_chat_created (Chat.id s)
                    (default (lit "gemini") (Chat.session_model s))))
          (λ err, reply (out_error (lit "Failed to create CLI chat: "
                                      ++ message_of err)))
    | other => untyped
    end
  else if is_str ty (lit "cli-chat-send") then
    (* [!msg.sessionId || !msg.message] *)
    match arg msg "sessionId", arg msg "message" with
    | falsy, _ | _, falsy =>
        reply (out_error (lit "sessionId and message required"))
    | text sessionId, text message =>
        let* ok :=
          on_chat (Chat.send invoke_chat (now env) (gemini_throws env)
                     sessionId message) in
        if ok then ret tt
        else reply (out_error (lit "Failed to send message"))
    | _, _ => untyped
    end
  else if is_str ty (lit "cli-chat-subscribe") then
    match arg msg "sessionId" with
    | falsy => reply (out_error (lit "sessionId required"))
    | text sessionId =>
        let* n := new_closure in
        let* chatUnsub :=
          on_chat (Chat.subscribe invoke_chat (now env) sessionId
                     {| ccb_id := n; ccb_ws := ws;
                        ccb_sessionId := sessionId |}) in
        remember ws None (lit "chat_" ++ sessionId)
                 (chat_unsubscribe chatUnsub)
    | other => untyped
    end
  else if is_str ty (lit "cli-chat-list") then
    let* chatSessions := on_chat Chat.listSessions in
    reply (out_cli_chat_list chatSessions)
  else if is_str ty (lit "cli-chat-close") then
    match arg msg "sessionId" with
    | falsy => reply (out_error (lit "sessionId required"))
    | text sessionId => on_chat (Chat.close sessionId)
    | other => untyped
    end
  else
    reply (out_error (lit "Unknown message type: "
                        ++ match ty with
                           | Some (JStr s) => s
                           | Some j => ToString j
                           | None => lit "undefined"
                           end)).

(** [handleMessage(ws, raw)] *)
Definition handleMessage (env : Env) (ws : Ws) (raw : jsstring)
  : M World unit :=
  match JSON_parse raw with
  | None => on_sockets (sendTo ws (out_error (lit "Invalid JSON")))
  | Some JNull => throw TypeError           (* [msg.token] of [null] *)
  | Some j =>
      let msg : JSValue := Some j in
      let* valid :=
        on_fs (State.validateToken (uuid env) (get msg (lit "token"))) in
      if negb valid then
        on_sockets (sendTo ws (out_error (lit "Invalid auth token")))
      else
        let* clientState := gets (λ w, clients w !! ws) in
        match clientState with
        | None => ret tt
        | Some client => dispatch env ws client msg
        end
  end.

(** The [connection] handler of the server. *)
Definition on_connection (ws : Ws) : M World unit :=
  modify (set_clients (insert ws
    {| subscriptions := ∅; unsubscribeFns := ∅ |})) >>
  let* state := on_fs loadState in
  on_sockets (sendTo ws (out_status state)) >>
  let* sessions := on_term Terminal.listSessions in
  on_sockets (sendTo ws (out_terminal_list sessions)).

(** The [close] handler of a socket.  The closures it runs remove one
    callback each from a subscriber set and do nothing else: the order
    in which they run leaves no trace. *)
Definition on_ws_close (ws : Ws) : M World unit :=
  let* clientState := gets (λ w, clients w !! ws) in
  match clientState with
  | Some client =>
      forEach run_unsubscribe (map_to_list (unsubscribeFns client)).*2
  | None => ret tt
  end >>
  modify (set_clients (delete ws)).

End Gateway.

End Daemon.

(** ** terminal-parser.ts: tool usage, chunks and the message accumulator *)

Module TerminalStream.
Import TerminalParser.

(** *** The tool-usage patterns

    The four regular expressions of [detectToolUsage] as backtracking
    matchers.  A matcher is anchored at the start of its input; [search]
    tries the start positions from left to right, as [String.match]
    does. *)

(** Case folding of the [i] flag.  The patterns under that flag are
    ASCII; a code unit outside ASCII never folds to an ASCII one, so
    only ASCII letters need folding here. *)
Definition canon (c : N) : N :=
  if ((97 <=? c)%N && (c <=? 122)%N) then (c - 32)%N else c.

(** The input after the literal [p], matched without regard to case. *)
Fixpoint starts_ci (p s : jsstring) : option jsstring :=
  match p, s with
  | [], _ => Some s
  | c :: p', d :: s' => if (canon c =? canon d)%N then starts_ci p' s' else None
  | _ :: _, [] => None
  end.

(** [\w] *)
Definition is_word (c : N) : bool :=
  is_letter c || ((48 <=? c)%N && (c <=? 57)%N) || (c =? 95)%N.

(** [.]: any unit but a line terminator. *)
Definition is_dot (c : N) : bool :=
  negb (bool_decide (c ∈ [10; 13; 8232; 8233]%N)).

(** Greedy [cls*] and then [k]: the longest run first, one unit less
    when [k] fails. *)
Fixpoint star {R} (cls : N → bool) (k : jsstring → option R) (s : jsstring)
  : option R :=
  match s with
  | c :: s' =>
      if cls c then
        match star cls k s' with
        | Some r => Some r
        | None => k s
        end
      else k s
  | [] => k s
  end.

(** Greedy [cls*] as a group and then [k], which gets the captured
    text; [acc] is what the group holds so far. *)
Fixpoint star_group {R} (cls : N → bool) (k : jsstring → jsstring → option R)
    (acc s : jsstring) : option R :=
  match s with
  | c :: s' =>
      if cls c then
        match star_group cls k (acc ++ [c]) s' with
        | Some r => Some r
        | None => k acc s
        end
      else k acc s
  | [] => k acc s
  end.

(** Greedy [(cls+)] as a group and then [k]. *)
Definition plus_group {R} (cls : N → bool) (k : jsstring → jsstring → option R)
    (s : jsstring) : option R :=
  match s with
  | c :: s' => if cls c then star_group cls k [c] s' else None
  | [] => None
  end.

(** The first start position at which [re] matches. *)
Fixpoint search {R} (re : jsstring → option R) (s : jsstring) : option R :=
  match re s with
  | Some r => Some r
  | None =>
      match s with
      | [] => None
      | _ :: s' => search re s'
      end
  end.

(** The groups of a match: [match[1]] and [match[2]]. *)
Abbreviation Groups := (jsstring * option jsstring)%type.

(** [/Using tool:\s*(\w+)/i] *)
Definition re_using_tool (s : jsstring) : option Groups :=
  match starts_ci (lit "Using tool:") s with
  | Some rest => star is_ws (plus_group is_word (λ w _, Some (w, None))) rest
  | None => None
  end.

(** [/Running:\s*(.+)/i] *)
Definition re_running (s : jsstring) : option Groups :=
  match starts_ci (lit "Running:") s with
  | Some rest => star is_ws (plus_group is_dot (λ a _, Some (a, None))) rest
  | None => None
  end.

(** [/Executing:\s*(.+)/i] *)
Definition re_executing (s : jsstring) : option Groups :=
  match starts_ci (lit "Executing:") s with
  | Some rest => star is_ws (plus_group is_dot (λ a _, Some (a, None))) rest
  | None => None
  end.

(** [/\[(\w+)\]\s*(.+)/] *)
Definition re_bracketed (s : jsstring) : option Groups :=
  match s with
  | c :: s' =>
      if (c =? 91)%N then
        plus_group is_word
          (λ w rest,
             match rest with
             | d :: rest' =>
                 if (d =? 93)%N then
                   star is_ws
                     (plus_group is_dot (λ a _, Some (w, Some a))) rest'
                 else None
             | [] => None
             end) s'
      else None
  | [] => None
  end.

Definition patterns : list (jsstring → option Groups) :=
  [re_using_tool; re_running; re_executing; re_bracketed].

Record ToolUsage : Type := { tool : jsstring; action : jsstring }.

(** The loop over the patterns. *)
Fixpoint first_match (ps : list (jsstring → option Groups)) (clean : jsstring)
  : option ToolUsage :=
  match ps with
  | [] => None
  | pattern :: ps' =>
      match search pattern clean with
      | Some (g1, g2) =>
          Some {| tool := g1;
                  action := match g2 with
                            | Some a => a     (* [match[2] || ''] *)
                            | None => []
                            end |}
      | None => first_match ps' clean
      end
  end.

Definition detectToolUsage (text : jsstring) : option ToolUsage :=
  first_match patterns (stripAnsi text).

Inductive ChunkType : Type :=
  | text_chunk | prompt_chunk | thinking_chunk | tool_chunk
  | code_start | code_end.

Record ParsedChunk : Type := {
  chunk_type : ChunkType;
  chunk_content : jsstring;
  chunk_tool : option jsstring;
  language : option jsstring;
}.

Section Stream.

Variable toLowerCase : jsstring → jsstring.   (* [String.prototype.toLowerCase] *)

Definition isThinkingIndicator (text : jsstring) : bool :=
  let clean := toLowerCase (stripAnsi text) in
  includes (lit "thinking") clean
  || includes (lit "...") clean
  || includes (lit "searching") clean
  || includes (lit "reading") clean.

(** The loop of [parseTerminalChunk] over the lines. *)
Fixpoint parse_lines (inCodeBlock : bool) (lines : list jsstring)
  : list ParsedChunk :=
  match lines with
  | [] => []
  | line :: rest =>
      let clean := stripAnsi line in
      if startsWith (lit "```") clean then
        if inCodeBlock then
          {| chunk_type := code_end; chunk_content := [];
             chunk_tool := None; language := None |}
          :: parse_lines false rest
        else
          {| chunk_type := code_start; chunk_content := [];
             chunk_tool := None; language := Some (trim (drop 3 clean)) |}
          :: parse_lines true rest
      else if isPromptLine line then
        {| chunk_type := prompt_chunk; chunk_content := clean;
           chunk_tool := None; language := None |}
        :: parse_lines inCodeBlock rest
      else if isThinkingIndicator line then
        {| chunk_type := thinking_chunk; chunk_content := clean;
           chunk_tool := None; language := None |}
        :: parse_lines inCodeBlock rest
      else
        match detectToolUsage line with
        | Some t =>
            {| chunk_type := tool_chunk; chunk_content := clean;
               chunk_tool := Some (tool t); language := None |}
            :: parse_lines inCodeBlock rest
        | None =>
            if negb (str_eqb (trim clean) []) then
              {| chunk_type := text_chunk; chunk_content := clean;
                 chunk_tool := None; language := None |}
              :: parse_lines inCodeBlock rest
            else parse_lines inCodeBlock rest
        end
  end.

Definition parseTerminalChunk (chunk : jsstring) : list ParsedChunk :=
  parse_lines false (split LF chunk).

Record TerminalMessageAccumulator : Type := {
  buffer : jsstring;
  isCollecting : bool;
  lastPromptTime : N;
}.

(** [new TerminalMessageAccumulator()] *)
Definition new_accumulator : TerminalMessageAccumulator :=
  {| buffer := []; isCollecting := false; lastPromptTime := 0 |}.

(** What [addChunk] returns. *)
Record ChunkResult : Type := {
  content : jsstring;
  isComplete : bool;
  isThinking : bool;
}.

(** [addChunk(chunk)]; [now] is what [Date.now()] returns. *)
Definition addChunk (now : N) (chunk : jsstring)
    (a : TerminalMessageAccumulator)
  : ChunkResult * TerminalMessageAccumulator :=
  let clean := stripAnsi chunk in
  if isPromptLine chunk then
    ({| content := trim (buffer a); isComplete := true;
        isThinking := false |},
     {| buffer := []; isCollecting := false; lastPromptTime := now |})
  else if isThinkingIndicator chunk then
    ({| content := buffer a; isComplete := false; isThinking := true |}, a)
  else
    let a' := {| buffer := buffer a ++ clean; isCollecting := true;
                 lastPromptTime := lastPromptTime a |} in
    ({| content := buffer a'; isComplete := false; isThinking := false |}, a').

Definition getBuffer (a : TerminalMessageAccumulator) : jsstring := buffer a.

Definition reset (a : TerminalMessageAccumulator)
  : TerminalMessageAccumulator :=
  {| buffer := []; isCollecting := false;
     lastPromptTime := lastPromptTime a |}.

Definition isActive (a : TerminalMessageAccumulator) : bool := isCollecting a.

(** Feeding chunks one after the other (all at clock value [now]): what
    every call returned and the accumulator the last call left. *)
Fixpoint addChunks (now : N) (chunks : list jsstring)
    (a : TerminalMessageAccumulator)
  : list ChunkResult * TerminalMessageAccumulator :=
  match chunks with
  | [] => ([], a)
  | c :: cs =>
      let '(r, a1) := addChunk now c a in
      let '(rs, a2) := addChunks now cs a1 in
      (r :: rs, a2)
  end.

End Stream.

End TerminalStream.

(** ** The terminal manager: lookup by project *)

Module TerminalLookup.
Import Terminal.

Section Lookup.
Context {Callback : Type} {Ext : Type}.

(** [getSessionByProject(projectPath)]; the empty string is falsy. *)
Definition getSessionByProject (projectPath : jsstring)
  : M (@Store Callback Ext) (option Loc) :=
  let* sessionId := gets (λ st, projectToSession st !! projectPath) in
  match sessionId with
  | Some i => if decide (i = []) then ret None else getSession i
  | None => ret None
  end.

End Lookup.
End TerminalLookup.

(** * Properties *)

(** ** Strings *)

Module JSFacts.

Lemma drop_while_app {A} (p : A → bool) (l1 l2 : list A) :
  Forall (λ x, p x = true) l1 →
  drop_while p (l1 ++ l2) = drop_while p l2.
Proof.
  induction 1 as [|x l1 Hx _ IH]; [done|].
  simpl. by rewrite Hx.
Qed.

(** What [drop_while] leaves does not start with a dropped element. *)
Lemma drop_while_head {A} (p : A → bool) (l : list A) x l' :
  drop_while p l = x :: l' → p x = false.
Proof.
  induction l as [|y l IH]; simpl; [done|].
  destruct (p y) eqn:Hy; [done|]. by intros [= -> _].
Qed.

(** A trimmed string does not end with white space. *)
Lemma trimEnd_last (s : jsstring) l c :
  trimEnd s = l ++ [c] → is_ws c = false.
Proof.
  unfold trimEnd. intros H.
  apply (f_equal reverse) in H.
  rewrite reverse_involutive, reverse_snoc in H.
  by apply drop_while_head in H.
Qed.

Lemma trim_last (s : jsstring) l c : trim s = l ++ [c] → is_ws c = false.
Proof. apply trimEnd_last. Qed.

Lemma startsWith_prefix (p s : jsstring) :
  startsWith p s = true ↔ ∃ t, s = p ++ t.
Proof.
  revert s. induction p as [|c p IH]; intros s; simpl.
  - split; [eauto|done].
  - destruct s as [|d s].
    + split; [done|]. by intros [t [=]].
    + rewrite andb_true_iff, N.eqb_eq, IH. split.
      * intros [-> [t ->]]. eauto.
      * intros [t [= -> ->]]. eauto.
Qed.

Lemma endsWith_suffix (p s : jsstring) :
  endsWith p s = true ↔ ∃ t, s = t ++ p.
Proof.
  unfold endsWith. rewrite startsWith_prefix. split.
  - intros [t Ht]. exists (reverse t).
    apply (f_equal reverse) in Ht.
    by rewrite reverse_involutive, reverse_app, reverse_involutive in Ht.
  - intros [t ->]. exists (reverse t). by rewrite reverse_app.
Qed.

Lemma split_nonempty sep s : split sep s ≠ [].
Proof.
  destruct s as [|c s]; simpl; [done|].
  destruct (c =? sep)%N; [done|]. by destruct (split sep s).
Qed.

End JSFacts.

(** ** The structured-event accumulator *)

Module AccumulatorFacts.
Import CliParser.

Lemma addChunks_spec (chunks : list jsstring) (a : MessageAccumulator) :
  (addChunks chunks a).1
    = map (λ i, currentMessage a ++ concat (take (S i) chunks))
          (seq 0 (length chunks))
  ∧ currentMessage (addChunks chunks a).2 = currentMessage a ++ concat chunks.
Proof.
  revert a. induction chunks as [|c cs IH]; intros a.
  - simpl. by rewrite app_nil_r.
  - cbn [addChunks addChunk length seq map].
    destruct (addChunks cs _) as [rs a2] eqn:E.
    specialize (IH {| currentMessage := currentMessage a ++ c;
                      acc_isStreaming := true |}).
    rewrite E in IH. destruct IH as [IH1 IH2]. cbn [fst snd] in *. split.
    + f_equal.
      * cbn. by rewrite app_nil_r.
      * rewrite IH1, <- seq_shift, map_map. apply map_ext. intros i.
        cbn [currentMessage take concat]. by rewrite <- app_assoc.
    + rewrite IH2. cbn [currentMessage concat]. by rewrite <- app_assoc.
Qed.

(** C2, as the code has it.  Each [addChunk] returns the concatenation of
    the chunks added so far; [complete()] returns the full concatenation,
    clears the streaming flag and keeps the message; only [reset()]
    empties it. *)
Theorem accumulator_running_concat (chunks : list jsstring) :
  let '(returns, a) := addChunks chunks new_accumulator in
  returns = map (λ i, concat (take (S i) chunks)) (seq 0 (length chunks))
  ∧ (complete a).1 = concat chunks
  ∧ getCurrentMessage (complete a).2 = concat chunks
  ∧ isCurrentlyStreaming (complete a).2 = false
  ∧ getCurrentMessage (reset (complete a).2) = [].
Proof.
  destruct (addChunks chunks new_accumulator) as [returns a] eqn:E.
  pose proof (addChunks_spec chunks new_accumulator) as [H1 H2].
  rewrite E in H1, H2. cbn [fst snd] in H1, H2.
  cbn [new_accumulator currentMessage app] in H1, H2.
  repeat split; try done.
Qed.

(** The scenario of the specification: three chunks, then [complete()].
    The message is still there afterwards. *)
Definition after_three_chunks : MessageAccumulator :=
  (addChunks [lit "Hel"; lit "lo "; lit "world"] new_accumulator).2.

Lemma complete_keeps_message :
  (complete after_three_chunks).1 = lit "Hello world"
  ∧ getCurrentMessage (complete after_three_chunks).2 = lit "Hello world"
  ∧ getCurrentMessage (complete after_three_chunks).2 ≠ []
  ∧ (addChunk (lit "!") (complete after_three_chunks).2).1
    = lit "Hello world!".
Proof. by vm_compute. Qed.

Example accumulator_scenario :
  (addChunks [lit "Hel"; lit "lo "; lit "world"] new_accumulator).1
  = [lit "Hel"; lit "Hello "; lit "Hello world"].
Proof. reflexivity. Qed.

End AccumulatorFacts.

(** ** The structured-event parser *)

Module CliParserFacts.
Import CliParser.

Definition QUOTE : N := 34.

(** The line [{"type":"result"}] and the object it denotes. *)
Definition result_line : jsstring :=
  lit "{" ++ [QUOTE] ++ lit "type" ++ [QUOTE] ++ lit ":"
  ++ [QUOTE] ++ lit "result" ++ [QUOTE] ++ lit "}".

Definition result_object : JSON :=
  JObj [(lit "type", JStr (lit "result"))].

(** A [JSON.parse] that knows this one line. *)
Definition parse_result_line (s : jsstring) : option JSON :=
  if decide (s = result_line) then Some result_object else None.

(** A result line without a [stats] object: the completion event carries
    no statistics. *)
Lemma result_without_stats :
  ∃ ev, parseCLILine parse_result_line 0 result_line = Some ev
        ∧ type ev = complete_event ∧ stats ev = None.
Proof. eexists. split; [by vm_compute|]. done. Qed.

Lemma or_default_absent d : or_default None d = d.
Proof. done. Qed.

Lemma or_default_truthy v j d :
  v = Some j → truthy v = true → or_default v d = j.
Proof. intros -> H. unfold or_default. by rewrite H. Qed.

Section Result.
Variable JSON_parse : jsstring → option JSON.

(** C3, as the code has it.  A line whose JSON has discriminator
    ["result"] yields a completion event.  When the JSON carries a
    (truthy) [stats] value, the statistics are present, every field whose
    source names are absent is zero, and a field takes the source value
    when that is truthy.  When the JSON carries no [stats], the
    statistics are [undefined]. *)
Theorem result_event_stats (now : N) (line : jsstring) (json : JSON) :
  startsWith (lit "{") (trim line) = true →
  JSON_parse (trim line) = Some json →
  is_str (get (Some json) (lit "type")) (lit "result") = true →
  let st := get (Some json) (lit "stats") in
  ∃ ev, parseCLILine JSON_parse now line = Some ev
    ∧ type ev = complete_event
    ∧ (truthy st = false → stats ev = None)
    ∧ (truthy st = true → ∃ s, stats ev = Some s
         ∧ (get st (lit "total_tokens") = None → totalTokens s = JZero)
         ∧ (get st (lit "input_tokens") = None → get st (lit "input") = None
            → inputTokens s = JZero)
         ∧ (get st (lit "output_tokens") = None → get st (lit "output") = None
            → outputTokens s = JZero)
         ∧ (get st (lit "duration_ms") = None → durationMs s = JZero)
         ∧ (get st (lit "tool_calls") = None → toolCalls s = JZero)
         ∧ (∀ j, get st (lit "total_tokens") = Some j → truthy (Some j) = true
            → totalTokens s = j)
         ∧ (∀ j, get st (lit "duration_ms") = Some j → truthy (Some j) = true
            → durationMs s = j)
         ∧ (∀ j, get st (lit "tool_calls") = Some j → truthy (Some j) = true
            → toolCalls s = j)).
Proof.
  intros Hbrace Hparse Hty st.
  unfold parseCLILine.
  destruct (str_eqb (trim line) []) eqn:Hne.
  { apply bool_decide_eq_true in Hne. by rewrite Hne in Hbrace. }
  rewrite Hbrace, Hparse. cbn [negb].
  destruct json as [| | | | |props]; try done.
  assert (∀ s, is_str (get (Some (JObj props)) (lit "type")) s
               = str_eqb (lit "result") s) as Hsw.
  { intros s. destruct (get _ (lit "type")) as [[]|]; try done.
    cbn in Hty |- *. apply bool_decide_eq_true in Hty. by subst. }
  rewrite !Hsw.
  replace (str_eqb (lit "result") (lit "init")) with false by done.
  replace (str_eqb (lit "result") (lit "message")) with false by done.
  replace (str_eqb (lit "result") (lit "tool_call")) with false by done.
  replace (str_eqb (lit "result") (lit "tool_result")) with false by done.
  replace (str_eqb (lit "result") (lit "result")) with true by done.
  eexists. split; [reflexivity|]. cbn [type stats].
  fold st. split; [done|]. split.
  - by intros ->.
  - intros ->. eexists. split; [reflexivity|].
    cbn [totalTokens inputTokens outputTokens durationMs toolCalls].
    repeat split.
    + by intros ->.
    + intros H1 H2. unfold or_else. by rewrite H1, H2.
    + intros H1 H2. unfold or_else. by rewrite H1, H2.
    + by intros ->.
    + by intros ->.
    + intros j Hj Ht. rewrite Hj. by apply or_default_truthy.
    + intros j Hj Ht. rewrite Hj. by apply or_default_truthy.
    + intros j Hj Ht. rewrite Hj. by apply or_default_truthy.
Qed.

End Result.

(** [{"type":"result","stats":{}}]: all the statistics are zero. *)
Definition empty_stats_object : JSON :=
  JObj [(lit "type", JStr (lit "result")); (lit "stats", JObj [])].

Lemma result_event_stats_witness :
  ∃ ev, parseCLILine (λ _, Some empty_stats_object) 7 (lit " {} ") = Some ev
        ∧ stats ev = Some {| totalTokens := JZero; inputTokens := JZero;
                             outputTokens := JZero; durationMs := JZero;
                             toolCalls := JZero |}.
Proof.
  destruct (result_event_stats (λ _, Some empty_stats_object) 7 (lit " {} ")
              empty_stats_object)
    as (ev & Hev & _ & _ & Hst); [done..|].
  exists ev. split; [exact Hev|].
  destruct Hst as (s & Hs & H1 & H2 & H3 & H4 & H5 & _); [done|].
  rewrite Hs. f_equal. destruct s as [a b c d e]. cbn in *.
  rewrite H1, H2, H3, H4, H5; done.
Defined.

End CliParserFacts.

(** ** The raw-terminal prompt heuristic *)

Module TerminalParserFacts.
Import TerminalParser JSFacts.

(** What [isPromptLine] accepts: after stripping and trimming, the line
    is one prompt glyph.  The test [clean.endsWith('> ')] can never hold,
    because [clean] has been trimmed. *)
Lemma isPromptLine_spec (line : jsstring) :
  isPromptLine line = true
  ↔ trim (stripAnsi line) = [GT] ∨ trim (stripAnsi line) = [HEAVY_GT].
Proof.
  unfold isPromptLine. set (clean := trim (stripAnsi line)).
  rewrite !orb_true_iff. unfold str_eqb. rewrite !bool_decide_eq_true.
  split; [|tauto].
  intros [[[H|H]|H]|H]; [by left|by right|..].
  - apply endsWith_suffix in H as [t Ht].
    change (lit "> ") with ([GT] ++ [32%N]) in Ht.
    rewrite app_assoc in Ht. by apply trim_last in Ht.
  - unfold prompt_regex in H. destruct clean as [|c rest] eqn:E; [done|].
    apply andb_true_iff in H as [Hc Hrest].
    destruct (rest) as [|d rest'] using rev_ind.
    + apply orb_true_iff in Hc as [Hc|Hc]; apply N.eqb_eq in Hc; subst; auto.
    + rewrite forallb_app in Hrest. apply andb_true_iff in Hrest as [_ Hd].
      cbn in Hd. rewrite andb_true_r in Hd.
      subst clean. rewrite app_comm_cons in E. apply trim_last in E.
      congruence.
Qed.

(** C4 at the line ["foo> "]: it ends with the glyph [>] followed by
    white space, and [isPromptLine] rejects it. *)
Theorem prompt_with_trailing_space_rejected :
  endsWith (lit "> ") (stripAnsi (lit "foo> ")) = true
  ∧ isPromptLine (lit "foo> ") = false.
Proof. by vm_compute. Qed.

Example bare_prompt_accepted :
  isPromptLine (lit "> ") = true ∧ isPromptLine [HEAVY_GT] = true.
Proof. by vm_compute. Qed.

End TerminalParserFacts.

(** ** Loading the daemon state *)

Module StateFacts.
Import State.

Lemma assoc_app {V} k (l1 l2 : list (jsstring * V)) :
  assoc k (l1 ++ l2)
  = match assoc k l1 with Some v => Some v | None => assoc k l2 end.
Proof.
  induction l1 as [|[k' v] l1 IH]; simpl; [done|].
  by destruct (decide (k = k')).
Qed.

Lemma assoc_set_prop k k' v (o : Props) :
  assoc k (set_prop k' v o) = if decide (k = k') then Some v else assoc k o.
Proof.
  induction o as [|[k0 v0] o IH]; simpl.
  - by destruct (decide (k = k')).
  - destruct (decide (k' = k0)) as [->|Hne]; simpl.
    + by destruct (decide (k = k0)).
    + rewrite IH. destruct (decide (k = k0)) as [->|]; [|done].
      by rewrite decide_False.
Qed.

(** Reading a spread object: the last own property of that name in the
    source wins, else the base provides it. *)
Lemma assoc_spread k (base : Props) (v : JSON) :
  assoc k (spread base v)
  = match assoc k (reverse (own_props v)) with
    | Some x => Some x
    | None => assoc k base
    end.
Proof.
  unfold spread. generalize (own_props v). intros l. revert base.
  induction l as [|[k' x] l IH]; intros base; [done|].
  cbn [fold_left fst snd]. rewrite IH, reverse_cons, assoc_app.
  destruct (assoc k (reverse l)); [done|].
  rewrite assoc_set_prop. simpl. by destruct (decide (k = k')).
Qed.

(** What the state file holds, once read and parsed. *)
Definition on_disk (JSON_parse : jsstring → option JSON) (fs : Fs)
  : option JSON :=
  match state_file fs with
  | Content data => JSON_parse data
  | _ => None
  end.

Definition only_dir_created (fs fs' : Fs) : Prop :=
  state_dir fs' = true ∧ writable fs' = writable fs
  ∧ auth_token_file fs' = auth_token_file fs
  ∧ state_file fs' = state_file fs.

Lemma ensureStateDir_ok (fs : Fs) :
  state_dir fs = true ∨ writable fs = true →
  ∃ fs', ensureStateDir fs = Ok tt fs' ∧ only_dir_created fs fs'.
Proof.
  intros H. unfold ensureStateDir, bind, gets, mkdirSync.
  destruct (state_dir fs) eqn:Hd; cbn.
  - exists fs. by repeat split.
  - destruct H as [|Hw]; [done|]. rewrite Hw. eexists. by repeat split.
Qed.

Lemma ensureStateDir_same (fs : Fs) :
  (state_dir fs = true → ensureStateDir fs = Ok tt fs)
  ∧ (ensureStateDir fs = Ok tt fs → state_dir fs = true ∨ writable fs = true).
Proof.
  unfold ensureStateDir, bind, gets.
  destruct (state_dir fs) eqn:Hd; cbn; [by auto|].
  split; [done|]. unfold mkdirSync. destruct (writable fs); [auto|done].
Qed.

Lemma ensureStateDir_fails (fs : Fs) :
  state_dir fs = false → writable fs = false →
  ensureStateDir fs = Throw SystemError fs.
Proof.
  intros Hd Hw. unfold ensureStateDir, bind, gets.
  rewrite Hd. cbn. unfold mkdirSync. by rewrite Hw.
Qed.

(** [getAuthToken] leaves the state file alone; it may create the
    directory and, when there is none, the token file. *)
Lemma getAuthToken_fs uuid (fs fs' : Fs) token :
  getAuthToken uuid fs = Ok token fs' →
  state_file fs' = state_file fs
  ∧ writable fs' = writable fs
  ∧ state_dir fs' = true
  ∧ (state_dir fs = true ∨ writable fs = true)
  ∧ (auth_token_file fs ≠ Missing → state_dir fs = true → fs' = fs).
Proof.
  intros Hrun.
  assert (state_dir fs = true ∨ writable fs = true) as Hcan.
  { destruct (state_dir fs) eqn:Hd; [by left|].
    destruct (writable fs) eqn:Hw; [by right|].
    unfold getAuthToken, bind in Hrun.
    by rewrite ensureStateDir_fails in Hrun. }
  destruct (ensureStateDir_ok fs Hcan) as (fs1 & He & Hd1 & Hw1 & Ha1 & Hs1).
  assert (state_dir fs = true → fs1 = fs) as Hsame.
  { intros Hd. apply ensureStateDir_same in Hd. congruence. }
  unfold getAuthToken, bind at 1 in Hrun. rewrite He in Hrun.
  destruct (auth_token_file fs) as [| |data] eqn:Hf;
    do 2 (cbv beta iota delta [bind existsSync gets readFileSync
                               writeFileSync ret file] in Hrun;
          rewrite ?Ha1, ?Hw1 in Hrun).
  - destruct (writable fs) eqn:Hw; [|discriminate].
    injection Hrun as <- <-. cbn [state_file writable state_dir set_file].
    split_and!; auto. done.
  - discriminate.
  - injection Hrun as <- <-. split_and!; auto.
Qed.

Lemma validateToken_fs uuid token (fs fs' : Fs) b :
  validateToken uuid token fs = Ok b fs' →
  state_file fs' = state_file fs
  ∧ writable fs' = writable fs
  ∧ state_dir fs' = true
  ∧ (state_dir fs = true ∨ writable fs = true)
  ∧ (auth_token_file fs ≠ Missing → state_dir fs = true → fs' = fs).
Proof.
  unfold validateToken, bind.
  destruct (getAuthToken uuid fs) as [valid fs1|] eqn:Hg; [|done].
  intros [= <- <-]. by eapply getAuthToken_fs.
Qed.

Section Load.
Variable JSON_parse : jsstring → option JSON.

(** What [loadState] computes when the directory is there or can be
    made. *)
Definition loaded (fs : Fs) : Props :=
  match on_disk JSON_parse fs with
  | None => DEFAULT_STATE
  | Some v => spread DEFAULT_STATE v
  end.

Lemma loadState_run (fs : Fs) :
  state_dir fs = true ∨ writable fs = true →
  ∃ fs', loadState JSON_parse fs = Ok (loaded fs) fs'
         ∧ only_dir_created fs fs'.
Proof.
  intros H. destruct (ensureStateDir_ok fs H) as (fs' & He & Hfs').
  pose proof Hfs' as (_ & _ & _ & Hsf).
  exists fs'. split; [|exact Hfs'].
  unfold loadState, bind. rewrite He.
  unfold loaded, on_disk. rewrite <- Hsf.
  cbv beta iota delta [existsSync gets try_catch bind readFileSync file].
  destruct (state_file fs') as [| |data] eqn:Hf;
    cbv beta iota delta [negb try_catch bind readFileSync file];
    rewrite ?Hf; [reflexivity..|].
  destruct (JSON_parse data) as [v|]; reflexivity.
Qed.

(** C10, as the code has it.  Provided the state directory exists or can
    be created, [loadState] returns: the defaults when the state file is
    absent, unreadable or not JSON; otherwise the defaults overridden by
    the properties found on disk, so that every field missing from disk
    has its default. *)
Theorem loadState_defaults (fs : Fs) :
  state_dir fs = true ∨ writable fs = true →
  ∃ state fs',
    loadState JSON_parse fs = Ok state fs'
    ∧ only_dir_created fs fs'
    ∧ match on_disk JSON_parse fs with
      | None => state = DEFAULT_STATE
      | Some v =>
          ∀ k, assoc k state
               = match assoc k (reverse (own_props v)) with
                 | Some x => Some x
                 | None => assoc k DEFAULT_STATE
                 end
      end
    ∧ assoc (lit "activeProject") DEFAULT_STATE = Some JNull
    ∧ assoc (lit "recentProjects") DEFAULT_STATE = Some (JArr [])
    ∧ assoc (lit "status") DEFAULT_STATE = Some (JStr (lit "idle")).
Proof.
  intros H. destruct (loadState_run fs H) as (fs' & Hl & Hfs').
  exists (loaded fs), fs'. split; [exact Hl|]. split; [exact Hfs'|].
  split; [|by vm_compute].
  unfold loaded. destruct (on_disk JSON_parse fs) as [v|]; [|done].
  intros k. apply assoc_spread.
Qed.

(** With neither the directory nor the right to create it, [loadState]
    throws: [ensureStateDir] runs outside the [try]. *)
Lemma loadState_throws (fs : Fs) :
  state_dir fs = false → writable fs = false →
  loadState JSON_parse fs = Throw SystemError fs.
Proof.
  intros Hd Hw. unfold loadState, bind.
  by rewrite ensureStateDir_fails.
Qed.

End Load.

(** *** Two concrete homes *)

(** No state directory yet, but it can be created. *)
Definition fresh_home : Fs :=
  {| state_dir := false; writable := true;
     auth_token_file := Missing; state_file := Content [] |}.

(** A [JSON.parse] for a state file that holds only a [status]. *)
Definition parse_ready (_ : jsstring) : option JSON :=
  Some (JObj [(lit "status", JStr (lit "ready"))]).

(** The status comes from disk, the other fields from the defaults. *)
Lemma loadState_defaults_witness :
  ∃ state fs', loadState parse_ready fresh_home = Ok state fs'
    ∧ assoc (lit "status") state = Some (JStr (lit "ready"))
    ∧ assoc (lit "activeProject") state = Some JNull
    ∧ assoc (lit "recentProjects") state = Some (JArr []).
Proof.
  destruct (loadState_defaults parse_ready fresh_home)
    as (state & fs' & Hl & _ & Hd & _).
  { right. reflexivity. }
  exists state, fs'. split; [exact Hl|].
  cbn in Hd. rewrite !Hd. by vm_compute.
Defined.

(** No state directory, and it cannot be created. *)
Definition read_only_home : Fs :=
  {| state_dir := false; writable := false;
     auth_token_file := Missing; state_file := Missing |}.

(** There the state file is absent, and [loadState] throws. *)
Lemma loadState_not_total :
  loadState parse_ready read_only_home = Throw SystemError read_only_home.
Proof. reflexivity. Qed.

End StateFacts.

(** ** Effects *)

Module EffFacts.

(** Unfolding the monad's combinators in a goal. *)
Ltac eff :=
  cbv beta iota delta [bind ret gets modify throw try_catch zoom].

(** A loop whose body catches everything runs to its end. *)
Lemma forEach_catch {S A} (f : A → M S unit) (xs : list A) (s : S) :
  forEach (λ x, try_catch (f x) (λ _, ret tt)) xs s
  = Ok tt (fold_left (λ s x, store (f x s)) xs s).
Proof.
  revert s. induction xs as [|x xs IH]; intros s; [done|].
  cbn [forEach fold_left]. unfold bind at 1, try_catch at 1.
  destruct (f x s) as [[] s'|e s']; apply IH.
Qed.

Lemma fold_left_preserves {S A B} (g : S → A → S) (proj : S → B) :
  (∀ s x, proj (g s x) = proj s) →
  ∀ xs s, proj (fold_left g xs s) = proj s.
Proof.
  intros Hg xs. induction xs as [|x xs IH]; intros s; [done|].
  cbn. by rewrite IH.
Qed.

End EffFacts.

(** ** The terminal manager: fan-out and subscription *)

Module TerminalFacts.
Import Terminal EffFacts.

Section Facts.
Context {Callback : Type} `{EqDecision Callback} {Ext : Type}.
Variable invoke : Callback → TerminalEvent → M Ext unit.
Variable basename : jsstring → jsstring.

Abbreviation Store := (@Store Callback Ext).
Abbreviation call := (call invoke).
Abbreviation broadcast := (broadcast invoke).

(** The store one subscriber call leaves, whether it returns or throws. *)
Definition after_call (event : TerminalEvent) (st : Store) (cb : Callback)
  : Store :=
  {| sessions := sessions st; order := order st;
     projectToSession := projectToSession st;
     heap := heap st; pty_calls := pty_calls st;
     delivered := delivered st ++ [(cb, event)];
     ext := store (invoke cb event (ext st)) |}.

Lemma store_call cb event (st : Store) :
  store (call cb event st) = after_call event st cb.
Proof.
  unfold Terminal.call, after_call. eff. cbn.
  destruct (invoke cb event (ext st)); reflexivity.
Qed.

Definition after_calls (event : TerminalEvent) (subs : list Callback)
    (st : Store) : Store :=
  fold_left (after_call event) subs st.

Lemma after_calls_frame event subs (st : Store) :
  sessions (after_calls event subs st) = sessions st
  ∧ projectToSession (after_calls event subs st) = projectToSession st
  ∧ heap (after_calls event subs st) = heap st
  ∧ pty_calls (after_calls event subs st) = pty_calls st.
Proof.
  unfold after_calls.
  repeat split; by apply (fold_left_preserves (after_call event)).
Qed.

Lemma after_calls_delivered event subs (st : Store) :
  delivered (after_calls event subs st)
  = delivered st ++ map (λ cb, (cb, event)) subs.
Proof.
  unfold after_calls. revert st.
  induction subs as [|cb subs IH]; intros st; cbn.
  - by rewrite app_nil_r.
  - rewrite IH. cbn. by rewrite <- app_assoc.
Qed.

(** The world outside after the calls: every subscriber ran, one after
    the other, each from where the one before left the world, whether
    that one returned or threw. *)
Lemma after_calls_ext event subs (st : Store) :
  ext (after_calls event subs st)
  = fold_left (λ e cb, store (invoke cb event e)) subs (ext st).
Proof.
  unfold after_calls. revert st.
  induction subs as [|cb subs IH]; intros st; [done|].
  cbn [fold_left]. by rewrite IH.
Qed.

Lemma broadcast_run (st : Store) session s event :
  heap st !! session = Some s →
  broadcast session event st = Ok tt (after_calls event (subscribers s) st).
Proof.
  intros Hs. unfold Terminal.broadcast, bind at 1, deref. rewrite Hs.
  rewrite forEach_catch. unfold after_calls. f_equal.
  revert st Hs. clear. intros st _. revert st.
  induction (subscribers s) as [|cb subs IH]; intros st; [done|].
  cbn [fold_left]. by rewrite store_call, IH.
Qed.

(** The terminal half of C8. *)
Lemma broadcast_reaches_all (st : Store) session s event :
  heap st !! session = Some s →
  ∃ st', broadcast session event st = Ok tt st'
    ∧ delivered st' = delivered st ++ map (λ cb, (cb, event)) (subscribers s)
    ∧ heap st' = heap st
    ∧ sessions st' = sessions st
    ∧ projectToSession st' = projectToSession st.
Proof.
  intros Hs. eexists. split; [by apply broadcast_run|].
  destruct (after_calls_frame event (subscribers s) st) as (? & ? & ? & ?).
  by rewrite after_calls_delivered.
Qed.

(** The terminal half of C9. *)
Lemma subscribe_unknown (st : Store) sessionId callback :
  sessions st !! sessionId = None →
  subscribe invoke sessionId callback st = Ok dummy_unsubscribe st
  ∧ ∀ n, Nat.iter n (λ st, store (run_unsubscribe dummy_unsubscribe st)) st
         = st.
Proof.
  intros Hn. split.
  - unfold subscribe, getSession. eff. by rewrite Hn.
  - induction n as [|n IH]; [done|]. by rewrite Nat.iter_succ, IH.
Qed.

End Facts.
End TerminalFacts.

(** ** The terminal manager: registry invariant *)

Module TerminalInvariant.
Import Terminal EffFacts TerminalFacts.

Section Invariant.
Context {Callback : Type} `{EqDecision Callback} {Ext : Type}.
Variable invoke : Callback → TerminalEvent → M Ext unit.
Variable basename : jsstring → jsstring.

Abbreviation Store := (@Store Callback Ext).
Abbreviation TerminalSession := (@TerminalSession Callback).

Definition bounded (s : TerminalSession) : Prop :=
  maxBufferLines s = 5000 ∧ length (buffer s) ≤ 5000.

(** The registry is consistent: the id map leads to the object of that
    id, the path map leads to a registered session of that path, ids
    are never shared between session objects, and every buffer is within
    its capacity. *)
Record Inv (st : Store) : Prop := {
  inv_sessions : ∀ i l, sessions st !! i = Some l →
                 ∃ s, heap st !! l = Some s ∧ id s = i;
  inv_paths : ∀ p i, projectToSession st !! p = Some i →
              ∃ l s, sessions st !! i = Some l ∧ heap st !! l = Some s
                     ∧ projectPath s = p;
  inv_ids : ∀ l1 l2 s1 s2, heap st !! l1 = Some s1 → heap st !! l2 = Some s2 →
            id s1 = id s2 → l1 = l2;
  inv_buffers : ∀ l s, heap st !! l = Some s → bounded s;
}.

(** [generateId()] never returns the id of a session that was created
    before. *)
Definition fresh_id (i : jsstring) (st : Store) : Prop :=
  ∀ l s, heap st !! l = Some s → id s ≠ i.

Lemma Inv_same (st st' : Store) :
  sessions st' = sessions st →
  projectToSession st' = projectToSession st →
  heap st' = heap st →
  Inv st → Inv st'.
Proof.
  intros Hs Hp Hh [I1 I2 I3 I4].
  constructor; rewrite ?Hs, ?Hp, ?Hh; assumption.
Qed.

Lemma Inv_empty (e : Ext) : Inv (empty e).
Proof. constructor; cbn; intros *; by rewrite ?lookup_empty. Qed.

(** Changing a session object in place, keeping its id, its path and
    its buffer bound. *)
Lemma Inv_alter (st st' : Store) (f : TerminalSession → TerminalSession) l :
  (∀ s, id (f s) = id s) →
  (∀ s, projectPath (f s) = projectPath s) →
  (∀ s, bounded s → bounded (f s)) →
  sessions st' = sessions st →
  projectToSession st' = projectToSession st →
  heap st' = alter f l (heap st) →
  Inv st → Inv st'.
Proof.
  intros Hid Hpath Hb Hs Hp Hh [I1 I2 I3 I4].
  assert (∀ l' s', heap st' !! l' = Some s' →
            ∃ s, heap st !! l' = Some s ∧ id s' = id s
                 ∧ projectPath s' = projectPath s
                 ∧ (bounded s → bounded s')) as Hback.
  { intros l' s'. rewrite Hh, lookup_alter.
    destruct (decide (l = l')) as [->|].
    - destruct (heap st !! l') as [s|]; [|done].
      intros [= <-]. exists s. rewrite Hid, Hpath. auto.
    - intros Hl'. exists s'. auto. }
  assert (∀ l' s, heap st !! l' = Some s →
            ∃ s', heap st' !! l' = Some s' ∧ id s' = id s
                  ∧ projectPath s' = projectPath s) as Hfwd.
  { intros l' s Hl'. rewrite Hh, lookup_alter.
    destruct (decide (l = l')) as [->|]; rewrite Hl'; cbn; eauto. }
  constructor; rewrite ?Hs, ?Hp.
  - intros i l' Hi. destruct (I1 _ _ Hi) as (s & Hl' & <-).
    destruct (Hfwd _ _ Hl') as (s' & ? & ? & ?). eauto.
  - intros p i Hi. destruct (I2 _ _ Hi) as (l' & s & Hi' & Hl' & <-).
    destruct (Hfwd _ _ Hl') as (s' & ? & ? & ?). eauto 6.
  - intros l1 l2 s1 s2 H1 H2 Heq.
    destruct (Hback _ _ H1) as (t1 & Ht1 & E1 & _).
    destruct (Hback _ _ H2) as (t2 & Ht2 & E2 & _).
    eapply I3; [done..|congruence].
  - intros l' s' Hl'. destruct (Hback _ _ Hl') as (s & Hl & _ & _ & Hbs).
    eauto.
Qed.

(** Unregistering the session object [s]: what [close] and the [onExit]
    handler do. *)
Lemma Inv_unregister (st st' : Store) l s :
  heap st !! l = Some s →
  sessions st' = delete (id s) (sessions st) →
  projectToSession st' = delete (projectPath s) (projectToSession st) →
  heap st' = heap st →
  Inv st → Inv st'.
Proof.
  intros Hl Hs Hp Hh [I1 I2 I3 I4].
  constructor; rewrite ?Hs, ?Hp, ?Hh; try assumption.
  - intros i l'. rewrite lookup_delete_Some. intros [_ ?]. eauto.
  - intros p i. rewrite lookup_delete_Some. intros [Hne Hi].
    destruct (I2 _ _ Hi) as (l' & s' & Hi' & Hl' & Hp').
    exists l', s'. split; [|done].
    rewrite lookup_delete_ne; [done|].
    intros E. destruct (I1 _ _ Hi') as (s'' & Hl'' & Hid).
    assert (s'' = s') by congruence. subst s''.
    assert (l = l') by (eapply I3; [done..|congruence]). subst l'.
    congruence.
Qed.

(** Registering a new session object under a fresh id. *)
Lemma Inv_register (st st' : Store) l s :
  heap st !! l = None →
  fresh_id (id s) st →
  bounded s →
  sessions st' = <[id s := l]> (sessions st) →
  projectToSession st' = <[projectPath s := id s]> (projectToSession st) →
  heap st' = <[l := s]> (heap st) →
  Inv st → Inv st'.
Proof.
  intros Hl Hfresh Hb Hs Hp Hh [I1 I2 I3 I4].
  assert (∀ l' s', heap st !! l' = Some s' → heap st' !! l' = Some s')
    as Hkeep.
  { intros l' s' Hl'. rewrite Hh, lookup_insert_ne; [done|congruence]. }
  assert (∀ i l', sessions st !! i = Some l' → i ≠ id s) as Hold.
  { intros i l' Hi ->. destruct (I1 _ _ Hi) as (s' & Hl' & Hid).
    by eapply Hfresh. }
  constructor; rewrite ?Hs, ?Hp.
  - intros i l'. rewrite lookup_insert_Some.
    intros [[<- <-]|[Hne Hi]].
    + exists s. by rewrite Hh, lookup_insert_eq.
    + destruct (I1 _ _ Hi) as (s' & Hl' & Hid). eauto.
  - intros p i. rewrite lookup_insert_Some.
    intros [[<- <-]|[Hne Hi]].
    + exists l, s. by rewrite Hh, !lookup_insert_eq.
    + destruct (I2 _ _ Hi) as (l' & s' & Hi' & Hl' & Hp').
      exists l', s'. split; [|eauto].
      rewrite lookup_insert_ne; [done|]. intros E. by eapply Hold.
  - intros l1 l2 s1 s2. rewrite Hh, !lookup_insert_Some.
    intros [[<- <-]|[Hn1 H1]] [[<- <-]|[Hn2 H2]]; try done.
    + intros E. exfalso. by eapply Hfresh.
    + intros E. exfalso. by eapply Hfresh.
    + by apply I3.
  - intros l' s'. rewrite Hh, lookup_insert_Some.
    intros [[<- <-]|[_ ?]]; eauto.
Qed.


Lemma Inv_broadcast (st : Store) l event :
  Inv st → Inv (store (broadcast invoke l event st)).
Proof.
  intros HI. destruct (heap st !! l) as [s|] eqn:Hl.
  - rewrite (broadcast_run invoke st l s event Hl). cbn [store].
    destruct (after_calls_frame invoke event (subscribers s) st)
      as (? & ? & ? & ?).
    by eapply Inv_same.
  - unfold broadcast, deref. eff. by rewrite Hl.
Qed.

Lemma slice_last_length {A} n (a : list A) :
  0 < n → length (slice_last n a) = length a `min` n.
Proof.
  intros Hn. destruct n; [lia|]. unfold slice_last.
  rewrite length_drop. lia.
Qed.

Lemma push_lines_bounded data (s : TerminalSession) :
  bounded s → bounded (push_lines data s).
Proof.
  intros [Hmax Hlen]. unfold bounded, push_lines. cbn. split; [done|].
  rewrite Hmax. case_decide; [|lia].
  rewrite slice_last_length; lia.
Qed.

Lemma Inv_touch (st : Store) l now :
  Inv st → Inv (set_heap (alter (touch now) l) st).
Proof. by apply Inv_alter with (f := touch now) (l := l). Qed.

Lemma Inv_set_subscribers (st : Store) l f :
  Inv st → Inv (set_heap (alter (set_subscribers f) l) st).
Proof. by apply Inv_alter with (f := set_subscribers f) (l := l). Qed.

Lemma Inv_push_lines (st : Store) l data :
  Inv st → Inv (set_heap (alter (push_lines data) l) st).
Proof.
  apply Inv_alter with (f := push_lines data) (l := l); try done.
  apply push_lines_bounded.
Qed.

Lemma Inv_pty (st : Store) c : Inv st → Inv (store (pty c st)).
Proof. by apply Inv_same. Qed.

Lemma Inv_call (st : Store) cb event :
  Inv st → Inv (store (call invoke cb event st)).
Proof. rewrite store_call. by apply Inv_same. Qed.

Lemma Inv_onData (st : Store) l now data :
  Inv st → Inv (store (onData invoke l now data st)).
Proof.
  intros HI. unfold onData, update, deref. eff.
  destruct (heap st !! l) as [s|] eqn:Hl; [|done].
  by apply Inv_broadcast, Inv_push_lines, Inv_touch.
Qed.

Lemma Inv_onExit (st : Store) l code :
  Inv st → Inv (store (onExit invoke l code st)).
Proof.
  intros HI. unfold onExit, deref. eff.
  destruct (heap st !! l) as [s|] eqn:Hl; [|done].
  rewrite (broadcast_run invoke st l s _ Hl).
  destruct (after_calls_frame invoke
              {| type := exit; sessionId := id s; data := None;
                 exitCode := Some code; event_sessions := None |} (subscribers s) st)
    as (Hs & Hp & Hh & _).
  cbn. eapply (Inv_unregister st _ l s); cbn; by rewrite ?Hs, ?Hp, ?Hh.
Qed.

Lemma Inv_write (st : Store) now sid data :
  Inv st → Inv (store (write now sid data st)).
Proof.
  intros HI. unfold write, getSession, update, deref, pty. eff.
  destruct (sessions st !! sid) as [l|]; [|done].
  destruct (heap st !! l) as [s|] eqn:Hl; [|done].
  cbn. eapply Inv_touch, Inv_same; [..|exact HI]; done.
Qed.

Lemma Inv_runCommand (st : Store) now sid command :
  Inv st → Inv (store (runCommand now sid command st)).
Proof.
  intros HI. unfold runCommand, getSession, update, deref, pty. eff.
  destruct (sessions st !! sid) as [l|]; [|done].
  destruct (heap st !! l) as [s|] eqn:Hl; [|done].
  cbn. eapply Inv_touch, Inv_same; [..|exact HI]; done.
Qed.

Lemma Inv_resize (st : Store) sid cols rows :
  Inv st → Inv (store (resize sid cols rows st)).
Proof.
  intros HI. unfold resize, getSession, deref, pty. eff.
  destruct (sessions st !! sid) as [l|]; [|done].
  destruct (heap st !! l) as [s|] eqn:Hl; [|done].
  cbn. eapply Inv_same; [..|exact HI]; done.
Qed.

(** What [close] does, case by case. *)
Lemma close_run (st : Store) sid :
  match sessions st !! sid with
  | None => close sid st = Ok false st
  | Some l =>
      match heap st !! l with
      | None => close sid st = Throw TypeError st
      | Some s =>
          close sid st
          = Ok true
              {| sessions := delete sid (sessions st);
                 order := filter (λ k, k ≠ sid) (order st);
                 projectToSession :=
                   delete (projectPath s) (projectToSession st);
                 heap := heap st;
                 pty_calls := pty_calls st ++ [pty_kill (ptyProcess s)];
                 delivered := delivered st; ext := ext st |}
      end
  end.
Proof.
  unfold close, getSession, deref, pty. eff.
  destruct (sessions st !! sid) as [l|]; [|done].
  by destruct (heap st !! l) as [s|].
Qed.

Lemma Inv_close (st : Store) sid :
  Inv st → Inv (store (close sid st)).
Proof.
  intros HI. pose proof (close_run st sid) as Hrun.
  destruct (sessions st !! sid) as [l|] eqn:Hsid; [|by rewrite Hrun].
  destruct (heap st !! l) as [s|] eqn:Hl; rewrite Hrun; [|done].
  destruct (inv_sessions _ HI _ _ Hsid) as (s' & Hl' & Hid).
  assert (s' = s) by congruence. subst s'.
  eapply (Inv_unregister st _ l s); cbn; by rewrite ?Hid.
Qed.

Lemma Inv_subscribe (st : Store) sid cb :
  Inv st → Inv (store (subscribe invoke sid cb st)).
Proof.
  intros HI. unfold subscribe, getSession, update. eff.
  destruct (sessions st !! sid) as [l|]; [|done].
  set (st1 := set_heap _ st).
  assert (Inv st1) as HI1 by by apply Inv_set_subscribers.
  unfold deref. destruct (heap st1 !! l) as [s|]; [|done].
  case_decide; [|done].
  match goal with |- context [Terminal.call invoke cb ?e st1] =>
    pose proof (Inv_call st1 cb e HI1) as HI2;
    destruct (Terminal.call invoke cb e st1) end; done.
Qed.

Lemma Inv_run_unsubscribe (st : Store) u :
  Inv st → Inv (store (run_unsubscribe u st)).
Proof.
  intros HI. destruct u; [done|]. by apply Inv_set_subscribers.
Qed.

(** A loop preserves what every round preserves. *)
Lemma forEach_preserves {A} (P : Store → Prop) (f : A → M Store unit) xs :
  (∀ x st, P st → P (store (f x st))) →
  ∀ st, P st → P (store (forEach f xs st)).
Proof.
  intros Hf. induction xs as [|x xs IH]; intros st HP; [done|].
  cbn [forEach]. unfold bind. specialize (Hf x st HP).
  destruct (f x st) as [[] st'|e st']; [by apply IH|done].
Qed.

Lemma Inv_closeAll (st : Store) : Inv st → Inv (store (closeAll st)).
Proof.
  intros HI. unfold closeAll. eff. apply forEach_preserves; [|done].
  intros i st' HI'. pose proof (Inv_close st' i HI') as H'.
  unfold bind, ret. by destruct (close i st').
Qed.

Lemma new_loc_fresh (st : Store) : heap st !! new_loc st = None.
Proof. apply not_elem_of_dom, is_fresh. Qed.

Lemma Inv_getOrCreateSession (st : Store) env path :
  fresh_id (generateId env) st →
  Inv st → Inv (store (getOrCreateSession invoke basename env path st)).
Proof.
  intros Hfresh HI. unfold getOrCreateSession, update. eff.
  destruct (match projectToSession st !! path with
            | Some i => if decide (i = []) then None else sessions st !! i
            | None => None
            end) as [l|] eqn:Hex.
  { by apply Inv_touch. }
  destruct (path_exists env); [|done]. cbn [negb].
  destruct (spawned env) as [p|msg]; [|done].
  unfold pty. eff. cbn.
  set (s := {| id := generateId env; projectPath := path |}).
  set (st1 := set_projectToSession _ _).
  assert (heap st1 !! new_loc st = Some s) as Hnew.
  { subst st1. cbn. apply lookup_insert_eq. }
  rewrite (broadcast_run invoke st1 _ s _ Hnew). cbn.
  eapply (Inv_register st _ (new_loc st) s); try done.
  - apply new_loc_fresh.
  - split; cbn; lia.
Qed.

(** *** Reachable states *)

Inductive step : Store → Store → Prop :=
  | step_getOrCreateSession st env path :
      fresh_id (generateId env) st →
      step st (store (getOrCreateSession invoke basename env path st))
  | step_write st now sid data : step st (store (write now sid data st))
  | step_resize st sid cols rows : step st (store (resize sid cols rows st))
  | step_close st sid : step st (store (close sid st))
  | step_subscribe st sid cb : step st (store (subscribe invoke sid cb st))
  | step_unsubscribe st u : step st (store (run_unsubscribe u st))
  | step_runCommand st now sid command :
      step st (store (runCommand now sid command st))
  | step_closeAll st : step st (store (closeAll st))
  | step_onData st l now data : step st (store (onData invoke l now data st))
  | step_onExit st l code : step st (store (onExit invoke l code st)).

Inductive reachable : Store → Prop :=
  | reachable_empty e : reachable (empty e)
  | reachable_step st st' : reachable st → step st st' → reachable st'.

Lemma Inv_step (st st' : Store) : step st st' → Inv st → Inv st'.
Proof.
  destruct 1; eauto using Inv_getOrCreateSession, Inv_write, Inv_resize,
    Inv_close, Inv_subscribe, Inv_run_unsubscribe, Inv_runCommand,
    Inv_closeAll, Inv_onData, Inv_onExit.
Qed.

Lemma Inv_reachable (st : Store) : reachable st → Inv st.
Proof. induction 1; eauto using Inv_empty, Inv_step. Qed.

(** *** Closing twice *)

(** C6.  In a reachable state, [close(id)] returns; a second [close(id)]
    returns [false] and changes nothing, so the process is killed once,
    by the first call, when the session exists; after the first call
    neither the id map nor the path map holds the session. *)
Theorem close_idempotent (st : Store) sid :
  reachable st →
  ∃ r1 st1,
    close sid st = Ok r1 st1
    ∧ close sid st1 = Ok false st1
    ∧ sessions st1 !! sid = None
    ∧ (∀ p, projectToSession st1 !! p ≠ Some sid)
    ∧ match sessions st !! sid with
      | Some l =>
          ∃ s, heap st !! l = Some s ∧ r1 = true
               ∧ pty_calls st1 = pty_calls st ++ [pty_kill (ptyProcess s)]
      | None => r1 = false ∧ st1 = st
      end.
Proof.
  intros Hreach. pose proof (Inv_reachable st Hreach) as HI.
  pose proof (close_run st sid) as Hrun.
  destruct (sessions st !! sid) as [l|] eqn:Hsid.
  - destruct (inv_sessions _ HI _ _ Hsid) as (s & Hl & Hid).
    rewrite Hl in Hrun. eexists _, _. split; [exact Hrun|].
    assert (∀ A (x : A), delete sid (sessions st) !! sid = None) as Hgone
      by (intros; apply lookup_delete_eq).
    split; [|split; [|split]].
    + pose proof (close_run
        {| sessions := delete sid (sessions st);
           order := filter (λ k, k ≠ sid) (order st);
           projectToSession := delete (projectPath s) (projectToSession st);
           heap := heap st;
           pty_calls := pty_calls st ++ [pty_kill (ptyProcess s)];
           delivered := delivered st; ext := ext st |} sid) as Hrun2.
      cbn [sessions] in Hrun2. by rewrite lookup_delete_eq in Hrun2.
    + cbn. apply lookup_delete_eq.
    + intros p. cbn. rewrite lookup_delete_Some. intros [Hne Hp].
      destruct (inv_paths _ HI _ _ Hp) as (l' & s' & Hl' & Hs' & Hpath).
      congruence.
    + eauto.
  - exists false, st. rewrite Hrun. repeat split; try done.
    intros p Hp. destruct (inv_paths _ HI _ _ Hp) as (l' & s' & Hl' & _).
    congruence.
Qed.

(** *** The line buffer *)

(** The last [n] elements. *)
Definition keep_last {A} (n : nat) (a : list A) : list A :=
  drop (length a - n) a.

Lemma keep_last_length {A} n (a : list A) :
  length (keep_last n a) = length a `min` n.
Proof. unfold keep_last. rewrite length_drop. lia. Qed.

Lemma keep_last_app {A} n (a b : list A) :
  keep_last n (keep_last n a ++ b) = keep_last n (a ++ b).
Proof.
  unfold keep_last. rewrite !length_app, length_drop, !drop_app, drop_drop.
  rewrite length_drop. f_equal; f_equal; lia.
Qed.

Lemma keep_last_idem {A} n (a : list A) :
  keep_last n (keep_last n a) = keep_last n a.
Proof.
  pose proof (keep_last_app n a []) as H. by rewrite !app_nil_r in H.
Qed.

Lemma push_lines_buffer data (s : TerminalSession) :
  maxBufferLines s = 5000 →
  buffer (push_lines data s) = keep_last 5000 (buffer s ++ split LF data).
Proof.
  intros Hmax. unfold push_lines, keep_last. cbn. rewrite Hmax.
  case_decide as Hlen; [done|].
  replace (length (buffer s ++ split LF data) - 5000) with 0 by lia.
  done.
Qed.

Lemma onData_run (st : Store) l s now data :
  heap st !! l = Some s →
  ∃ st', onData invoke l now data st = Ok tt st'
    ∧ heap st' = <[l := push_lines data (touch now s)]> (heap st)
    ∧ sessions st' = sessions st
    ∧ projectToSession st' = projectToSession st.
Proof.
  intros Hl. unfold onData, update, deref. eff. rewrite Hl.
  set (st2 := set_heap _ (set_heap _ st)).
  assert (heap st2 = <[l := push_lines data (touch now s)]> (heap st)) as Hh.
  { subst st2. cbn. apply map_eq. intros l'.
    destruct (decide (l = l')) as [<-|Hne].
    - by rewrite !lookup_alter_eq, Hl, lookup_insert_eq.
    - by rewrite !lookup_alter_ne, lookup_insert_ne. }
  assert (heap st2 !! l = Some (push_lines data (touch now s))) as Hl2.
  { by rewrite Hh, lookup_insert_eq. }
  rewrite (broadcast_run invoke st2 l _ _ Hl2).
  eexists. split; [reflexivity|].
  match goal with |- context [after_calls invoke ?e ?subs st2] =>
    destruct (after_calls_frame invoke e subs st2) as (-> & -> & -> & _) end.
  done.
Qed.

(** The data events [ds] (clock value and chunk) arriving one after the
    other at the session object [l]. *)
Definition arrivals (l : Loc) (ds : list (N * jsstring)) (st : Store)
  : Store :=
  fold_left (λ st d, store (onData invoke l d.1 d.2 st)) ds st.

Definition lines_of (ds : list (N * jsstring)) : list jsstring :=
  concat (map (λ d, split LF d.2) ds).

Lemma arrivals_buffer (st : Store) l s ds :
  heap st !! l = Some s →
  maxBufferLines s = 5000 →
  ∃ s', heap (arrivals l ds st) !! l = Some s'
    ∧ maxBufferLines s' = 5000
    ∧ keep_last 5000 (buffer s')
      = keep_last 5000 (buffer s ++ lines_of ds)
    ∧ (ds ≠ [] → buffer s' = keep_last 5000 (buffer s'))
    ∧ (ds = [] → s' = s).
Proof.
  revert st s. induction ds as [|[now data] ds IH]; intros st s Hl Hmax.
  - exists s. cbn. unfold lines_of. cbn. by rewrite app_nil_r.
  - cbn [arrivals fold_left fst snd].
    destruct (onData_run st l s now data Hl) as (st' & Hrun & Hh & _).
    rewrite Hrun. cbn [store].
    assert (heap st' !! l = Some (push_lines data (touch now s))) as Hl'
      by by rewrite Hh, lookup_insert_eq.
    destruct (IH st' _ Hl' Hmax) as (s' & Hs' & Hmax' & Hbuf & Hne & He).
    exists s'. fold (arrivals l ds st'). split; [done|]. split; [done|].
    split; [|split; [|done]].
    + rewrite Hbuf, push_lines_buffer by done. cbn [buffer touch].
      unfold lines_of. cbn [map concat fst snd].
      rewrite keep_last_app. by rewrite <- app_assoc.
    + intros _. destruct ds as [|d ds'].
      * rewrite (He eq_refl), push_lines_buffer by done.
        by rewrite keep_last_idem.
      * by apply Hne.
Qed.

(** C7.  From a reachable state, after any sequence of output arrivals
    at a session, its buffer holds the last 5000 of the lines it held
    and the lines that arrived, in their order: never more than 5000,
    and exactly 5000 once that many lines have come. *)
Theorem buffer_keeps_most_recent (st : Store) l s ds :
  reachable st →
  heap st !! l = Some s →
  ∃ s', heap (arrivals l ds st) !! l = Some s'
    ∧ buffer s' = keep_last 5000 (buffer s ++ lines_of ds)
    ∧ length (buffer s') ≤ 5000
    ∧ (5000 ≤ length (buffer s ++ lines_of ds) → length (buffer s') = 5000).
Proof.
  intros Hreach Hl.
  destruct (inv_buffers _ (Inv_reachable st Hreach) _ _ Hl) as [Hmax Hlen].
  destruct (arrivals_buffer st l s ds Hl Hmax)
    as (s' & Hs' & _ & Hbuf & Hne & He).
  assert (buffer s' = keep_last 5000 (buffer s ++ lines_of ds)) as Hb.
  { destruct ds as [|d ds'].
    - rewrite (He eq_refl). unfold lines_of, keep_last. cbn.
      rewrite app_nil_r.
      replace (length (buffer s) - 5000) with 0 by lia. done.
    - rewrite <- Hbuf. by apply Hne. }
  exists s'. split; [done|]. split; [done|].
  rewrite Hb, keep_last_length. lia.
Qed.

End Invariant.

(** *** A concrete run: one session, created from the empty manager *)

Definition quiet : nat → TerminalEvent → M unit unit := λ _ _, ret tt.

Definition demo_env : SpawnEnv :=
  {| random := lit "k3x9"; path_exists := true;
     spawned := inl 7; now := 0 |}.

Definition demo_store : @Terminal.Store nat unit :=
  store (getOrCreateSession quiet (λ p, p) demo_env (lit "/srv/app")
           (empty tt)).

Lemma demo_reachable : reachable quiet (λ p, p) demo_store.
Proof.
  eapply reachable_step; [apply (reachable_empty _ _ tt)|].
  apply step_getOrCreateSession. intros l s Hl. cbn in Hl.
  by rewrite lookup_empty in Hl.
Qed.

Lemma demo_session :
  ∃ s, heap demo_store !! 0 = Some s ∧ sessions demo_store !! lit "term_0_k3x9" = Some 0.
Proof. eexists. split; by vm_compute. Qed.

Lemma close_idempotent_witness :
  ∃ r1 st1,
    close (lit "term_0_k3x9") demo_store = Ok r1 st1
    ∧ close (lit "term_0_k3x9") st1 = Ok false st1
    ∧ sessions st1 !! lit "term_0_k3x9" = None
    ∧ pty_calls st1 = pty_calls demo_store ++ [pty_kill 7].
Proof.
  destruct (close_idempotent quiet (λ p, p) demo_store (lit "term_0_k3x9")
              demo_reachable) as (r1 & st1 & H1 & H2 & H3 & _ & H5).
  exists r1, st1. repeat split; try assumption.
  destruct demo_session as (s & Hs & Hsid). rewrite Hsid in H5.
  destruct H5 as (s' & Hs' & _ & ->). 
  assert (ptyProcess s' = 7) as ->; [|done].
  revert Hs'. vm_compute. by intros [= <-].
Defined.

Lemma buffer_keeps_most_recent_witness :
  ∃ s', heap (arrivals quiet 0 [(1%N, lit "a" ++ [LF] ++ lit "b"); (2%N, lit "c")]
                demo_store) !! 0 = Some s'
        ∧ buffer s' = [lit "a"; lit "b"; lit "c"]
        ∧ length (buffer s') ≤ 5000.
Proof.
  destruct demo_session as (s & Hs & _).
  destruct (buffer_keeps_most_recent quiet (λ p, p) demo_store 0 s
              [(1%N, lit "a" ++ [LF] ++ lit "b"); (2%N, lit "c")]
              demo_reachable Hs) as (s' & Hs' & Hb & Hlen & _).
  exists s'. repeat split; try assumption.
  rewrite Hb. revert Hs. vm_compute. by intros [= <-].
Defined.

End TerminalInvariant.

(** ** The CLI chat manager *)

Module ChatFacts.
Import CliParser Chat EffFacts.

(** The processes that were spawned and have not closed. *)
Definition running (lg : list ProcEvent) : list Proc :=
  fold_left (λ acc e,
               match e with
               | proc_spawn p _ _ => acc ++ [p]
               | proc_closed p => filter (λ q, q ≠ p) acc
               | proc_kill _ => acc
               end) lg [].

Lemma running_spawn lg p args cwd :
  running (lg ++ [proc_spawn p args cwd]) = running lg ++ [p].
Proof. unfold running. by rewrite fold_left_app. Qed.

Section Facts.
Context {Callback : Type} `{EqDecision Callback} {Ext : Type}.
Variable invoke : Callback → CLIEvent → M Ext unit.
Variable basename : jsstring → jsstring.

Abbreviation Store := (@Store Callback Ext).
Abbreviation ChatSession := (@ChatSession Callback).

Definition after_call (event : CLIEvent) (st : Store) (cb : Callback)
  : Store :=
  {| sessions := sessions st; order := order st; heap := heap st;
     invocations := invocations st; proc_log := proc_log st;
     delivered := delivered st ++ [(cb, event)];
     ext := store (invoke cb event (ext st)) |}.

Lemma chat_store_call cb event (st : Store) :
  store (call invoke cb event st) = after_call event st cb.
Proof.
  unfold call, after_call. eff. cbn.
  destruct (invoke cb event (ext st)); reflexivity.
Qed.

Definition after_calls (event : CLIEvent) (subs : list Callback)
    (st : Store) : Store :=
  fold_left (after_call event) subs st.

Lemma chat_after_calls_frame event subs (st : Store) :
  sessions (after_calls event subs st) = sessions st
  ∧ heap (after_calls event subs st) = heap st
  ∧ invocations (after_calls event subs st) = invocations st
  ∧ proc_log (after_calls event subs st) = proc_log st.
Proof.
  unfold after_calls.
  repeat split; by apply (fold_left_preserves (after_call event)).
Qed.

Lemma chat_after_calls_delivered event subs (st : Store) :
  delivered (after_calls event subs st)
  = delivered st ++ map (λ cb, (cb, event)) subs.
Proof.
  unfold after_calls. revert st.
  induction subs as [|cb subs IH]; intros st; cbn.
  - by rewrite app_nil_r.
  - rewrite IH. cbn. by rewrite <- app_assoc.
Qed.

Lemma chat_after_calls_ext event subs (st : Store) :
  ext (after_calls event subs st)
  = fold_left (λ e cb, store (invoke cb event e)) subs (ext st).
Proof.
  unfold after_calls. revert st.
  induction subs as [|cb subs IH]; intros st; [done|].
  cbn [fold_left]. by rewrite IH.
Qed.

Lemma chat_broadcast_run (st : Store) session s event :
  heap st !! session = Some s →
  broadcast invoke session event st
  = Ok tt (after_calls event (subscribers s) st).
Proof.
  intros Hs. unfold broadcast, bind at 1, deref. rewrite Hs.
  rewrite forEach_catch. unfold after_calls. f_equal.
  clear Hs. revert st.
  induction (subscribers s) as [|cb subs IH]; intros st; [done|].
  cbn [fold_left]. by rewrite chat_store_call, IH.
Qed.

(** The chat half of C8. *)
Lemma chat_broadcast_reaches_all (st : Store) session s event :
  heap st !! session = Some s →
  ∃ st', broadcast invoke session event st = Ok tt st'
    ∧ delivered st' = delivered st ++ map (λ cb, (cb, event)) (subscribers s)
    ∧ heap st' = heap st
    ∧ sessions st' = sessions st.
Proof.
  intros Hs. eexists. split; [by apply chat_broadcast_run|].
  destruct (chat_after_calls_frame event (subscribers s) st) as (? & ? & ? & ?).
  by rewrite chat_after_calls_delivered.
Qed.

(** The chat half of C9. *)
Lemma chat_subscribe_unknown (st : Store) now sessionId callback :
  sessions st !! sessionId = None →
  subscribe invoke now sessionId callback st = Ok dummy_unsubscribe st
  ∧ ∀ n, Nat.iter n (λ st, store (run_unsubscribe dummy_unsubscribe st)) st
         = st.
Proof.
  intros Hn. split.
  - unfold subscribe. eff. by rewrite Hn.
  - induction n as [|n IH]; [done|]. by rewrite Nat.iter_succ, IH.
Qed.

(** C1, as the code has it.  [send] on a known session records the user
    turn, announces it and then calls [spawn], whatever [currentProcess]
    holds.  When [spawn] returns, a new process is started and made the
    session's current process; a process that was attached before is
    neither killed nor waited for: the processes that were running still
    are, next to the new one.  When [spawn] throws, [send] throws the same
    exception: nothing is started, and the session's current process is
    the one it was. *)
Theorem send_always_spawns (st : Store) now spawn_throws sessionId message
    l s :
  sessions st !! sessionId = Some l →
  heap st !! l = Some s →
  ∃ st' s',
    heap st' !! l = Some s'
    ∧ conversationHistory s' = conversationHistory s ++ [(user, message)]
    ∧ delivered st'
      = delivered st
        ++ map (λ cb, (cb, with_role (lit "user")
                             (with_content (Some (JStr message)) None
                                (event_of user_message now))))
               (subscribers s)
        ++ map (λ cb, (cb, event_of thinking now)) (subscribers s)
    ∧ sessions st' = sessions st
    ∧ invocations st !! new_proc st = None
    ∧ match spawn_throws with
      | None =>
          send invoke now None sessionId message st = Ok true st'
          ∧ proc_log st'
            = proc_log st
              ++ [proc_spawn (new_proc st)
                    [lit "-o"; lit "stream-json"; lit "-p"; message]
                    (projectPath s)]
          ∧ running (proc_log st') = running (proc_log st) ++ [new_proc st]
          ∧ currentProcess s' = Some (new_proc st)
          ∧ invocations st'
            = <[new_proc st := {| inv_session := l;
                                  accumulator := new_accumulator;
                                  lineBuffer := []; startTime := now |}]>
                (invocations st)
      | Some e =>
          send invoke now (Some e) sessionId message st = Throw e st'
          ∧ proc_log st' = proc_log st
          ∧ currentProcess s' = currentProcess s
          ∧ invocations st' = invocations st
      end.
Proof.
  intros Hsid Hl. unfold send, update. eff. rewrite Hsid.
  set (st1 := set_heap _ st).
  assert (heap st1 !! l = Some (push_history user message s)) as Hl1.
  { subst st1. cbn. by rewrite lookup_alter_eq, Hl. }
  rewrite (chat_broadcast_run st1 l _ _ Hl1).
  set (st2 := after_calls _ _ st1).
  assert (sessions st2 = sessions st1 ∧ heap st2 = heap st1
          ∧ invocations st2 = invocations st1 ∧ proc_log st2 = proc_log st1)
    as (Hs2 & Hh2 & Hi2 & Hp2) by apply chat_after_calls_frame.
  assert (heap st2 !! l = Some (push_history user message s)) as Hl2
    by by rewrite Hh2.
  rewrite (chat_broadcast_run st2 l _ _ Hl2).
  set (st3 := after_calls _ _ st2).
  assert (sessions st3 = sessions st2 ∧ heap st3 = heap st2
          ∧ invocations st3 = invocations st2 ∧ proc_log st3 = proc_log st2)
    as (Hs3 & Hh3 & Hi3 & Hp3) by apply chat_after_calls_frame.
  assert (delivered st3
          = delivered st
            ++ map (λ cb, (cb, with_role (lit "user")
                                 (with_content (Some (JStr message)) None
                                    (event_of user_message now))))
                   (subscribers s)
            ++ map (λ cb, (cb, event_of thinking now)) (subscribers s))
    as Hd3.
  { unfold st3, st2. rewrite !chat_after_calls_delivered.
    unfold st1. cbn [delivered set_heap subscribers push_history].
    by rewrite <- app_assoc. }
  unfold deref. rewrite Hh3, Hl2.
  assert (new_proc st3 = new_proc st) as Hnew.
  { unfold new_proc. by rewrite Hi3, Hi2. }
  assert (invocations st !! new_proc st = None) as Hfresh
    by apply not_elem_of_dom, is_fresh.
  destruct spawn_throws as [e|].
  - exists st3, (push_history user message s).
    rewrite Hh3, Hl2, Hs3, Hs2, Hp3, Hp2, Hi3, Hi2, Hd3.
    by repeat split.
  - unfold log. eff. eexists _, _.
    split; [|split; [|split; [|split; [|split;
      [exact Hfresh|split; [reflexivity|]]]]]];
      cbn [proc_log heap sessions invocations delivered set_heap
           set_invocations];
      rewrite ?Hnew, ?Hp3, ?Hp2, ?Hs3, ?Hs2, ?Hh3, ?Hi3, ?Hi2, ?Hd3,
        ?lookup_alter_eq, ?Hl2, ?running_spawn.
    + reflexivity.
    + reflexivity.
    + reflexivity.
    + reflexivity.
    + by repeat split.
Qed.

End Facts.

(** *** A concrete run: two messages in a row *)

Definition quiet : nat → CLIEvent → M unit unit := λ _ _, ret tt.

Definition st0 : @Chat.Store nat unit :=
  store (create quiet (λ p, p) 0 (lit "k3x9") (lit "/srv/app") (empty tt)).
Definition st1 : @Chat.Store nat unit :=
  store (send quiet 1 None (lit "chat_0_k3x9") (lit "hello") st0).
Definition st2 : @Chat.Store nat unit :=
  store (send quiet 2 None (lit "chat_0_k3x9") (lit "again") st1).

(** After the first message a process is attached to the session and
    still running; the second [send] starts another one all the same. *)
Lemma send_while_attached :
  ∃ s1, heap st1 !! 0 = Some s1
    ∧ currentProcess s1 = Some 0
    ∧ running (proc_log st1) = [0]
    ∧ send quiet 2 None (lit "chat_0_k3x9") (lit "again") st1 = Ok true st2
    ∧ running (proc_log st2) = [0; 1].
Proof. eexists. repeat split; by vm_compute. Qed.

Lemma st1_session : ∃ s1, heap st1 !! 0 = Some s1.
Proof. eexists. by vm_compute. Qed.

Lemma send_always_spawns_witness :
  ∃ st' s',
    send quiet 2 None (lit "chat_0_k3x9") (lit "again") st1 = Ok true st'
    ∧ heap st' !! 0 = Some s'
    ∧ currentProcess s' = Some (new_proc st1).
Proof.
  destruct st1_session as (s1 & Hs1).
  destruct (send_always_spawns quiet st1 2 None (lit "chat_0_k3x9")
              (lit "again") 0 s1)
    as (st' & s' & Hs' & _ & _ & _ & _ & Hsend & _ & _ & Hcur & _);
    [by vm_compute|exact Hs1|].
  exists st', s'. exact (conj Hsend (conj Hs' Hcur)).
Defined.

(** The same message when [spawn] refuses it: [send] throws, the turn is
    in the history all the same, and the process attached before still
    is. *)
Lemma send_refused :
  ∃ st' s',
    send quiet 2 (Some TypeError) (lit "chat_0_k3x9") (lit "again") st1
    = Throw TypeError st'
    ∧ heap st' !! 0 = Some s'
    ∧ conversationHistory s'
      = [(user, lit "hello"); (user, lit "again")]
    ∧ currentProcess s' = Some 0
    ∧ proc_log st' = proc_log st1.
Proof. eexists _, _. repeat split; by vm_compute. Qed.

End ChatFacts.

(** ** Fan-out and subscription, for both managers *)

Module FanOut.
Import EffFacts.

(** C8.  Broadcasting one event on a session calls every subscriber, in
    the order of the set, whatever the subscribers do to the world
    outside the manager: each one runs from the world the one before
    left, whether that one returned or threw, so a subscriber that throws
    stops neither the calls that follow nor its own subscription.  The
    broadcast itself returns, and the subscriber set, like the rest of
    the manager, is as it was. *)
Theorem broadcast_isolates_failures
    {TCallback CCallback Ext : Type}
    (tinvoke : TCallback → Terminal.TerminalEvent → M Ext unit)
    (cinvoke : CCallback → CliParser.CLIEvent → M Ext unit)
    (tst : @Terminal.Store TCallback Ext) (cst : @Chat.Store CCallback Ext)
    tsession ts tevent csession cs cevent :
  Terminal.heap tst !! tsession = Some ts →
  Chat.heap cst !! csession = Some cs →
  (∃ tst', Terminal.broadcast tinvoke tsession tevent tst = Ok tt tst'
     ∧ Terminal.ext tst'
       = fold_left (λ e cb, store (tinvoke cb tevent e))
           (Terminal.subscribers ts) (Terminal.ext tst)
     ∧ Terminal.delivered tst'
       = Terminal.delivered tst
         ++ map (λ cb, (cb, tevent)) (Terminal.subscribers ts)
     ∧ Terminal.heap tst' = Terminal.heap tst
     ∧ Terminal.heap tst' !! tsession = Some ts
     ∧ Terminal.sessions tst' = Terminal.sessions tst
     ∧ Terminal.projectToSession tst' = Terminal.projectToSession tst
     ∧ Terminal.pty_calls tst' = Terminal.pty_calls tst)
  ∧ (∃ cst', Chat.broadcast cinvoke csession cevent cst = Ok tt cst'
       ∧ Chat.ext cst'
         = fold_left (λ e cb, store (cinvoke cb cevent e))
             (Chat.subscribers cs) (Chat.ext cst)
       ∧ Chat.delivered cst'
         = Chat.delivered cst
           ++ map (λ cb, (cb, cevent)) (Chat.subscribers cs)
       ∧ Chat.heap cst' = Chat.heap cst
       ∧ Chat.heap cst' !! csession = Some cs
       ∧ Chat.sessions cst' = Chat.sessions cst
       ∧ Chat.invocations cst' = Chat.invocations cst
       ∧ Chat.proc_log cst' = Chat.proc_log cst).
Proof.
  intros Ht Hc. split.
  - exists (TerminalFacts.after_calls tinvoke tevent
              (Terminal.subscribers ts) tst).
    destruct (TerminalFacts.after_calls_frame tinvoke tevent
                (Terminal.subscribers ts) tst) as (Hs & Hp & Hh & Hy).
    rewrite Hh.
    exact (conj (TerminalFacts.broadcast_run tinvoke tst _ _ tevent Ht)
          (conj (TerminalFacts.after_calls_ext tinvoke tevent _ tst)
          (conj (TerminalFacts.after_calls_delivered tinvoke tevent _ tst)
          (conj eq_refl (conj Ht (conj Hs (conj Hp Hy))))))).
  - exists (ChatFacts.after_calls cinvoke cevent (Chat.subscribers cs) cst).
    destruct (ChatFacts.chat_after_calls_frame cinvoke cevent
                (Chat.subscribers cs) cst) as (Hs & Hh & Hi & Hp).
    rewrite Hh.
    exact (conj (ChatFacts.chat_broadcast_run cinvoke cst _ _ cevent Hc)
          (conj (ChatFacts.chat_after_calls_ext cinvoke cevent _ cst)
          (conj (ChatFacts.chat_after_calls_delivered cinvoke cevent _ cst)
          (conj eq_refl (conj Hc (conj Hs (conj Hi Hp))))))).
Qed.

(** Two subscribers; the first one throws on every call. *)
Definition first_throws {E} : nat → E → M unit unit :=
  λ cb _, if decide (cb = 0) then throw (Error (lit "boom")) else ret tt.

Definition term_two : @Terminal.Store nat unit :=
  let st := store (Terminal.getOrCreateSession first_throws (λ p, p)
                     TerminalInvariant.demo_env (lit "/srv/app")
                     (Terminal.empty tt)) in
  let st := store (Terminal.subscribe first_throws (lit "term_0_k3x9") 0 st) in
  store (Terminal.subscribe first_throws (lit "term_0_k3x9") 1 st).

Definition chat_two : @Chat.Store nat unit :=
  let st := store (Chat.create first_throws (λ p, p) 0 (lit "k3x9")
                     (lit "/srv/app") (Chat.empty tt)) in
  let st := store (Chat.subscribe first_throws 1 (lit "chat_0_k3x9") 0 st) in
  store (Chat.subscribe first_throws 2 (lit "chat_0_k3x9") 1 st).

Definition exit_event : Terminal.TerminalEvent :=
  {| Terminal.type := Terminal.exit; Terminal.sessionId := lit "term_0_k3x9";
     Terminal.data := None; Terminal.exitCode := Some 0%Z;
     Terminal.event_sessions := None |}.

(** Two subscribers that write their name in the world outside when they
    are called; the first one then throws. *)
Definition signs_then_throws {E} : nat → E → M (list nat) unit :=
  λ cb _ seen, if decide (cb = 0)
               then Throw (Error (lit "boom")) (seen ++ [cb])
               else Ok tt (seen ++ [cb]).

Definition term_signed : @Terminal.Store nat (list nat) :=
  let st := store (Terminal.getOrCreateSession signs_then_throws (λ p, p)
                     TerminalInvariant.demo_env (lit "/srv/app")
                     (Terminal.empty [])) in
  let st := store (Terminal.subscribe signs_then_throws
                     (lit "term_0_k3x9") 0 st) in
  store (Terminal.subscribe signs_then_throws (lit "term_0_k3x9") 1 st).

Definition chat_signed : @Chat.Store nat (list nat) :=
  let st := store (Chat.create signs_then_throws (λ p, p) 0 (lit "k3x9")
                     (lit "/srv/app") (Chat.empty [])) in
  let st := store (Chat.subscribe signs_then_throws 1
                     (lit "chat_0_k3x9") 0 st) in
  store (Chat.subscribe signs_then_throws 2 (lit "chat_0_k3x9") 1 st).

Lemma two_subscribers :
  (∃ ts, Terminal.heap term_signed !! 0 = Some ts
         ∧ Terminal.subscribers ts = [0; 1])
  ∧ (∃ cs, Chat.heap chat_signed !! 0 = Some cs
           ∧ Chat.subscribers cs = [0; 1]).
Proof. split; eexists; split; by vm_compute. Qed.

Lemma broadcast_isolates_failures_witness :
  ∃ tst' cst' ts cs,
    Terminal.broadcast signs_then_throws 0 exit_event term_signed = Ok tt tst'
    ∧ Terminal.ext tst' = [0; 1]
    ∧ Terminal.delivered tst' = [(0, exit_event); (1, exit_event)]
    ∧ Terminal.heap tst' !! 0 = Some ts ∧ Terminal.subscribers ts = [0; 1]
    ∧ Chat.broadcast signs_then_throws 0 (Chat.event_of CliParser.thinking 3)
        chat_signed = Ok tt cst'
    ∧ Chat.ext cst' = Chat.ext chat_signed ++ [0; 1]
    ∧ Chat.heap cst' !! 0 = Some cs ∧ Chat.subscribers cs = [0; 1].
Proof.
  destruct two_subscribers as [(ts & Hts & Hsubs) (cs & Hcs & Hcsubs)].
  destruct (broadcast_isolates_failures signs_then_throws signs_then_throws
              term_signed chat_signed 0 ts exit_event 0 cs
              (Chat.event_of CliParser.thinking 3) Hts Hcs)
    as [(tst' & Ht1 & Hte & Ht2 & _ & Ht3 & _)
        (cst' & Hc1 & Hce & _ & _ & Hc3 & _)].
  exists tst', cst', ts, cs.
  rewrite Hsubs in Ht2, Hte. rewrite Hcsubs in Hce.
  exact (conj Ht1 (conj Hte (conj Ht2 (conj Ht3 (conj Hsubs
        (conj Hc1 (conj Hce (conj Hc3 Hcsubs)))))))).
Defined.

(** C9.  Subscribing to an id that is not registered returns the no-op
    closure and changes nothing: no subscriber is called, nothing is
    delivered; running the closure, any number of times, changes nothing
    either. *)
Theorem subscribe_unknown_is_noop
    {TCallback CCallback Ext : Type}
    `{EqDecision TCallback} `{EqDecision CCallback}
    (tinvoke : TCallback → Terminal.TerminalEvent → M Ext unit)
    (cinvoke : CCallback → CliParser.CLIEvent → M Ext unit)
    (tst : @Terminal.Store TCallback Ext) (cst : @Chat.Store CCallback Ext)
    (now : N) (sessionId : jsstring) tcallback ccallback :
  Terminal.sessions tst !! sessionId = None →
  Chat.sessions cst !! sessionId = None →
  (Terminal.subscribe tinvoke sessionId tcallback tst
   = Ok Terminal.dummy_unsubscribe tst
   ∧ ∀ n, Nat.iter n
            (λ st, store (Terminal.run_unsubscribe
                            Terminal.dummy_unsubscribe st)) tst = tst)
  ∧ (Chat.subscribe cinvoke now sessionId ccallback cst
     = Ok Chat.dummy_unsubscribe cst
     ∧ ∀ n, Nat.iter n
              (λ st, store (Chat.run_unsubscribe
                              Chat.dummy_unsubscribe st)) cst = cst).
Proof.
  intros Ht Hc. split.
  - by apply TerminalFacts.subscribe_unknown.
  - by apply ChatFacts.chat_subscribe_unknown.
Qed.

Lemma subscribe_unknown_is_noop_witness :
  Terminal.subscribe first_throws (lit "nope") 5 term_two
  = Ok Terminal.dummy_unsubscribe term_two
  ∧ Chat.subscribe first_throws 9 (lit "nope") 5 chat_two
    = Ok Chat.dummy_unsubscribe chat_two.
Proof.
  destruct (subscribe_unknown_is_noop first_throws first_throws
              term_two chat_two 9 (lit "nope") 5 5)
    as [[Ht _] [Hc _]]; [by vm_compute..|].
  by split.
Defined.

End FanOut.

(** ** The gateway's authentication boundary *)

Module DaemonFacts.
Import State StateFacts Daemon EffFacts.

Definition auth_error : OutgoingMessage :=
  out_error (lit "Invalid auth token").

Lemma sendTo_run ws message (net : Sockets) :
  sendTo ws message net
  = Ok tt (if is_open ws net
           then alter (λ s, {| readyState := readyState s;
                               sent := sent s ++ [message] |}) ws net
           else net).
Proof. unfold sendTo, ws_send. eff. by destruct (is_open ws net). Qed.

Section Auth.
Variable JSON_parse : jsstring → option JSON.
Variable JSON_stringify : JSON → jsstring.
Variable ToString : JSON → jsstring.
Variable basename : jsstring → jsstring.
Variable ill_typed : Env → Ws → ClientState → JSValue → M World unit.

Abbreviation handleMessage :=
  (handleMessage JSON_parse JSON_stringify ToString basename ill_typed).

(** What the handler does with a message whose token is not valid. *)
Lemma handleMessage_invalid env ws raw (w : World) json fs' :
  JSON_parse raw = Some json →
  json ≠ JNull →
  validateToken (uuid env) (get (Some json) (lit "token")) (fs w)
  = Ok false fs' →
  handleMessage env ws raw w
  = Ok tt (set_sockets (store (sendTo ws auth_error (sockets w)))
                       (set_fs fs' w)).
Proof.
  intros Hparse Hnull Hval. unfold Daemon.handleMessage. rewrite Hparse.
  destruct json; [done|..]; unfold on_fs, on_sockets; eff; rewrite Hval;
    cbn [negb set_fs sockets]; unfold auth_error; rewrite !sendTo_run;
    reflexivity.
Qed.


(** The message [null] has no [token] to read: the handler throws before
    it validates anything. *)
Lemma handleMessage_null env ws raw (w : World) :
  JSON_parse raw = Some JNull →
  handleMessage env ws raw w = Throw TypeError w.
Proof. intros Hparse. unfold Daemon.handleMessage. by rewrite Hparse. Qed.

(** Once the token file exists, validation touches nothing on disk. *)
Lemma invalid_token_disk_untouched env ws raw (w : World) json fs' :
  JSON_parse raw = Some json →
  json ≠ JNull →
  validateToken (uuid env) (get (Some json) (lit "token")) (fs w)
  = Ok false fs' →
  auth_token_file (fs w) ≠ Missing →
  state_dir (fs w) = true →
  handleMessage env ws raw w
  = Ok tt (set_sockets (store (sendTo ws auth_error (sockets w))) w).
Proof.
  intros Hparse Hnull Hval Hfile Hdir.
  rewrite (handleMessage_invalid env ws raw w json fs') by done.
  destruct (validateToken_fs _ _ _ _ _ Hval) as (_ & _ & _ & _ & Hsame).
  rewrite (Hsame Hfile Hdir). by destruct w.
Qed.

End Auth.

(** *** A concrete message: [terminal-close] with a wrong token *)

(** The messages of the concrete runs are well typed: what stands for
    the handling of the others is never run there. *)
Definition never_run : Env → Ws → ClientState → JSValue → M World unit :=
  λ _ _ _ _, ret tt.

Definition demo_world : World :=
  {| fs := {| state_dir := true; writable := true;
              auth_token_file := Content (lit "ah_0123456789abcdef");
              state_file := Missing |};
     sockets := {[ 0 := {| readyState := OPEN; sent := [] |} ]};
     clients := {[ 0 := {| subscriptions := ∅; unsubscribeFns := ∅ |} ]};
     term := Terminal.empty tt;
     chat := Chat.empty tt;
     closures := 0 |}.

Definition demo_message : JSON :=
  JObj [ (lit "type", JStr (lit "terminal-close"));
         (lit "token", JStr (lit "ah_wrong"));
         (lit "sessionId", JStr (lit "term_0_k3x9")) ].

Definition demo_env : Env :=
  {| uuid := []; now := 0; random := lit "k3x9";
     path_exists := true; spawned := inl 7; stream := [];
     stream_throws := None; gemini_throws := None |}.


(** *** Where the claim as it is worded stops

    A daemon that has not issued its token yet: no state directory. *)
Definition first_run : World :=
  set_fs {| state_dir := false; writable := true;
            auth_token_file := Missing; state_file := Missing |}
         demo_world.

Definition first_run_env : Env :=
  {| uuid := lit "6fa459ea-ee8a-4ca4"; now := 0; random := lit "k3x9";
     path_exists := true; spawned := inl 7; stream := [];
     stream_throws := None; gemini_throws := None |}.


End DaemonFacts.

(** ** Strings: trimming *)

Module TrimFacts.
Import JSFacts.

Lemma drop_while_all {A} (p : A → bool) (l : list A) :
  Forall (λ x, p x = true) l → drop_while p l = [].
Proof. induction 1 as [|x l Hx _ IH]; simpl; [done|]. by rewrite Hx. Qed.

Lemma drop_while_keeps {A} (p : A → bool) (l k : list A) :
  drop_while p l ≠ [] → drop_while p (l ++ k) = drop_while p l ++ k.
Proof.
  induction l as [|x l IH]; simpl; [done|].
  destruct (p x); [exact IH|done].
Qed.

Lemma drop_while_idem {A} (p : A → bool) (l : list A) :
  drop_while p (drop_while p l) = drop_while p l.
Proof.
  induction l as [|x l IH]; simpl; [done|].
  destruct (p x) eqn:Hx; [exact IH|]. simpl. by rewrite Hx.
Qed.

Lemma trimStart_ws (a s : jsstring) :
  Forall (λ c, is_ws c = true) a → trimStart (a ++ s) = trimStart s.
Proof. apply drop_while_app. Qed.

Lemma trimEnd_ws (s b : jsstring) :
  Forall (λ c, is_ws c = true) b → trimEnd (s ++ b) = trimEnd s.
Proof.
  intros Hb. unfold trimEnd. rewrite reverse_app.
  rewrite drop_while_app; [done|]. by apply Forall_reverse.
Qed.

Lemma trimEnd_all (b : jsstring) :
  Forall (λ c, is_ws c = true) b → trimEnd b = [].
Proof.
  intros Hb. unfold trimEnd. rewrite drop_while_all; [done|].
  by apply Forall_reverse.
Qed.

(** White space around a string does not change what [trim] returns. *)
Lemma trim_ws (a s b : jsstring) :
  Forall (λ c, is_ws c = true) a →
  Forall (λ c, is_ws c = true) b →
  trim (a ++ s ++ b) = trim s.
Proof.
  intros Ha Hb. unfold trim. rewrite trimStart_ws by done.
  unfold trimStart. destruct (drop_while is_ws s) as [|c t] eqn:Hs.
  - assert (drop_while is_ws (s ++ b) = []) as ->; [|done].
    clear Ha. induction s as [|x s IH]; simpl in *.
    + by apply drop_while_all.
    + destruct (is_ws x); [by apply IH|done].
  - rewrite drop_while_keeps by by rewrite Hs.
    rewrite Hs. by apply trimEnd_ws.
Qed.

Lemma trimStart_head (s : jsstring) c t :
  trimStart s = c :: t → is_ws c = false.
Proof. apply drop_while_head. Qed.

Lemma drop_while_nil {A} (p : A → bool) (l : list A) :
  drop_while p l = [] → Forall (λ x, p x = true) l.
Proof.
  induction l as [|x l IH]; simpl; [done|].
  destruct (p x) eqn:Hx; [|done]. intros H. constructor; auto.
Qed.

(** Dropping at the end keeps a first unit that is not dropped. *)
Lemma drop_end_head {A} (p : A → bool) c (u : list A) :
  p c = false →
  ∃ w, reverse (drop_while p (reverse (c :: u))) = c :: w.
Proof.
  intros Hc. rewrite reverse_cons.
  destruct (drop_while p (reverse u)) as [|d x] eqn:Hd.
  - apply drop_while_nil in Hd. rewrite drop_while_app by done.
    simpl. rewrite Hc. by exists [].
  - rewrite drop_while_keeps by by rewrite Hd.
    rewrite Hd, reverse_snoc. eauto.
Qed.

(** Trimming twice is trimming once. *)
Lemma trim_idem (s : jsstring) : trim (trim s) = trim s.
Proof.
  unfold trim at 2 3.
  assert (trimStart (trimEnd (trimStart s)) = trimEnd (trimStart s)) as Hstart.
  { unfold trimStart at 2 3.
    destruct (drop_while is_ws s) as [|c u] eqn:Hs; [done|].
    apply drop_while_head in Hs.
    destruct (drop_end_head is_ws c u Hs) as [w Hw].
    unfold trimEnd. rewrite Hw. unfold trimStart. simpl. by rewrite Hs. }
  unfold trim. rewrite Hstart. unfold trimEnd at 1.
  unfold trimEnd. by rewrite reverse_involutive, drop_while_idem.
Qed.

End TrimFacts.

(** ** The structured-event parser: padding and error events *)

Module CliParserLines.
Import CliParser TrimFacts.

Section Parse.
Variable JSON_parse : jsstring → option JSON.

(** White space (blanks, tabs, line ends) around a line does not change
    the event it parses to. *)
Theorem parseCLILine_ignores_padding (now : N) (a line b : jsstring) :
  Forall (λ c, is_ws c = true) a →
  Forall (λ c, is_ws c = true) b →
  parseCLILine JSON_parse now (a ++ line ++ b)
  = parseCLILine JSON_parse now line.
Proof. intros Ha Hb. unfold parseCLILine. by rewrite trim_ws. Qed.

Lemma or_default_truthy_result v d :
  truthy (Some d) = true → truthy (Some (or_default v d)) = true.
Proof.
  intros Hd. unfold or_default. destruct v as [j|]; [|done].
  by destruct (truthy (Some j)) eqn:Hj.
Qed.

(** X1.  An error event always carries a content, and a truthy one: the
    [message] of the source when that is truthy, else its [error] field
    when that is truthy, else the text [Unknown error]; no other JSON
    line yields an error event. *)
Theorem error_event_has_content (now : N) (line : jsstring) ev :
  parseCLILine JSON_parse now line = Some ev →
  type ev = error →
  ∃ j c, JSON_parse (trim line) = Some j
    ∧ is_str (get (Some j) (lit "type")) (lit "error") = true
    ∧ content ev = Some c
    ∧ truthy (Some c) = true
    ∧ (truthy (get (Some j) (lit "message")) = true →
       get (Some j) (lit "message") = Some c)
    ∧ (truthy (get (Some j) (lit "message")) = false →
       truthy (get (Some j) (lit "error")) = true →
       get (Some j) (lit "error") = Some c)
    ∧ (truthy (get (Some j) (lit "message")) = false →
       truthy (get (Some j) (lit "error")) = false →
       c = JStr (lit "Unknown error")).
Proof.
  unfold parseCLILine.
  destruct (str_eqb (trim line) []); [done|].
  destruct (negb (startsWith (lit "{") (trim line))).
  { destruct (_ || _); [|done]. by intros [= <-]. }
  destruct (JSON_parse (trim line)) as [j|]; [|done].
  intros Hev Hty. exists j.
  assert (j ≠ JNull) as Hnull by (intros ->; done).
  revert Hev.
  assert (∀ k (x : option CLIEvent),
            match j with JNull => None | _ => k j end = x →
            k j = x) as Hj by (intros k x; by destruct j).
  set (ty := get (Some j) (lit "type")).
  intros Hev.
  assert (is_str ty (lit "error") = true ∧
          content ev = Some (or_default
                          (or_else (get (Some j) (lit "message"))
                                   (get (Some j) (lit "error")))
                          (JStr (lit "Unknown error")))) as [Hstr Hc].
  { destruct j; try done; cbn beta iota in Hev; fold ty in Hev;
      repeat lazymatch type of Hev with
        | (if ?b then _ else _) = _ => destruct b eqn:?
        end;
      try (injection Hev as <-; cbn in Hty; try discriminate Hty);
      try discriminate Hev; try done;
      repeat match goal with
        | H : context [if ?b then _ else _] |- _ => destruct b; cbn in Hty;
            try discriminate Hty
        end. }
  eexists. split; [done|]. split; [exact Hstr|]. split; [exact Hc|].
  split; [by apply or_default_truthy_result|].
  unfold or_else, or_default.
  destruct (get (Some j) (lit "message")) as [m|] eqn:Em;
    destruct (get (Some j) (lit "error")) as [e|] eqn:Ee;
    split_and!; intros Hm; try intros He;
    rewrite ?Hm, ?He in *; try done.
Qed.

End Parse.

Definition error_object : JSON := JObj [(lit "type", JStr (lit "error"))].

Lemma parseCLILine_ignores_padding_witness :
  parseCLILine (λ _, Some error_object) 0 (lit "  " ++ lit "{}" ++ [LF])
  = parseCLILine (λ _, Some error_object) 0 (lit "{}").
Proof.
  apply parseCLILine_ignores_padding; by vm_compute; repeat constructor.
Defined.

Definition unknown_error_event : CLIEvent :=
  {| type := error; timestamp := DateNow 0; sessionId := None;
     model := None; role := None;
     content := Some (JStr (lit "Unknown error"));
     isStreaming := None; toolName := None; toolArgs := None;
     toolResult := None; stats := None; raw := None |}.

Lemma error_event_has_content_witness :
  ∃ j c, Some error_object = Some j
    ∧ is_str (get (Some j) (lit "type")) (lit "error") = true
    ∧ content unknown_error_event = Some c
    ∧ truthy (Some c) = true
    ∧ (truthy (get (Some j) (lit "message")) = true →
       get (Some j) (lit "message") = Some c)
    ∧ (truthy (get (Some j) (lit "message")) = false →
       truthy (get (Some j) (lit "error")) = true →
       get (Some j) (lit "error") = Some c)
    ∧ (truthy (get (Some j) (lit "message")) = false →
       truthy (get (Some j) (lit "error")) = false →
       c = JStr (lit "Unknown error")).
Proof.
  apply (error_event_has_content (λ _, Some error_object) 0 (lit "{}")
           unknown_error_event); by vm_compute.
Defined.

End CliParserLines.

(** ** Stripping escape sequences *)

Module StripFacts.
Import TerminalParser JSFacts TrimFacts.

Lemma ansi_match_head (c : N) (s : jsstring) :
  c ≠ ESC → ansi_match (c :: s) = None.
Proof.
  intros Hc. unfold ansi_match. destruct s as [|b rest]; [done|].
  apply N.eqb_neq in Hc. by rewrite Hc.
Qed.

(** Text without the escape character is left as it is. *)
Lemma strip_no_escape (s : jsstring) : ESC ∉ s → stripAnsi s = s.
Proof.
  unfold stripAnsi. induction s as [|c s IH]; intros Hs; [done|].
  apply not_elem_of_cons in Hs as [Hc Hs].
  cbn [strip_from]. rewrite ansi_match_head by done. by rewrite IH.
Qed.

Lemma strip_from_sublist (skip : nat) (s : jsstring) :
  strip_from skip s `sublist_of` s.
Proof.
  revert skip. induction s as [|c s IH]; intros skip; [done|].
  cbn [strip_from]. destruct skip as [|k].
  - destruct (ansi_match (c :: s)) as [n|].
    + by apply sublist_cons.
    + by apply sublist_skip.
  - by apply sublist_cons.
Qed.

(** X2.  [stripAnsi] only deletes: what it returns is the text with some
    units left out, in the same order, so it is never longer; and text
    without the escape character comes back unchanged. *)
Theorem stripAnsi_only_deletes (text : jsstring) :
  stripAnsi text `sublist_of` text
  ∧ length (stripAnsi text) ≤ length text
  ∧ (ESC ∉ text → stripAnsi text = text).
Proof.
  split; [apply strip_from_sublist|]. split.
  - apply sublist_length, strip_from_sublist.
  - apply strip_no_escape.
Qed.

Lemma take_while_params (params : jsstring) c rest :
  Forall (λ x, is_param x = true) params →
  is_param c = false →
  take_while is_param (params ++ c :: rest) = params.
Proof.
  intros Hp Hc. induction Hp as [|x params Hx _ IH]; simpl.
  - by rewrite Hc.
  - by rewrite Hx, IH.
Qed.

Lemma letter_not_param c : is_letter c = true → is_param c = false.
Proof.
  unfold is_letter, is_param.
  rewrite !orb_true_iff, !andb_true_iff, !N.leb_le.
  intros H. apply orb_false_iff. rewrite andb_false_iff, !N.leb_gt, N.eqb_neq.
  lia.
Qed.

Lemma strip_from_skip (l rest : jsstring) :
  strip_from (length l) (l ++ rest) = strip_from 0 rest.
Proof. induction l as [|c l IH]; [done|]. exact IH. Qed.

Lemma strip_sequence (params : jsstring) c (rest : jsstring) :
  Forall (λ x, is_param x = true) params →
  is_letter c = true →
  stripAnsi (ESC :: 91%N :: params ++ c :: rest) = stripAnsi rest.
Proof.
  intros Hp Hc. unfold stripAnsi. cbn [strip_from ansi_match].
  rewrite !N.eqb_refl. cbn [andb].
  rewrite take_while_params by auto using letter_not_param.
  rewrite drop_app_length, Hc. cbn [pred Nat.add strip_from].
  replace (S (length params)) with (length (params ++ [c]))
    by (rewrite length_app; simpl; lia).
  replace (params ++ c :: rest) with ((params ++ [c]) ++ rest)
    by (by rewrite <- app_assoc).
  apply strip_from_skip.
Qed.

Lemma strip_app_plain (a s : jsstring) :
  ESC ∉ a → stripAnsi (a ++ s) = a ++ stripAnsi s.
Proof.
  unfold stripAnsi. induction a as [|c a IH]; intros Ha; [done|].
  apply not_elem_of_cons in Ha as [Hc Ha].
  cbn [app strip_from]. rewrite ansi_match_head by done. by rewrite IH.
Qed.

(** X3.  A control sequence (escape, bracket, digits and semicolons, one
    letter) between plain text is removed whole, and stripping goes on
    behind it. *)
Theorem stripAnsi_removes_sequence (before params : jsstring) (c : N)
    (after : jsstring) :
  ESC ∉ before →
  Forall (λ x, is_param x = true) params →
  is_letter c = true →
  stripAnsi (before ++ ESC :: 91%N :: params ++ c :: after)
  = before ++ stripAnsi after.
Proof.
  intros Hb Hp Hc. rewrite strip_app_plain by done.
  by rewrite strip_sequence.
Qed.

(** Red [ok], then reset. *)
Lemma stripAnsi_removes_sequence_witness :
  stripAnsi (lit "a" ++ ESC :: 91%N :: lit "1;31" ++ 109%N :: lit "ok")
  = lit "a" ++ stripAnsi (lit "ok").
Proof.
  apply stripAnsi_removes_sequence;
    [apply (bool_decide_unpack _); by vm_compute
    |apply (bool_decide_unpack _); by vm_compute
    |by vm_compute].
Defined.

End StripFacts.

(** ** The raw-terminal message accumulator *)

Module TerminalStreamFacts.
Import TerminalParser TerminalStream.

Section Facts.
Variable toLowerCase : jsstring → jsstring.

Abbreviation isThinkingIndicator := (isThinkingIndicator toLowerCase).
Abbreviation addChunk := (addChunk toLowerCase).
Abbreviation addChunks := (addChunks toLowerCase).

(** The text the chunks contribute: the stripped chunks that are not
    thinking indicators. *)
Definition said (chunks : list jsstring) : jsstring :=
  concat (map stripAnsi
            (filter (λ c, isThinkingIndicator c = false) chunks)).

Lemma addChunks_buffer now chunks (a : TerminalMessageAccumulator) :
  Forall (λ c, isPromptLine c = false) chunks →
  buffer (addChunks now chunks a).2 = buffer a ++ said chunks
  ∧ lastPromptTime (addChunks now chunks a).2 = lastPromptTime a
  ∧ Forall (λ r, isComplete r = false) (addChunks now chunks a).1.
Proof.
  intros Hc. revert a.
  induction Hc as [|c cs Hp _ IH]; intros a.
  - unfold said. cbn. by rewrite app_nil_r.
  - cbn [TerminalStream.addChunks]. unfold TerminalStream.addChunk.
    rewrite Hp. unfold said. rewrite filter_cons.
    destruct (TerminalStream.isThinkingIndicator toLowerCase c) eqn:Ht.
    + destruct (TerminalStream.addChunks toLowerCase now cs a)
        as [rs a2] eqn:E.
      specialize (IH a). rewrite E in IH. destruct IH as (IH1 & IH2 & IH3).
      cbn [fst snd] in *. rewrite decide_False by done.
      split; [exact IH1|]. split; [exact IH2|]. by constructor.
    + match goal with |- context [TerminalStream.addChunks _ now cs ?x] =>
        destruct (TerminalStream.addChunks toLowerCase now cs x)
          as [rs a2] eqn:E; specialize (IH x) end.
      rewrite E in IH. destruct IH as (IH1 & IH2 & IH3). cbn [fst snd] in *.
      rewrite decide_True by done. cbn [map concat].
      split; [rewrite IH1; cbn [buffer]; by rewrite <- app_assoc|].
      split; [exact IH2|].
      by constructor.
Qed.

(** X4.  A turn: chunks that are not prompt lines, then a prompt line.  No
    chunk before the prompt completes; the prompt returns the trimmed
    concatenation of the stripped chunks, thinking indicators left out,
    as one complete message, and leaves the accumulator empty. *)
Theorem prompt_completes_turn now (chunks : list jsstring) (prompt : jsstring) :
  Forall (λ c, isPromptLine c = false) chunks →
  isPromptLine prompt = true →
  let '(results, a) := addChunks now chunks new_accumulator in
  let '(r, a') := addChunk now prompt a in
  Forall (λ r, isComplete r = false) results
  ∧ content r = trim (said chunks)
  ∧ isComplete r = true
  ∧ getBuffer a' = []
  ∧ isActive a' = false
  ∧ lastPromptTime a' = now.
Proof.
  intros Hc Hp.
  pose proof (addChunks_buffer now chunks new_accumulator Hc) as (Hb & _ & Hr).
  destruct (TerminalStream.addChunks toLowerCase now chunks new_accumulator)
    as [results a] eqn:E.
  cbn [fst snd] in Hb, Hr. unfold TerminalStream.addChunk. rewrite Hp.
  cbn. by rewrite Hb.
Qed.

End Facts.

(** Three chunks, one of them coloured, then the prompt. *)
Lemma prompt_completes_turn_witness :
  content
    (TerminalStream.addChunk (λ s, s) 5 (lit "> ")
       (TerminalStream.addChunks (λ s, s) 5
          [lit "Hello "; ESC :: 91%N :: lit "1m" ++ lit "world"; lit "!  "]
          new_accumulator).2).1
  = lit "Hello world!"
  ∧ getBuffer
      (TerminalStream.addChunk (λ s, s) 5 (lit "> ")
         (TerminalStream.addChunks (λ s, s) 5
            [lit "Hello "; ESC :: 91%N :: lit "1m" ++ lit "world"; lit "!  "]
            new_accumulator).2).2
    = [].
Proof.
  pose proof (prompt_completes_turn (λ s, s) 5
    [lit "Hello "; ESC :: 91%N :: lit "1m" ++ lit "world"; lit "!  "]
    (lit "> ")) as H.
  destruct (TerminalStream.addChunks _ _ _ _) as [results a].
  cbn [snd]. destruct (TerminalStream.addChunk _ _ _ _) as [r a'].
  cbn [fst snd]. destruct H as (_ & Hc & _ & Hb & _).
  - apply (bool_decide_unpack _). by vm_compute.
  - by vm_compute.
  - split; [|exact Hb]. rewrite Hc. by vm_compute.
Defined.

End TerminalStreamFacts.

(** ** Tool usage and parsed chunks *)

Module ChunkFacts.
Import TerminalParser TerminalStream StripFacts.

(** *** What the groups of a match hold *)

Lemma star_inv {R} cls (k : jsstring → option R) s r :
  star cls k s = Some r →
  ∃ w rest, s = w ++ rest ∧ k rest = Some r.
Proof.
  induction s as [|c s IH]; cbn [star].
  - intros Hk. by exists [], [].
  - destruct (cls c).
    + destruct (star cls k s) as [r'|] eqn:Hs.
      * intros [= <-]. destruct (IH eq_refl) as (w & rest & -> & Hk).
        by exists (c :: w), rest.
      * intros Hk. by exists [], (c :: s).
    + intros Hk. by exists [], (c :: s).
Qed.

Lemma star_group_inv {R} cls (k : jsstring → jsstring → option R) s :
  ∀ acc r, star_group cls k acc s = Some r →
  ∃ w rest, s = w ++ rest ∧ Forall (λ c, cls c = true) w
            ∧ k (acc ++ w) rest = Some r.
Proof.
  induction s as [|c s IH]; intros acc r; cbn [star_group].
  - intros Hk. exists [], [].
    split; [done|]. split; [constructor|by rewrite app_nil_r].
  - destruct (cls c) eqn:Hc.
    + destruct (star_group cls k (acc ++ [c]) s) as [r'|] eqn:Hs.
      * intros [= <-]. destruct (IH _ _ Hs) as (w & rest & -> & Hw & Hk).
        exists (c :: w), rest. split; [done|]. split; [by constructor|].
        by rewrite <- app_assoc in Hk.
      * intros Hk. exists [], (c :: s).
        split; [done|]. split; [constructor|by rewrite app_nil_r].
    + intros Hk. exists [], (c :: s).
      split; [done|]. split; [constructor|by rewrite app_nil_r].
Qed.

Lemma plus_group_inv {R} cls (k : jsstring → jsstring → option R) s r :
  plus_group cls k s = Some r →
  ∃ w rest, s = w ++ rest ∧ w ≠ [] ∧ Forall (λ c, cls c = true) w
            ∧ k w rest = Some r.
Proof.
  unfold plus_group. destruct s as [|c s]; [done|].
  destruct (cls c) eqn:Hc; [|done].
  intros (w & rest & -> & Hw & Hk)%star_group_inv.
  exists (c :: w), rest. split; [done|]. split; [done|].
  split; [by constructor|done].
Qed.

Lemma search_inv {R} (re : jsstring → option R) s r :
  search re s = Some r → ∃ before rest, s = before ++ rest ∧ re rest = Some r.
Proof.
  induction s as [|c s IH]; cbn [search].
  - destruct (re []) eqn:H; [|done]. intros [= <-]. by exists [], [].
  - destruct (re (c :: s)) eqn:H.
    + intros [= <-]. by exists [], (c :: s).
    + intros (before & rest & -> & Hr)%IH. by exists (c :: before), rest.
Qed.

Lemma word_is_dot c : is_word c = true → is_dot c = true.
Proof.
  unfold is_word, is_dot, is_letter.
  rewrite !orb_true_iff, !andb_true_iff, !N.leb_le, N.eqb_eq.
  intros H. apply negb_true_iff, bool_decide_eq_false.
  rewrite !elem_of_cons, elem_of_nil. lia.
Qed.

Lemma word_not_ws c : is_word c = true → is_ws c = false.
Proof.
  unfold is_word, is_ws, is_letter.
  rewrite !orb_true_iff, !andb_true_iff, !N.leb_le, N.eqb_eq.
  intros H. apply orb_false_iff. split.
  - apply bool_decide_eq_false. rewrite !elem_of_cons, elem_of_nil. lia.
  - apply andb_false_iff. rewrite !N.leb_gt. lia.
Qed.

(** The groups of a match of one of the four patterns: the first group
    is never empty and holds no line terminator; the second group, when
    there is one, is of that kind too and the first is then a word. *)
Definition groups_ok (g : Groups) : Prop :=
  g.1 ≠ [] ∧ Forall (λ c, is_dot c = true) g.1
  ∧ match g.2 with
    | Some a => a ≠ [] ∧ Forall (λ c, is_dot c = true) a
                ∧ Forall (λ c, is_word c = true) g.1
    | None => True
    end.

Lemma word_group_ok s g :
  star is_ws (plus_group is_word (λ w _, Some (w, None))) s = Some g →
  groups_ok g.
Proof.
  intros (ws & rest & -> & (w & rest' & -> & Hne & Hw & [= <-])%plus_group_inv)
           %star_inv.
  split; [done|]. split; [|done].
  eapply Forall_impl; [exact Hw|]. apply word_is_dot.
Qed.

Lemma dot_group_ok s g :
  star is_ws (plus_group is_dot (λ a _, Some (a, None))) s = Some g →
  groups_ok g.
Proof.
  intros (ws & rest & -> & (w & rest' & -> & Hne & Hw & [= <-])%plus_group_inv)
           %star_inv.
  by split.
Qed.

Lemma patterns_ok : Forall (λ re, ∀ s g, re s = Some g → groups_ok g) patterns.
Proof.
  unfold patterns.
  apply Forall_cons_2; [|apply Forall_cons_2; [|apply Forall_cons_2;
    [|apply Forall_cons_2; [|apply Forall_nil_2]]]]; intros s g.
  - unfold re_using_tool. destruct (starts_ci _ s); [|done]. apply word_group_ok.
  - unfold re_running. destruct (starts_ci _ s); [|done]. apply dot_group_ok.
  - unfold re_executing. destruct (starts_ci _ s); [|done]. apply dot_group_ok.
  - unfold re_bracketed. destruct s as [|c s]; [done|].
    destruct (c =? 91)%N; [|done].
    intros (w & rest & -> & Hne & Hw & Hk)%plus_group_inv.
    destruct rest as [|d rest]; [done|]. destruct (d =? 93)%N; [|done].
    apply star_inv in Hk as (ws & rest' & -> & Hk).
    apply plus_group_inv in Hk as (a & rest'' & -> & Hane & Ha & [= <-]).
    split; [done|]. split; [|done].
    eapply Forall_impl; [exact Hw|]. apply word_is_dot.
Qed.

(** X5.  Whatever the text, a detected tool has a name: the name is not
    empty and holds no line terminator.  An action is reported only with
    a bracketed tag: the name is then a word, and the action holds no
    line terminator either. *)
Theorem detected_tool_has_a_name (text : jsstring) t :
  detectToolUsage text = Some t →
  tool t ≠ []
  ∧ Forall (λ c, is_dot c = true) (tool t)
  ∧ Forall (λ c, is_dot c = true) (action t)
  ∧ (action t ≠ [] → Forall (λ c, is_word c = true) (tool t)).
Proof.
  unfold detectToolUsage. generalize (stripAnsi text). intros clean.
  pose proof patterns_ok as Hall. revert Hall.
  induction patterns as [|re ps IH]; intros Hall; [done|].
  apply Forall_cons in Hall as [Hre Hall]. cbn [first_match].
  destruct (search re clean) as [[g1 g2]|] eqn:Hs; [|by apply IH].
  apply search_inv in Hs as (before & rest & _ & Hm).
  destruct (Hre _ _ Hm) as (Hne & Hdot & H2). cbn [fst snd] in *.
  intros [= <-]. cbn [tool action]. split; [done|]. split; [done|].
  destruct g2 as [a|]; [|by split].
  destruct H2 as (Hane & Ha & Hw). by split.
Qed.

(** *** The first pattern *)

Lemma starts_ci_app (p q rest : jsstring) :
  map canon q = map canon p → starts_ci p (q ++ rest) = Some rest.
Proof.
  revert q. induction p as [|c p IH]; intros [|d q]; try done.
  cbn [map]. intros [= Hd Hq]. cbn [app starts_ci].
  by rewrite Hd, N.eqb_refl, IH.
Qed.

Lemma star_skips {R} cls (k : jsstring → option R) (ws s : jsstring) r :
  Forall (λ c, cls c = true) ws →
  k s = Some r →
  match s with c :: _ => cls c = false | [] => True end →
  star cls k (ws ++ s) = Some r.
Proof.
  intros Hws Hk Hs. induction Hws as [|c ws Hc _ IH].
  - cbn [app]. destruct s as [|c s]; [done|]. cbn [star]. by rewrite Hs.
  - cbn [app star]. by rewrite Hc, IH.
Qed.

Lemma star_group_takes {R} cls (k : jsstring → jsstring → option R)
    (w rest : jsstring) :
  Forall (λ c, cls c = true) w →
  match rest with c :: _ => cls c = false | [] => True end →
  ∀ acc r, k (acc ++ w) rest = Some r →
  star_group cls k acc (w ++ rest) = Some r.
Proof.
  intros Hw Hrest. induction Hw as [|c w Hc _ IH]; intros acc r Hk.
  - rewrite app_nil_r in Hk. cbn [app].
    destruct rest as [|c rest]; [done|]. cbn [star_group]. by rewrite Hrest.
  - cbn [app star_group]. rewrite Hc.
    rewrite (IH (acc ++ [c]) r); [done|]. by rewrite <- app_assoc.
Qed.

Lemma plus_group_takes {R} cls (k : jsstring → jsstring → option R)
    (w rest : jsstring) r :
  w ≠ [] →
  Forall (λ c, cls c = true) w →
  match rest with c :: _ => cls c = false | [] => True end →
  k w rest = Some r →
  plus_group cls k (w ++ rest) = Some r.
Proof.
  intros Hne Hw Hrest Hk. destruct w as [|c w]; [done|].
  apply Forall_cons in Hw as [Hc Hw]. cbn [app plus_group]. rewrite Hc.
  by apply star_group_takes.
Qed.

Lemma search_here {R} (re : jsstring → option R) s r :
  re s = Some r → search re s = Some r.
Proof. intros H. destruct s; cbn [search]; by rewrite H. Qed.

(** X6.  A text that begins with [Using tool:], in whatever letter case,
    then white space, then a word, names that word as the tool and
    reports no action, whatever follows the word. *)
Theorem using_tool_names_the_word (label ws word rest : jsstring) :
  map canon label = map canon (lit "Using tool:") →
  Forall (λ c, is_ws c = true) ws →
  word ≠ [] →
  Forall (λ c, is_word c = true) word →
  match rest with c :: _ => is_word c = false | [] => True end →
  ESC ∉ label ++ ws ++ word ++ rest →
  detectToolUsage (label ++ ws ++ word ++ rest)
  = Some {| tool := word; action := [] |}.
Proof.
  intros Hlabel Hws Hne Hword Hrest Hesc. unfold detectToolUsage.
  rewrite strip_no_escape by done. unfold patterns. cbn [first_match].
  rewrite (search_here re_using_tool _ (word, None)); [done|].
  unfold re_using_tool. rewrite starts_ci_app by done.
  apply star_skips; [done| |].
  - by apply plus_group_takes.
  - destruct word as [|c word]; [done|]. cbn.
    apply Forall_cons in Hword as [Hc _]. by apply word_not_ws.
Qed.

Lemma using_tool_names_the_word_witness :
  detectToolUsage (lit "USING TOOL:" ++ lit "  " ++ lit "read_file"
                   ++ lit " (src/main.ts)")
  = Some {| tool := lit "read_file"; action := [] |}.
Proof.
  apply using_tool_names_the_word;
    [by vm_compute
    |apply (bool_decide_unpack _); by vm_compute
    |by vm_compute
    |apply (bool_decide_unpack _); by vm_compute
    |by vm_compute
    |apply (bool_decide_unpack _); by vm_compute].
Defined.

Definition tool_line : jsstring := lit "[shell] npm test".

Lemma detected_tool_has_a_name_witness :
  lit "shell" ≠ []
  ∧ Forall (λ c, is_dot c = true) (lit "shell")
  ∧ Forall (λ c, is_dot c = true) (lit "npm test")
  ∧ (lit "npm test" ≠ [] → Forall (λ c, is_word c = true) (lit "shell")).
Proof.
  apply (detected_tool_has_a_name tool_line
           {| tool := lit "shell"; action := lit "npm test" |}).
  by vm_compute.
Defined.

(** *** Chunks *)

Section Chunks.
Variable toLowerCase : jsstring → jsstring.

Abbreviation parse_lines := (parse_lines toLowerCase).
Abbreviation parseTerminalChunk := (parseTerminalChunk toLowerCase).

Definition is_fence (c : ParsedChunk) : bool :=
  match chunk_type c with
  | code_start | code_end => true
  | _ => false
  end.

(** Opening and closing fences in turn, [n] of them, beginning with a
    closing one if [inCodeBlock]. *)
Fixpoint in_turn (inCodeBlock : bool) (n : nat) : list ChunkType :=
  match n with
  | O => []
  | S n' =>
      (if inCodeBlock then code_end else code_start)
      :: in_turn (negb inCodeBlock) n'
  end.

Lemma parse_lines_fences (lines : list jsstring) : ∀ inCodeBlock,
  map chunk_type (List.filter is_fence (parse_lines inCodeBlock lines))
  = in_turn inCodeBlock
      (length (List.filter is_fence (parse_lines inCodeBlock lines)))
  ∧ List.filter (λ c, negb (is_fence c)) (parse_lines inCodeBlock lines)
    = List.filter (λ c, negb (is_fence c)) (parse_lines false lines)
  ∧ length (parse_lines inCodeBlock lines) ≤ length lines.
Proof.
  induction lines as [|line lines IH]; intros b; [done|].
  cbn [TerminalStream.parse_lines length].
  destruct (IH true) as (Ht1 & Ht2 & Ht3).
  destruct (IH false) as (Hf1 & _ & Hf3).
  destruct (IH b) as (Hb1 & Hb2 & Hb3).
  destruct (startsWith _ _).
  { destruct b; cbn [List.filter is_fence chunk_type negb map length in_turn].
    - rewrite Hf1 at 1. split; [done|]. split; [done|]. lia.
    - rewrite Ht1 at 1. split; [done|]. split; [done|]. lia. }
  destruct (isPromptLine line);
    [cbn [List.filter is_fence chunk_type negb map length];
     split; [done|]; split; [by rewrite Hb2|lia]|].
  destruct (isThinkingIndicator toLowerCase line);
    [cbn [List.filter is_fence chunk_type negb map length];
     split; [done|]; split; [by rewrite Hb2|lia]|].
  destruct (detectToolUsage line);
    [cbn [List.filter is_fence chunk_type negb map length];
     split; [done|]; split; [by rewrite Hb2|lia]|].
  destruct (negb _);
    [cbn [List.filter is_fence chunk_type negb map length];
     split; [done|]; split; [by rewrite Hb2|lia]|].
  split; [done|]. split; [done|]. lia.
Qed.

(** X7.  Fences pair up.  Among the chunks of a text the fence chunks open
    and close in turn, beginning with an opening; a text yields at most
    one chunk per line.  The code-block flag does nothing else: the
    lines between two fences are classified like any other line. *)
Theorem fences_open_and_close_in_turn (chunk : jsstring) :
  map chunk_type (List.filter is_fence (parseTerminalChunk chunk))
  = in_turn false (length (List.filter is_fence (parseTerminalChunk chunk)))
  ∧ length (parseTerminalChunk chunk) ≤ length (split LF chunk)
  ∧ ∀ lines,
      List.filter (λ c, negb (is_fence c)) (parse_lines true lines)
      = List.filter (λ c, negb (is_fence c)) (parse_lines false lines).
Proof.
  unfold TerminalStream.parseTerminalChunk.
  destruct (parse_lines_fences (split LF chunk) false) as (H1 & _ & H3).
  split; [exact H1|]. split; [exact H3|].
  intros lines. by destruct (parse_lines_fences lines true) as (_ & H2 & _).
Qed.

(** What a chunk of each type carries. *)
Definition well_formed (c : ParsedChunk) : Prop :=
  match chunk_type c with
  | code_start =>
      chunk_content c = [] ∧ chunk_tool c = None
      ∧ ∃ lang, language c = Some lang ∧ trim lang = lang
  | code_end => chunk_content c = [] ∧ chunk_tool c = None ∧ language c = None
  | prompt_chunk =>
      (trim (chunk_content c) = [GT] ∨ trim (chunk_content c) = [HEAVY_GT])
      ∧ chunk_tool c = None ∧ language c = None
  | thinking_chunk => chunk_tool c = None ∧ language c = None
  | tool_chunk =>
      language c = None
      ∧ ∃ name, chunk_tool c = Some name ∧ name ≠ []
                ∧ Forall (λ u, is_dot u = true) name
  | text_chunk =>
      trim (chunk_content c) ≠ [] ∧ chunk_tool c = None ∧ language c = None
  end.

(** X8.  Every chunk is well formed: a fence has no content and an opening
    fence a trimmed language tag (possibly empty); a prompt is one glyph
    once trimmed; a tool chunk names its tool; a text chunk is never
    blank. *)
Theorem chunks_are_well_formed (chunk : jsstring) :
  Forall well_formed (parseTerminalChunk chunk).
Proof.
  unfold TerminalStream.parseTerminalChunk. generalize (split LF chunk).
  intros lines. generalize false.
  induction lines as [|line lines IH]; intros b; [constructor|].
  cbn [TerminalStream.parse_lines].
  destruct (startsWith _ _).
  { destruct b; constructor; try apply IH; unfold well_formed; cbn.
    - done.
    - split; [done|]. split; [done|]. eexists. split; [done|].
      apply TrimFacts.trim_idem. }
  destruct (isPromptLine line) eqn:Hp.
  { constructor; [|apply IH]. unfold well_formed. cbn.
    apply TerminalParserFacts.isPromptLine_spec in Hp. done. }
  destruct (isThinkingIndicator toLowerCase line).
  { constructor; [|apply IH]. by unfold well_formed. }
  destruct (detectToolUsage line) as [t|] eqn:Ht.
  { constructor; [|apply IH]. unfold well_formed. cbn. split; [done|].
    exists (tool t).
    pose proof patterns_ok as Hall. revert Ht. unfold detectToolUsage.
    generalize (stripAnsi line). intros clean. revert Hall.
    induction patterns as [|re ps IHp]; intros Hall; [done|].
    apply Forall_cons in Hall as [Hre Hall]. cbn [first_match].
    destruct (search re clean) as [[g1 g2]|] eqn:Hs; [|by apply IHp].
    apply search_inv in Hs as (before & rest & _ & Hm).
    destruct (Hre _ _ Hm) as (Hne & Hdot & _). cbn [fst] in *.
    by intros [= <-]. }
  destruct (str_eqb (trim (stripAnsi line)) []) eqn:Hb; cbn [negb].
  - apply IH.
  - constructor; [|apply IH]. unfold well_formed. cbn.
    unfold str_eqb in Hb. by apply bool_decide_eq_false in Hb.
Qed.

End Chunks.

End ChunkFacts.

(** ** The state manager: token, persistence, recent projects *)

Module StatePersistence.
Import State StateFacts JSFacts TrimFacts.

Lemma trim_clean (s : jsstring) :
  Forall (λ c, is_ws c = false) s → trim s = s.
Proof.
  intros Hs. unfold trim, trimStart, trimEnd.
  assert (∀ l : jsstring, Forall (λ c, is_ws c = false) l →
            drop_while is_ws l = l) as Hdrop.
  { intros l Hl. destruct Hl as [|c l Hc _]; simpl; [done|]. by rewrite Hc. }
  rewrite (Hdrop s Hs), Hdrop by by apply Forall_reverse.
  apply reverse_involutive.
Qed.

Lemma generated_token_clean (uuid : jsstring) :
  Forall (λ c, is_ws c = false) uuid →
  trim (lit "ah_" ++ filter (λ c, c ≠ 45%N) uuid)
  = lit "ah_" ++ filter (λ c, c ≠ 45%N) uuid.
Proof.
  intros Hu. apply trim_clean, Forall_app. split.
  - apply (bool_decide_unpack _). by vm_compute.
  - apply Forall_forall. intros c Hc. apply list_elem_of_filter in Hc as [_ Hc].
    by apply (proj1 (Forall_forall _ _) Hu).
Qed.

(** The file system once [getAuthToken] has returned [token]: the
    directory is there and the token file holds a text that trims to the
    token. *)
Lemma getAuthToken_stored uuid (fs fs' : Fs) token :
  getAuthToken uuid fs = Ok token fs' →
  Forall (λ c, is_ws c = false) uuid →
  state_dir fs' = true
  ∧ ∃ data, auth_token_file fs' = Content data ∧ trim data = token.
Proof.
  intros Hrun Hu.
  destruct (getAuthToken_fs _ _ _ _ Hrun) as (_ & _ & Hd & Hcan & _).
  split; [exact Hd|].
  destruct (ensureStateDir_ok fs Hcan) as (fs1 & He & Hd1 & Hw1 & Ha1 & Hs1).
  unfold getAuthToken, bind at 1 in Hrun. rewrite He in Hrun.
  destruct (auth_token_file fs) as [| |data] eqn:Hf;
    do 2 (cbv beta iota delta [bind existsSync gets readFileSync
                               writeFileSync ret file] in Hrun;
          rewrite ?Ha1, ?Hw1 in Hrun).
  - destruct (writable fs); [|discriminate].
    injection Hrun as <- <-. eexists. split; [reflexivity|].
    by apply generated_token_clean.
  - discriminate.
  - injection Hrun as <- <-. exists data. by rewrite Ha1.
Qed.

Lemma getAuthToken_read uuid (fs : Fs) data :
  state_dir fs = true →
  auth_token_file fs = Content data →
  getAuthToken uuid fs = Ok (trim data) fs.
Proof.
  intros Hd Hf. unfold getAuthToken, bind at 1.
  rewrite (proj1 (ensureStateDir_same fs) Hd).
  do 2 (cbv beta iota delta [bind existsSync gets readFileSync ret file];
        rewrite ?Hf).
  reflexivity.
Qed.

Lemma getAuthToken_again uuid uuid' (fs fs' : Fs) token :
  Forall (λ c, is_ws c = false) uuid →
  getAuthToken uuid fs = Ok token fs' →
  getAuthToken uuid' fs' = Ok token fs'.
Proof.
  intros Hu Hrun.
  destruct (getAuthToken_stored _ _ _ _ Hrun Hu) as (Hd & data & Hf & <-).
  by apply getAuthToken_read.
Qed.

(** X9.  The token is generated once: after a call that returned a token,
    every later call returns the same token and leaves the file system
    as it is, whatever [uuidv4] would have produced. *)
Theorem auth_token_is_stable uuid uuid' (fs fs' : Fs) token :
  Forall (λ c, is_ws c = false) uuid →
  getAuthToken uuid fs = Ok token fs' →
  getAuthToken uuid' fs' = Ok token fs'
  ∧ state_dir fs' = true
  ∧ ∃ data, auth_token_file fs' = Content data ∧ trim data = token.
Proof.
  intros Hu Hrun. split; [by eapply getAuthToken_again|].
  by eapply getAuthToken_stored.
Qed.

(** X10.  The issued token is the one credential: [validateToken] accepts the
    string [getAuthToken] returned and nothing else, be it another
    string, a value of another type or no value. *)
Theorem validateToken_accepts_only_issued uuid uuid' (fs fs' : Fs) token
    (candidate : JSValue) :
  Forall (λ c, is_ws c = false) uuid →
  getAuthToken uuid fs = Ok token fs' →
  ∃ verdict, validateToken uuid' candidate fs' = Ok verdict fs'
    ∧ (verdict = true ↔ candidate = Some (JStr token)).
Proof.
  intros Hu Hrun. pose proof (getAuthToken_again uuid uuid' _ _ _ Hu Hrun) as H.
  unfold validateToken, bind. rewrite H. eexists. split; [reflexivity|].
  unfold is_str. destruct candidate as [[]|]; try (split; [done|congruence]).
  unfold str_eqb. rewrite bool_decide_eq_true. split; congruence.
Qed.

Definition empty_home : Fs :=
  {| state_dir := false; writable := true;
     auth_token_file := Missing; state_file := Missing |}.

Definition some_uuid : jsstring := lit "1b9d6bcd-bbfd-4b2d-9b5d-ab8dfbbd4bed".

Lemma some_uuid_clean : Forall (λ c, is_ws c = false) some_uuid.
Proof. apply (bool_decide_unpack _). by vm_compute. Qed.

Definition some_token : jsstring := lit "ah_1b9d6bcdbbfd4b2d9b5dab8dfbbd4bed".

Definition issued_home : Fs :=
  {| state_dir := true; writable := true;
     auth_token_file := Content some_token; state_file := Missing |}.

Lemma issue_token : getAuthToken some_uuid empty_home = Ok some_token issued_home.
Proof. by vm_compute. Qed.

Lemma auth_token_is_stable_witness :
  getAuthToken (lit "another") issued_home = Ok some_token issued_home.
Proof.
  exact (proj1 (auth_token_is_stable some_uuid (lit "another") empty_home
                  issued_home some_token some_uuid_clean issue_token)).
Defined.

Lemma validateToken_accepts_only_issued_witness :
  ∃ verdict,
    validateToken [] (Some (JStr (lit "ah_guess"))) issued_home
    = Ok verdict issued_home
    ∧ (verdict = true ↔ Some (JStr (lit "ah_guess")) = Some (JStr some_token)).
Proof.
  exact (validateToken_accepts_only_issued some_uuid [] empty_home
           issued_home some_token (Some (JStr (lit "ah_guess")))
           some_uuid_clean issue_token).
Defined.

(** *** Saving and loading *)

Lemma assoc_None_not_in {V} k (l : list (jsstring * V)) :
  assoc k l = None ↔ k ∉ l.*1.
Proof.
  induction l as [|[k' v] l IH]; simpl.
  - split; [intros _; apply not_elem_of_nil|done].
  - destruct (decide (k = k')) as [->|Hne].
    + split; [intros; discriminate|]. intros H. exfalso. apply H. by left.
    + rewrite IH, not_elem_of_cons. tauto.
Qed.

(** With each name once, the first and the last property of a name are
    the same. *)
Lemma assoc_reverse {V} k (l : list (jsstring * V)) :
  NoDup l.*1 → assoc k (reverse l) = assoc k l.
Proof.
  induction l as [|[k' v] l IH]; [done|].
  rewrite fmap_cons, NoDup_cons. intros [Hk' Hl].
  rewrite reverse_cons, assoc_app, IH by done. simpl.
  destruct (decide (k = k')) as [->|]; [|by destruct (assoc k l)].
  by rewrite (proj2 (assoc_None_not_in k' l) Hk').
Qed.

Section Persist.
Variable JSON_parse : jsstring → option JSON.
Variable JSON_stringify : JSON → jsstring.

Abbreviation loadState := (loadState JSON_parse).
Abbreviation saveState := (saveState JSON_stringify).
Abbreviation updateState := (updateState JSON_parse JSON_stringify).
Abbreviation addRecentProject := (addRecentProject JSON_parse JSON_stringify).

Lemma saveState_run (state : Props) (fs : Fs) :
  writable fs = true →
  saveState state fs
  = Ok tt {| state_dir := true; writable := true;
             auth_token_file := auth_token_file fs;
             state_file := Content (JSON_stringify (JObj state)) |}.
Proof.
  intros Hw. unfold State.saveState, bind.
  destruct (ensureStateDir_ok fs (or_intror Hw))
    as (fs1 & -> & Hd1 & Hw1 & Ha1 & Hs1).
  unfold writeFileSync. rewrite Hw1, Hw. cbn. by rewrite Hd1, Hw1, Hw, Ha1.
Qed.

(** X11.  Round trip.  What [saveState] wrote, [loadState] reads back: every
    property of the saved state, and the default for a default field the
    saved state lacks. *)
Theorem save_then_load (state : Props) (fs : Fs) :
  writable fs = true →
  NoDup state.*1 →
  JSON_parse (JSON_stringify (JObj state)) = Some (JObj state) →
  ∃ fs1 fs2 state',
    saveState state fs = Ok tt fs1
    ∧ loadState fs1 = Ok state' fs2
    ∧ (∀ k v, assoc k state = Some v → assoc k state' = Some v)
    ∧ (∀ k, assoc k state = None → assoc k state' = assoc k DEFAULT_STATE).
Proof.
  intros Hw Hnd Hrt.
  pose (fs1 := {| state_dir := true; writable := true;
                  auth_token_file := auth_token_file fs;
                  state_file := Content (JSON_stringify (JObj state)) |}).
  destruct (loadState_run JSON_parse fs1 (or_introl eq_refl))
    as (fs2 & Hl & _).
  exists fs1, fs2, (loaded JSON_parse fs1).
  split; [by apply saveState_run|]. split; [exact Hl|].
  unfold loaded, on_disk, fs1. cbn [state_file]. rewrite Hrt.
  split; intros k; [intros v|]; intros Hk;
    rewrite assoc_spread; cbn [own_props];
    by rewrite assoc_reverse, Hk.
Qed.

(** X12.  [updateState] merges: it returns and writes the current state with
    the updates laid over it.  A name the updates mention takes their
    value; every other name keeps the value it had. *)
Theorem updateState_merges (updates : Props) (fs : Fs) :
  writable fs = true →
  NoDup updates.*1 →
  ∃ newState fs',
    updateState updates fs = Ok newState fs'
    ∧ state_file fs' = Content (JSON_stringify (JObj newState))
    ∧ (∀ k v, assoc k updates = Some v → assoc k newState = Some v)
    ∧ (∀ k, assoc k updates = None →
            assoc k newState = assoc k (loaded JSON_parse fs)).
Proof.
  intros Hw Hnd.
  destruct (loadState_run JSON_parse fs (or_intror Hw))
    as (fs1 & Hl & Hd1 & Hw1 & Ha1 & Hs1).
  unfold State.updateState, bind. rewrite Hl.
  rewrite saveState_run by by rewrite Hw1.
  eexists _, _. split; [reflexivity|]. split; [reflexivity|].
  split; intros k; [intros v|]; intros Hk;
    rewrite assoc_spread; cbn [own_props];
    by rewrite assoc_reverse, Hk.
Qed.

(** *** Recent projects *)

(** The list [addRecentProject] stores. *)
Definition recent_after (projectPath : jsstring) (old : list JSON)
  : list JSON :=
  take 10 (JStr projectPath :: List.filter (differs projectPath) old).

Lemma differs_self projectPath : differs projectPath (JStr projectPath) = false.
Proof. unfold differs, is_str, str_eqb. by rewrite bool_decide_eq_true_2. Qed.

Lemma differs_false projectPath x :
  differs projectPath x = false → x = JStr projectPath.
Proof.
  unfold differs, is_str, str_eqb. destruct x; try done.
  rewrite negb_false_iff, bool_decide_eq_true. by intros ->.
Qed.

Lemma filter_differs_none projectPath (l : list JSON) :
  List.filter (λ x, negb (differs projectPath x))
              (List.filter (differs projectPath) l) = [].
Proof.
  induction l as [|x l IH]; [done|]. simpl.
  destruct (differs projectPath x) eqn:Hx; [|exact IH].
  simpl. by rewrite Hx.
Qed.

Lemma filter_take_nil {A} (p : A → bool) n (l : list A) :
  List.filter p l = [] → List.filter p (take n l) = [].
Proof.
  revert n. induction l as [|x l IH]; intros [|n]; simpl; try done.
  destruct (p x); [done|]. by apply IH.
Qed.

(** Most recent first, no repetition of the project, at most ten. *)
Lemma recent_after_shape (projectPath : jsstring) (old : list JSON) :
  head (recent_after projectPath old) = Some (JStr projectPath)
  ∧ length (recent_after projectPath old) ≤ 10
  ∧ List.filter (λ x, negb (differs projectPath x))
                (recent_after projectPath old) = [JStr projectPath]
  ∧ tail (recent_after projectPath old)
    = take 9 (List.filter (differs projectPath) old)
  ∧ (NoDup old → NoDup (recent_after projectPath old)).
Proof.
  unfold recent_after. cbn [take head tail]. split; [done|].
  split; [rewrite length_cons, length_take; lia|].
  split; [|split; [done|]].
  - cbn [List.filter]. rewrite differs_self. cbn [negb]. f_equal.
    apply filter_take_nil, filter_differs_none.
  - intros Hnd. apply NoDup_cons. split.
    + intros Hin. apply elem_of_take in Hin as (i & Hin & _).
      apply list_elem_of_lookup_2 in Hin.
      apply list_elem_of_In, filter_In in Hin as [_ Hd].
      by rewrite differs_self in Hd.
    + eapply sublist_NoDup; [|apply sublist_take].
      clear -Hnd. induction Hnd as [|x l Hx _ IH]; simpl; [constructor|].
      destruct (differs projectPath x); [|done].
      apply NoDup_cons. split; [|done].
      intros Hin. apply list_elem_of_In, filter_In in Hin as [Hin _].
      by apply list_elem_of_In in Hin.
Qed.

(** X13.  [addRecentProject] puts the project first in the stored list, drops
    its earlier occurrences, keeps the other projects in their order and
    at most ten entries in all; the other fields of the state are
    written back as they were. *)
Theorem addRecentProject_most_recent_first (projectPath : jsstring)
    (old : list JSON) (fs : Fs) :
  writable fs = true →
  assoc (lit "recentProjects") (loaded JSON_parse fs) = Some (JArr old) →
  ∃ fs' state',
    addRecentProject projectPath fs = Ok tt fs'
    ∧ state_file fs' = Content (JSON_stringify (JObj state'))
    ∧ assoc (lit "recentProjects") state'
      = Some (JArr (recent_after projectPath old))
    ∧ (∀ k, k ≠ lit "recentProjects" →
            assoc k state' = assoc k (loaded JSON_parse fs))
    ∧ head (recent_after projectPath old) = Some (JStr projectPath)
    ∧ length (recent_after projectPath old) ≤ 10
    ∧ List.filter (λ x, negb (differs projectPath x))
                  (recent_after projectPath old) = [JStr projectPath]
    ∧ tail (recent_after projectPath old)
      = take 9 (List.filter (differs projectPath) old)
    ∧ (NoDup old → NoDup (recent_after projectPath old)).
Proof.
  intros Hw Hold.
  destruct (loadState_run JSON_parse fs (or_intror Hw))
    as (fs1 & Hl & Hd1 & Hw1 & Ha1 & Hs1).
  unfold State.addRecentProject, bind. rewrite Hl, Hold.
  rewrite saveState_run by by rewrite Hw1.
  eexists _, _. split; [reflexivity|]. split; [reflexivity|].
  split; [by rewrite assoc_set_prop, decide_True|].
  split; [intros k Hk; by rewrite assoc_set_prop, decide_False|].
  apply recent_after_shape.
Qed.

(** X14.  When the stored [recentProjects] is not an array, [addRecentProject]
    throws and writes nothing. *)
Theorem addRecentProject_needs_array (projectPath : jsstring) (fs : Fs) :
  state_dir fs = true ∨ writable fs = true →
  (∀ l, assoc (lit "recentProjects") (loaded JSON_parse fs) ≠ Some (JArr l)) →
  ∃ fs', addRecentProject projectPath fs = Throw TypeError fs'
    ∧ state_file fs' = state_file fs.
Proof.
  intros Hcan Hnot.
  destruct (loadState_run JSON_parse fs Hcan)
    as (fs1 & Hl & Hd1 & Hw1 & Ha1 & Hs1).
  unfold State.addRecentProject, bind. rewrite Hl.
  destruct (assoc (lit "recentProjects") (loaded JSON_parse fs))
    as [[]|] eqn:Hr; try by eexists.
  by destruct (Hnot l).
Qed.

End Persist.

(** *** Concrete runs *)

Definition demo_state : Props :=
  [(lit "activeProject", JStr (lit "/work/site"));
   (lit "recentProjects", JArr [JStr (lit "/work/site"); JStr (lit "/work/api")]);
   (lit "cliPid", JNull);
   (lit "status", JStr (lit "ready"))].

(** A [JSON.stringify] and a [JSON.parse] that agree on [demo_state]. *)
Definition demo_stringify (_ : JSON) : jsstring := lit "<state>".
Definition demo_parse (_ : jsstring) : option JSON := Some (JObj demo_state).

Definition demo_home : Fs :=
  {| state_dir := true; writable := true;
     auth_token_file := Missing; state_file := Content (lit "<state>") |}.

Lemma demo_state_names : NoDup demo_state.*1.
Proof. apply (bool_decide_unpack _). by vm_compute. Qed.

Lemma save_then_load_witness :
  ∃ fs1 fs2 state',
    saveState demo_stringify demo_state empty_home = Ok tt fs1
    ∧ loadState demo_parse fs1 = Ok state' fs2
    ∧ assoc (lit "status") state' = Some (JStr (lit "ready")).
Proof.
  destruct (save_then_load demo_parse demo_stringify demo_state empty_home
              eq_refl demo_state_names eq_refl)
    as (fs1 & fs2 & state' & Hs & Hl & Hk & _).
  exists fs1, fs2, state'. split; [exact Hs|]. split; [exact Hl|].
  apply Hk. by vm_compute.
Defined.

Definition demo_updates : Props :=
  [(lit "status", JStr (lit "error")); (lit "lastError", JStr (lit "spawn failed"))].

Lemma demo_updates_names : NoDup demo_updates.*1.
Proof. apply (bool_decide_unpack _). by vm_compute. Qed.

Lemma updateState_merges_witness :
  ∃ newState fs',
    updateState demo_parse demo_stringify demo_updates demo_home
    = Ok newState fs'
    ∧ assoc (lit "status") newState = Some (JStr (lit "error"))
    ∧ assoc (lit "activeProject") newState = Some (JStr (lit "/work/site")).
Proof.
  destruct (updateState_merges demo_parse demo_stringify demo_updates
              demo_home eq_refl demo_updates_names)
    as (newState & fs' & Hu & _ & Hk & Hd).
  exists newState, fs'. split; [exact Hu|]. split.
  - apply Hk. by vm_compute.
  - rewrite Hd; by vm_compute.
Defined.

Lemma addRecentProject_most_recent_first_witness :
  ∃ fs' state',
    addRecentProject demo_parse demo_stringify (lit "/work/api") demo_home
    = Ok tt fs'
    ∧ assoc (lit "recentProjects") state'
      = Some (JArr [JStr (lit "/work/api"); JStr (lit "/work/site")]).
Proof.
  destruct (addRecentProject_most_recent_first demo_parse demo_stringify
              (lit "/work/api")
              [JStr (lit "/work/site"); JStr (lit "/work/api")]
              demo_home eq_refl)
    as (fs' & state' & Ha & _ & Hr & _); [by vm_compute|].
  exists fs', state'. split; [exact Ha|]. rewrite Hr. by vm_compute.
Defined.

(** A state file whose [recentProjects] is a string. *)
Definition parse_damaged (_ : jsstring) : option JSON :=
  Some (JObj [(lit "recentProjects", JStr (lit "/work/site"))]).

Lemma addRecentProject_needs_array_witness :
  ∃ fs', addRecentProject parse_damaged demo_stringify (lit "/work/api")
           demo_home = Throw TypeError fs'
    ∧ state_file fs' = state_file demo_home.
Proof.
  apply (addRecentProject_needs_array parse_damaged demo_stringify
           (lit "/work/api") demo_home (or_introl eq_refl)).
  intros l. by vm_compute.
Defined.

End StatePersistence.

(** ** The terminal manager: sessions over their life *)

Module TerminalLife.
Import Terminal TerminalLookup EffFacts TerminalFacts TerminalInvariant.

Section Life.
Context {Callback : Type} `{EqDecision Callback} {Ext : Type}.
Variable invoke : Callback → TerminalEvent → M Ext unit.
Variable basename : jsstring → jsstring.

Abbreviation Store := (@Store Callback Ext).
Abbreviation TerminalSession := (@TerminalSession Callback).
Abbreviation getOrCreateSession := (getOrCreateSession invoke basename).
Abbreviation reachable := (reachable invoke basename).
Abbreviation subscribe := (subscribe invoke).
Abbreviation onExit := (onExit invoke).

Lemma generateId_nonempty env : generateId env ≠ [].
Proof.
  unfold generateId. destruct (lit "term_") eqn:E; [by vm_compute in E|done].
Qed.

(** The session [getOrCreateSession] looks for. *)
Definition live (path : jsstring) (st : Store) : option Loc :=
  match projectToSession st !! path with
  | Some i => if decide (i = []) then None else sessions st !! i
  | None => None
  end.

Lemma getSessionByProject_run path (st : Store) :
  getSessionByProject path st = Ok (live path st) st.
Proof.
  unfold getSessionByProject, getSession, live. eff.
  destruct (projectToSession st !! path) as [i|]; [|done].
  by destruct (decide (i = [])).
Qed.

(** The session object created for [path] in the environment [env]. *)
Definition new_session (env : SpawnEnv) (path : jsstring) (p : Pty)
  : TerminalSession :=
  {| id := generateId env; projectPath := path;
     projectName := basename path; ptyProcess := p;
     buffer := []; maxBufferLines := 5000;
     createdAt := now env; lastActivity := now env;
     subscribers := [] |}.

(** What [getOrCreateSession] does, case by case. *)
Lemma getOrCreateSession_run env path (st : Store) :
  getOrCreateSession env path st
  = match live path st with
    | Some l => Ok l (set_heap (alter (touch (now env)) l) st)
    | None =>
        if path_exists env then
          match spawned env with
          | inl p =>
              Ok (new_loc st)
                 {| sessions := <[generateId env := new_loc st]> (sessions st);
                    order := if decide (generateId env ∈ order st)
                             then order st
                             else order st ++ [generateId env];
                    projectToSession :=
                      <[path := generateId env]> (projectToSession st);
                    heap := <[new_loc st := new_session env path p]> (heap st);
                    pty_calls := pty_calls st ++ [pty_spawn p path];
                    delivered := delivered st; ext := ext st |}
          | inr msg =>
              Throw (Error (lit "Failed to create terminal: " ++ msg)) st
          end
        else Throw (Error (lit "Project path does not exist: " ++ path)) st
    end.
Proof.
  unfold Terminal.getOrCreateSession, update, live. eff.
  destruct (match projectToSession st !! path with
            | Some i => if decide (i = []) then None else sessions st !! i
            | None => None
            end) as [l|]; [reflexivity|].
  destruct (path_exists env); [|reflexivity]. cbn [negb].
  destruct (spawned env) as [p|msg]; [|reflexivity].
  unfold pty. eff. cbn.
  set (st1 := set_projectToSession _ _).
  assert (heap st1 !! new_loc st = Some (new_session env path p)) as Hnew.
  { subst st1. cbn. apply lookup_insert_eq. }
  by rewrite (broadcast_run invoke st1 _ _ _ Hnew).
Qed.

Lemma getOrCreateSession_live env path (st st1 : Store) l :
  getOrCreateSession env path st = Ok l st1 → live path st1 = Some l.
Proof.
  rewrite getOrCreateSession_run.
  destruct (live path st) as [l0|] eqn:Hlive.
  - intros [= <- <-]. exact Hlive.
  - destruct (path_exists env); [|done].
    destruct (spawned env) as [p|msg]; [|done].
    intros [= <- <-]. unfold live. cbn.
    rewrite lookup_insert_eq, decide_False by apply generateId_nonempty.
    apply lookup_insert_eq.
Qed.

(** X15.  One project, one session.  Once [getOrCreateSession] has returned a
    session for a path, asking again returns the same session object:
    nothing is spawned and the maps stay as they are, only the time of
    last activity moves.  [getSessionByProject] finds that session
    too. *)
Theorem getOrCreateSession_reuses env env' path (st st1 : Store) l :
  getOrCreateSession env path st = Ok l st1 →
  getOrCreateSession env' path st1
  = Ok l (set_heap (alter (touch (now env')) l) st1)
  ∧ getSessionByProject path st1 = Ok (Some l) st1.
Proof.
  intros Hrun%getOrCreateSession_live.
  by rewrite getOrCreateSession_run, getSessionByProject_run, Hrun.
Qed.


(** X17.  The exit of the shell tells every subscriber, with the exit code,
    and releases the project: the next [getOrCreateSession] for the path
    spawns a process and returns another session object. *)
Theorem exit_releases_project env p code (st : Store) l s :
  heap st !! l = Some s →
  path_exists env = true →
  spawned env = inl p →
  ∃ st1 l' st2,
    onExit l code st = Ok tt st1
    ∧ delivered st1
      = delivered st
        ++ map (λ cb, (cb, {| type := exit; sessionId := id s; data := None;
                              exitCode := Some code;
                              event_sessions := None |}))
               (subscribers s)
    ∧ sessions st1 !! id s = None
    ∧ getSessionByProject (projectPath s) st1 = Ok None st1
    ∧ getOrCreateSession env (projectPath s) st1 = Ok l' st2
    ∧ l' ≠ l
    ∧ pty_calls st2 = pty_calls st ++ [pty_spawn p (projectPath s)].
Proof.
  intros Hl Hpath Hspawn.
  set (ev := {| type := exit; sessionId := id s; data := None;
                exitCode := Some code; event_sessions := None |}).
  destruct (after_calls_frame invoke ev (subscribers s) st)
    as (Hs & Hp & Hh & Hc).
  pose (st1 := set_projectToSession (delete (projectPath s))
                 (sessions_delete (id s)
                    (after_calls invoke ev (subscribers s) st))).
  assert (onExit l code st = Ok tt st1) as Hrun.
  { unfold Terminal.onExit, deref. eff. rewrite Hl.
    by rewrite (broadcast_run invoke st l s _ Hl). }
  assert (live (projectPath s) st1 = None) as Hlive.
  { unfold live, st1. cbn. by rewrite lookup_delete_eq. }
  exists st1, (new_loc st1). eexists.
  split; [exact Hrun|].
  split; [unfold st1; cbn; apply after_calls_delivered|].
  split; [unfold st1; cbn; apply lookup_delete_eq|].
  split; [by rewrite getSessionByProject_run, Hlive|].
  split; [by rewrite getOrCreateSession_run, Hlive, Hpath, Hspawn|].
  split.
  - intros E. pose proof (new_loc_fresh st1) as Hfresh.
    rewrite E in Hfresh. unfold st1 in Hfresh. cbn in Hfresh.
    rewrite Hh in Hfresh. congruence.
  - cbn. by rewrite Hc.
Qed.

(** *** Unknown and closed sessions *)

Lemma unknown_session (st : Store) sid :
  sessions st !! sid = None →
  (∀ now data, write now sid data st = Ok false st)
  ∧ (∀ cols rows, resize sid cols rows st = Ok false st)
  ∧ (∀ now command, runCommand now sid command st = Ok false st)
  ∧ (∀ lastN, getBuffer sid lastN st = Ok [] st)
  ∧ (∀ cb, subscribe sid cb st = Ok dummy_unsubscribe st).
Proof.
  intros Hn.
  unfold write, resize, runCommand, getBuffer, Terminal.subscribe, getSession.
  eff. by rewrite Hn.
Qed.

(** X18.  After [close(id)] the session takes no more input: [write],
    [resize] and [runCommand] return [false] and reach no process,
    [getBuffer] is empty and [subscribe] registers nothing. *)
Theorem closed_session_refuses_io (st : Store) sid :
  reachable st →
  ∃ r st1,
    close sid st = Ok r st1
    ∧ (∀ now data, write now sid data st1 = Ok false st1)
    ∧ (∀ cols rows, resize sid cols rows st1 = Ok false st1)
    ∧ (∀ now command, runCommand now sid command st1 = Ok false st1)
    ∧ (∀ lastN, getBuffer sid lastN st1 = Ok [] st1)
    ∧ (∀ cb, subscribe sid cb st1 = Ok dummy_unsubscribe st1).
Proof.
  intros HI%Inv_reachable. pose proof (close_run st sid) as Hrun.
  destruct (sessions st !! sid) as [l|] eqn:Hsid.
  - destruct (inv_sessions _ HI _ _ Hsid) as (s & Hl & _).
    rewrite Hl in Hrun. eexists _, _. split; [exact Hrun|].
    apply unknown_session. cbn. apply lookup_delete_eq.
  - exists false, st. split; [exact Hrun|]. by apply unknown_session.
Qed.

(** *** Subscribing and unsubscribing *)

(** The event a new subscriber of a session with output gets. *)
Definition replay (sid : jsstring) (s : TerminalSession) : TerminalEvent :=
  {| type := output; sessionId := sid; data := Some (join [LF] (buffer s));
     exitCode := None; event_sessions := None |}.

(** X19.  A new subscriber is brought up to date.  [subscribe] adds the
    callback to the session and, when the buffer is not empty, calls it
    once, at once, with the whole buffer joined by line feeds; no other
    subscriber is called.  When it returns, it returns the closure that
    removes this callback from this session. *)
Theorem subscribe_replays_buffer (st : Store) sid l s cb :
  sessions st !! sid = Some l →
  heap st !! l = Some s →
  heap (store (subscribe sid cb st))
  = <[l := set_subscribers (Subscribers.add cb) s]> (heap st)
  ∧ delivered (store (subscribe sid cb st))
    = delivered st ++ (if decide (buffer s = []) then []
                       else [(cb, replay sid s)])
  ∧ sessions (store (subscribe sid cb st)) = sessions st
  ∧ pty_calls (store (subscribe sid cb st)) = pty_calls st
  ∧ (∀ u, returned (subscribe sid cb st) = Some u →
          u = unsubscribe_from l cb).
Proof.
  intros Hsid Hl. unfold Terminal.subscribe, getSession, update. eff.
  rewrite Hsid.
  pose (s1 := set_subscribers (Subscribers.add cb) s).
  set (st1 := set_heap _ st).
  assert (heap st1 = <[l := s1]> (heap st)) as Hh.
  { subst st1. cbn. apply map_eq. intros l'.
    destruct (decide (l = l')) as [<-|Hne].
    - by rewrite lookup_alter_eq, Hl, lookup_insert_eq.
    - by rewrite lookup_alter_ne, lookup_insert_ne. }
  unfold deref. rewrite Hh, lookup_insert_eq. fold s1.
  change (buffer s1) with (buffer s).
  destruct (decide (0 < length (buffer s))) as [Hlen|Hlen].
  - rewrite decide_False by (intros E; rewrite E in Hlen; cbn in Hlen; lia).
    pose proof (store_call invoke cb (replay sid s) st1) as Hcall.
    unfold replay in *.
    destruct (Terminal.call invoke cb _ st1) as [[] st2|e st2];
      cbn [store returned] in *; subst st2; cbn; rewrite ?Hh;
      repeat split; try done; by intros u [= <-].
  - rewrite decide_True by (destruct (buffer s); [done|cbn in Hlen; lia]).
    cbn [store returned]. rewrite Hh, app_nil_r.
    repeat split; try done. by intros u [= <-].
Qed.

Lemma delete_add (cb : Callback) (subs : list Callback) :
  cb ∉ subs → Subscribers.delete cb (Subscribers.add cb subs) = subs.
Proof.
  intros Hcb. unfold Subscribers.add, Subscribers.delete.
  rewrite decide_False by done.
  rewrite filter_app, filter_cons_False, filter_nil, app_nil_r by (by intros ?).
  induction subs as [|c subs IH]; [done|].
  apply not_elem_of_cons in Hcb as [Hne Hcb].
  rewrite filter_cons_True by done. by rewrite IH.
Qed.

Lemma delete_delete (cb : Callback) (subs : list Callback) :
  Subscribers.delete cb (Subscribers.delete cb subs)
  = Subscribers.delete cb subs.
Proof.
  unfold Subscribers.delete. induction subs as [|c subs IH]; [done|].
  rewrite filter_cons. case_decide; [|done].
  rewrite filter_cons_True by done. by rewrite IH.
Qed.

Lemma run_unsubscribe_heap (st : Store) l s cb :
  heap st !! l = Some s →
  run_unsubscribe (unsubscribe_from l cb) st
  = Ok tt (set_heap (λ h, <[l := set_subscribers (Subscribers.delete cb) s]> h)
             st).
Proof.
  intros Hl. unfold run_unsubscribe, update, modify, set_heap. do 2 f_equal.
  apply map_eq. intros l'. destruct (decide (l = l')) as [<-|Hne].
  - by rewrite lookup_alter_eq, Hl, lookup_insert_eq.
  - by rewrite lookup_alter_ne, lookup_insert_ne.
Qed.

(** X20.  The closure [subscribe] returns removes its callback and nothing
    else: the other subscribers stay, in their order, and running the
    closure again changes nothing. *)
Theorem unsubscribe_removes_its_callback (st : Store) l s cb :
  heap st !! l = Some s →
  ∃ st1 s1,
    run_unsubscribe (unsubscribe_from l cb) st = Ok tt st1
    ∧ heap st1 = <[l := s1]> (heap st)
    ∧ subscribers s1 = Subscribers.delete cb (subscribers s)
    ∧ (cb ∉ subscribers s1)
    ∧ buffer s1 = buffer s
    ∧ sessions st1 = sessions st
    ∧ run_unsubscribe (unsubscribe_from l cb) st1 = Ok tt st1.
Proof.
  intros Hl. eexists _, _. split; [by apply run_unsubscribe_heap|].
  split; [reflexivity|]. split; [reflexivity|].
  split; [|split; [reflexivity|split; [reflexivity|]]].
  - cbn [subscribers set_subscribers]. unfold Subscribers.delete.
    rewrite list_elem_of_filter. by intros [? _].
  - erewrite run_unsubscribe_heap by (cbn; apply lookup_insert_eq).
    unfold set_heap. cbn. do 2 f_equal.
    rewrite insert_insert_eq. f_equal.
    unfold set_subscribers. cbn. f_equal. apply delete_delete.
Qed.

(** Subscribing a callback that was not subscribed and then running the
    closure restores the session objects. *)
Theorem subscribe_then_unsubscribe (st : Store) sid l s cb :
  sessions st !! sid = Some l →
  heap st !! l = Some s →
  cb ∉ subscribers s →
  heap (store (run_unsubscribe (unsubscribe_from l cb)
                 (store (subscribe sid cb st))))
  = heap st.
Proof.
  intros Hsid Hl Hcb.
  assert (heap (store (subscribe sid cb st))
          = <[l := set_subscribers (Subscribers.add cb) s]> (heap st)) as Hh.
  { unfold Terminal.subscribe, getSession, update. eff. rewrite Hsid.
    set (st1 := set_heap _ st).
    assert (heap st1 = <[l := set_subscribers (Subscribers.add cb) s]> (heap st))
      as Hh1.
    { subst st1. cbn. apply map_eq. intros l'.
      destruct (decide (l = l')) as [<-|Hne].
      - by rewrite lookup_alter_eq, Hl, lookup_insert_eq.
      - by rewrite lookup_alter_ne, lookup_insert_ne. }
    unfold deref. rewrite Hh1, lookup_insert_eq.
    case_decide; [|by cbn].
    match goal with |- context [Terminal.call invoke cb ?e st1] =>
      pose proof (store_call invoke cb e st1) as Hcall;
      destruct (Terminal.call invoke cb e st1) as [[] st2|e' st2] end;
      cbn [store] in *; subst st2; by cbn. }
  erewrite run_unsubscribe_heap by (rewrite Hh; apply lookup_insert_eq).
  cbn [store heap set_heap]. rewrite Hh, insert_insert_eq.
  unfold set_subscribers.
  cbn [subscribers id projectPath projectName ptyProcess buffer
       maxBufferLines createdAt lastActivity].
  rewrite delete_add by done.
  apply map_eq. intros l'. destruct (decide (l = l')) as [<-|Hne].
  - rewrite lookup_insert_eq, Hl. by destruct s.
  - by rewrite lookup_insert_ne.
Qed.

(** *** The order of the map *)

(** [order] lists the keys of [sessions], every key once. *)
Definition Enumerated (st : Store) : Prop :=
  NoDup (order st) ∧ ∀ i, i ∈ order st ↔ is_Some (sessions st !! i).

Lemma Enumerated_empty (e : Ext) : Enumerated (empty e).
Proof.
  split; [constructor|]. intros i. cbn. rewrite elem_of_nil, lookup_empty.
  split; [done|]. by intros [? ?].
Qed.

Lemma Enumerated_frame (st st' : Store) :
  sessions st' = sessions st → order st' = order st →
  Enumerated st → Enumerated st'.
Proof. intros Hs Ho. unfold Enumerated. by rewrite Hs, Ho. Qed.

Lemma Enumerated_deleted i (st st' : Store) :
  sessions st' = delete i (sessions st) →
  order st' = filter (λ k, k ≠ i) (order st) →
  Enumerated st → Enumerated st'.
Proof.
  clear invoke basename.
  intros Hs Ho [Hnd Hin]. unfold Enumerated. rewrite Hs, Ho. split.
  - by apply NoDup_filter.
  - intros k. rewrite list_elem_of_filter, lookup_delete_is_Some, Hin.
    intuition congruence.
Qed.

Lemma Enumerated_inserted i l (st st' : Store) :
  sessions st' = <[i := l]> (sessions st) →
  order st' = (if decide (i ∈ order st) then order st else order st ++ [i]) →
  Enumerated st → Enumerated st'.
Proof.
  clear invoke basename.
  intros Hs Ho [Hnd Hin]. unfold Enumerated. rewrite Hs, Ho.
  case_decide as Hi; split; try done.
  - intros k. rewrite lookup_insert_is_Some, Hin.
    pose proof (proj1 (Hin i) Hi).
    destruct (decide (i = k)) as [<-|]; intuition congruence.
  - apply NoDup_app. split; [done|]. split; [|apply NoDup_singleton].
    by intros x Hx ->%list_elem_of_singleton.
  - intros k. rewrite elem_of_app, list_elem_of_singleton,
      lookup_insert_is_Some, Hin.
    destruct (decide (i = k)) as [<-|]; intuition congruence.
Qed.

Lemma after_calls_order event subs (st : Store) :
  order (after_calls invoke event subs st) = order st.
Proof.
  unfold after_calls.
  by apply (fold_left_preserves (after_call invoke event)).
Qed.

Lemma Enumerated_broadcast (st : Store) l event :
  Enumerated st → Enumerated (store (Terminal.broadcast invoke l event st)).
Proof.
  intros HE. destruct (heap st !! l) as [s|] eqn:Hl.
  - rewrite (broadcast_run invoke st l s event Hl). cbn [store].
    destruct (after_calls_frame invoke event (subscribers s) st) as (? & _).
    eapply Enumerated_frame; [done|apply after_calls_order|done].
  - unfold Terminal.broadcast, deref. eff. by rewrite Hl.
Qed.

Lemma Enumerated_close (st : Store) sid :
  Enumerated st → Enumerated (store (close sid st)).
Proof.
  intros HE. pose proof (close_run st sid) as Hrun.
  destruct (sessions st !! sid) as [l|] eqn:Hsid; [|by rewrite Hrun].
  destruct (heap st !! l) as [s|] eqn:Hl; rewrite Hrun; [|done].
  by eapply (Enumerated_deleted sid st).
Qed.

Lemma Enumerated_step (st st' : Store) :
  step invoke basename st st' → Enumerated st → Enumerated st'.
Proof.
  destruct 1 as [st env path _|st now sid data|st sid cols rows|st sid
                |st sid cb|st u|st now sid command|st|st l now data
                |st l code]; intros HE.
  - rewrite getOrCreateSession_run.
    destruct (live path st); [by eapply Enumerated_frame|].
    destruct (path_exists env); [|done].
    destruct (spawned env) as [p|msg]; [|done].
    by eapply (Enumerated_inserted (generateId env) (new_loc st) st).
  - unfold write, getSession, update, deref, pty. eff.
    destruct (sessions st !! sid) as [l|]; [|done].
    destruct (heap st !! l) as [s|]; [|done].
    by eapply Enumerated_frame.
  - unfold resize, getSession, deref, pty. eff.
    destruct (sessions st !! sid) as [l|]; [|done].
    destruct (heap st !! l) as [s|]; [|done].
    by eapply Enumerated_frame.
  - by apply Enumerated_close.
  - unfold Terminal.subscribe, getSession, update. eff.
    destruct (sessions st !! sid) as [l|]; [|done].
    set (st1 := set_heap _ st).
    assert (Enumerated st1) as HE1 by by eapply Enumerated_frame.
    unfold deref. destruct (heap st1 !! l) as [s|]; [|done].
    case_decide; [|done].
    match goal with |- context [Terminal.call invoke cb ?e st1] =>
      pose proof (store_call invoke cb e st1) as Hcall;
      destruct (Terminal.call invoke cb e st1) as [[] st2|e' st2] end;
      cbn [store] in *; subst st2; by eapply Enumerated_frame.
  - destruct u; [done|]. by eapply Enumerated_frame.
  - unfold runCommand, getSession, update, deref, pty. eff.
    destruct (sessions st !! sid) as [l|]; [|done].
    destruct (heap st !! l) as [s|]; [|done].
    by eapply Enumerated_frame.
  - unfold closeAll. eff. apply forEach_preserves; [|done].
    intros i st' HE'. pose proof (Enumerated_close st' i HE') as H'.
    unfold bind, ret. by destruct (close i st').
  - unfold onData, update, deref. eff.
    destruct (heap st !! l) as [s|]; [|done].
    apply Enumerated_broadcast. by eapply Enumerated_frame.
  - unfold Terminal.onExit, deref. eff.
    destruct (heap st !! l) as [s|] eqn:Hl; [|done].
    rewrite (broadcast_run invoke st l s _ Hl). cbn [store].
    match goal with |- context [after_calls invoke ?ev] =>
      destruct (after_calls_frame invoke ev (subscribers s) st) as (Hs & _);
      pose proof (after_calls_order ev (subscribers s) st) as Ho end.
    eapply (Enumerated_deleted (id s) st); cbn; by rewrite ?Hs, ?Ho.
Qed.

Lemma Enumerated_reachable (st : Store) : reachable st → Enumerated st.
Proof. induction 1; eauto using Enumerated_empty, Enumerated_step. Qed.

Lemma order_length (st : Store) :
  Enumerated st → length (order st) = size (sessions st).
Proof.
  intros [Hnd Hin]. rewrite <- (size_dom (D := gset jsstring)).
  assert (dom (sessions st) = list_to_set (order st) :> gset jsstring) as ->.
  { apply set_eq. intros i.
    by rewrite elem_of_dom, elem_of_list_to_set, Hin. }
  by rewrite size_list_to_set.
Qed.

(** *** Closing everything *)

(** The kill [close(i)] issues in [st]. *)
Definition kill_of (st : Store) (i : jsstring) : option PtyCall :=
  l ← sessions st !! i; s ← heap st !! l; Some (pty_kill (ptyProcess s)).

Lemma close_each (ids : list jsstring) : ∀ st : Store,
  Inv st →
  NoDup ids →
  (∀ i, i ∈ ids → is_Some (sessions st !! i)) →
  ∃ st', forEach (λ i, close i >> ret tt) ids st = Ok tt st'
    ∧ Inv st'
    ∧ heap st' = heap st
    ∧ delivered st' = delivered st
    ∧ (∀ k, sessions st' !! k
            = if decide (k ∈ ids) then None else sessions st !! k)
    ∧ pty_calls st' = pty_calls st ++ omap (kill_of st) ids
    ∧ length (omap (kill_of st) ids) = length ids.
Proof.
  induction ids as [|i ids IH]; intros st HI Hnd Hin.
  - exists st. cbn. rewrite app_nil_r. split_and!; done.
  - apply NoDup_cons in Hnd as [Hi Hnd].
    destruct (Hin i) as [l Hsid]; [by left|].
    destruct (inv_sessions _ HI _ _ Hsid) as (s & Hl & Hid).
    pose proof (close_run st i) as Hrun. rewrite Hsid, Hl in Hrun.
    pose proof (Inv_close st i HI) as HI1. rewrite Hrun in HI1.
    cbn [store] in HI1.
    match type of HI1 with Inv ?st1 =>
      destruct (IH st1 HI1 Hnd) as (st' & Hloop & HI' & Hh & Hd & Hs & Hc & Hlen)
    end.
    { intros k Hk. cbn. rewrite lookup_delete_ne by (intros ->; done).
      apply Hin. by right. }
    exists st'. cbn [forEach]. unfold bind at 1, bind at 1. rewrite Hrun.
    unfold ret at 1. split; [exact Hloop|]. split; [exact HI'|].
    split; [exact Hh|]. split; [exact Hd|].
    assert (omap (kill_of
              {| sessions := delete i (sessions st);
                 order := filter (λ k, k ≠ i) (order st);
                 projectToSession :=
                   delete (projectPath s) (projectToSession st);
                 heap := heap st;
                 pty_calls := pty_calls st ++ [pty_kill (ptyProcess s)];
                 delivered := delivered st; ext := ext st |}) ids
            = omap (kill_of st) ids) as Hsame.
    { apply list_omap_ext, Forall_Forall2_diag, Forall_forall.
      intros k Hk. unfold kill_of. cbn.
      by rewrite lookup_delete_ne by (intros ->; done). }
    rewrite Hsame in Hc, Hlen.
    split; [|split].
    + intros k. rewrite Hs. cbn [sessions].
      destruct (decide (k ∈ ids)) as [Hk|Hk].
      * rewrite decide_True; [done|]. apply elem_of_cons. by right.
      * destruct (decide (k = i)) as [->|Hne].
        -- rewrite decide_True by (apply elem_of_cons; by left).
           apply lookup_delete_eq.
        -- rewrite decide_False by (rewrite elem_of_cons; by intros [?|?]).
           apply lookup_delete_ne. intros E. by apply Hne.
    + rewrite Hc. cbn [omap list_omap]. unfold kill_of at 2.
      rewrite Hsid. cbn. rewrite Hl. cbn. by rewrite <- app_assoc.
    + cbn [omap list_omap]. unfold kill_of at 1. rewrite Hsid. cbn.
      rewrite Hl. cbn. by rewrite Hlen.
Qed.

(** X21.  [closeAll] closes every session.  In a reachable state the map
    enumerates every registered session once, in the order in which the
    sessions were registered ([order]); [closeAll] kills the process of
    each of them, once, in that order, and leaves both maps empty; no
    subscriber is called. *)
Theorem closeAll_closes_every_session (st : Store) :
  reachable st →
  ∃ st',
    closeAll st = Ok tt st'
    ∧ NoDup (order st)
    ∧ (∀ i, i ∈ order st ↔ is_Some (sessions st !! i))
    ∧ pty_calls st' = pty_calls st ++ omap (kill_of st) (order st)
    ∧ length (omap (kill_of st) (order st)) = size (sessions st)
    ∧ sessions st' = ∅
    ∧ order st' = []
    ∧ projectToSession st' = ∅
    ∧ delivered st' = delivered st
    ∧ listSessions st' = Ok [] st'.
Proof.
  intros Hreach. pose proof (Inv_reachable _ _ st Hreach) as HI.
  pose proof (Enumerated_reachable st Hreach) as HE.
  pose proof HE as [Hnd Hin].
  destruct (close_each (order st) st HI Hnd) as
    (st' & Hloop & HI' & Hh & Hd & Hs & Hc & Hlen).
  { intros i. apply Hin. }
  assert (closeAll st = Ok tt st') as Hrun by exact Hloop.
  assert (sessions st' = ∅) as Hempty.
  { apply map_eq. intros k. rewrite Hs, lookup_empty.
    case_decide as Hk; [done|].
    destruct (sessions st !! k) as [l|] eqn:Hl; [|done].
    exfalso. apply Hk, Hin. by exists l. }
  assert (order st' = []) as Hnone.
  { assert (Enumerated st') as [_ Hin'].
    { pose proof (Enumerated_step st _ (step_closeAll _ _ st) HE) as HE'.
      by rewrite Hrun in HE'. }
    destruct (order st') as [|i rest] eqn:Ho; [done|].
    destruct (proj1 (Hin' i)) as [l Hl]; [by left|].
    by rewrite Hempty, lookup_empty in Hl. }
  exists st'. split; [exact Hrun|]. split; [exact Hnd|].
  split; [exact Hin|]. split; [exact Hc|].
  split; [by rewrite Hlen, order_length|].
  split; [exact Hempty|]. split; [exact Hnone|].
  split; [|split; [exact Hd|]].
  - apply map_eq. intros p. rewrite lookup_empty.
    destruct (projectToSession st' !! p) as [i|] eqn:Hp; [|done].
    destruct (inv_paths _ HI' _ _ Hp) as (l & s & Hi & _).
    by rewrite Hempty, lookup_empty in Hi.
  - unfold listSessions, gets. by rewrite Hnone.
Qed.

(** [listSessions] describes every registered session once, under its
    id, in the order of the map, and no line count it reports exceeds
    the capacity. *)
Theorem listSessions_lists_registered (st : Store) :
  reachable st →
  ∃ infos,
    listSessions st = Ok infos st
    ∧ info_id <$> infos = order st
    ∧ length infos = size (sessions st)
    ∧ Forall (λ i, bufferLines i ≤ 5000) infos.
Proof.
  intros Hreach. pose proof (Inv_reachable _ _ st Hreach) as HI.
  pose proof (Enumerated_reachable st Hreach) as HE.
  pose proof HE as [_ Hin].
  eexists. split; [reflexivity|].
  set (describe := λ i, match sessions st !! i with
                        | Some session => info_of <$> heap st !! session
                        | None => None
                        end).
  assert (∀ ids : list jsstring,
            (∀ i, i ∈ ids → is_Some (sessions st !! i)) →
            info_id <$> omap describe ids = ids
            ∧ Forall (λ i, bufferLines i ≤ 5000) (omap describe ids))
    as Hall.
  { induction ids as [|i ids IH]; intros Hreg; [by split|].
    destruct (Hreg i) as [l Hi]; [by left|].
    destruct (inv_sessions _ HI i l Hi) as (s & Hl & Hid).
    destruct IH as [IH1 IH2]; [intros k Hk; apply Hreg; by right|].
    assert (describe i = Some (info_of s)) as Hd
      by (unfold describe; by rewrite Hi, Hl).
    cbn [omap list_omap]. rewrite Hd. cbn.
    rewrite IH1, Hid. split; [done|]. constructor; [|done].
    cbn. by destruct (inv_buffers _ HI _ _ Hl). }
  destruct (Hall (order st)) as [H1 H2]; [intros i; apply Hin|].
  split; [exact H1|]. split; [|exact H2].
  by rewrite <- (length_fmap info_id), H1, order_length.
Qed.

(** *** An exit that comes late *)

(** X22.  The exit handler of a session object deletes the path entry of its
    project, whichever session holds it.  Close a session, create the
    next one for the same project, and let the exit of the first process
    arrive: the new session stays in the id map, but the project no
    longer leads to it. *)
Theorem late_exit_unmaps_successor env p code (st : Store) l s :
  reachable st →
  sessions st !! id s = Some l →
  heap st !! l = Some s →
  fresh_id (generateId env) st →
  path_exists env = true →
  spawned env = inl p →
  ∃ st1 l' st2 st3,
    close (id s) st = Ok true st1
    ∧ getOrCreateSession env (projectPath s) st1 = Ok l' st2
    ∧ getSessionByProject (projectPath s) st2 = Ok (Some l') st2
    ∧ onExit l code st2 = Ok tt st3
    ∧ sessions st3 !! generateId env = Some l'
    ∧ getSessionByProject (projectPath s) st3 = Ok None st3.
Proof.
  intros HI%Inv_reachable Hsid Hl Hfresh Hpath Hspawn.
  pose (st1 := {| sessions := delete (id s) (sessions st);
                  order := filter (λ k, k ≠ id s) (order st);
                  projectToSession :=
                    delete (projectPath s) (projectToSession st);
                  heap := heap st;
                  pty_calls := pty_calls st ++ [pty_kill (ptyProcess s)];
                  delivered := delivered st; ext := ext st |} : Store).
  assert (close (id s) st = Ok true st1) as Hclose.
  { pose proof (close_run st (id s)) as Hrun. by rewrite Hsid, Hl in Hrun. }
  assert (live (projectPath s) st1 = None) as Hlive.
  { unfold live, st1. cbn. by rewrite lookup_delete_eq. }
  pose (l' := new_loc st1).
  pose (st2 := {| sessions := <[generateId env := l']> (sessions st1);
                  order := if decide (generateId env ∈ order st1)
                           then order st1
                           else order st1 ++ [generateId env];
                  projectToSession :=
                    <[projectPath s := generateId env]> (projectToSession st1);
                  heap := <[l' := new_session env (projectPath s) p]> (heap st1);
                  pty_calls := pty_calls st1 ++ [pty_spawn p (projectPath s)];
                  delivered := delivered st1; ext := ext st1 |} : Store).
  assert (getOrCreateSession env (projectPath s) st1 = Ok l' st2) as Hnew.
  { by rewrite getOrCreateSession_run, Hlive, Hpath, Hspawn. }
  assert (heap st2 !! l = Some s) as Hl2.
  { unfold st2. cbn [heap]. rewrite lookup_insert_ne; [exact Hl|].
    intros E. pose proof (new_loc_fresh st1) as Hf. fold l' in Hf.
    rewrite E in Hf. unfold st1 in Hf. cbn [heap] in Hf. congruence. }
  set (ev := {| type := exit; sessionId := id s; data := None;
                exitCode := Some code; event_sessions := None |}).
  destruct (after_calls_frame invoke ev (subscribers s) st2)
    as (Hs & Hp & Hh & Hc).
  pose (st3 := set_projectToSession (delete (projectPath s))
                 (sessions_delete (id s)
                    (after_calls invoke ev (subscribers s) st2))).
  assert (onExit l code st2 = Ok tt st3) as Hexit.
  { unfold Terminal.onExit, deref. eff. rewrite Hl2.
    by rewrite (broadcast_run invoke st2 l s _ Hl2). }
  exists st1, l', st2, st3.
  split; [exact Hclose|]. split; [exact Hnew|].
  split.
  { rewrite getSessionByProject_run. f_equal.
    eapply getOrCreateSession_live, Hnew. }
  split; [exact Hexit|]. split.
  - unfold st3. cbn [sessions sessions_delete set_projectToSession].
    rewrite Hs. unfold st2. cbn [sessions].
    rewrite lookup_delete_ne by (apply (Hfresh _ _ Hl)).
    apply lookup_insert_eq.
  - rewrite getSessionByProject_run. unfold live, st3.
    cbn [projectToSession set_projectToSession].
    by rewrite lookup_delete_eq.
Qed.

End Life.

(** *** Concrete runs *)

Definition app_path : jsstring := lit "/srv/app".
Definition app_id : jsstring := lit "term_0_k3x9".

Definition app_session : @Terminal.TerminalSession nat :=
  new_session (λ p, p) demo_env app_path 7.

Lemma app_created :
  Terminal.getOrCreateSession quiet (λ p, p) demo_env app_path (empty tt)
  = Ok 0 demo_store.
Proof. by vm_compute. Qed.

Lemma app_in_heap : heap demo_store !! 0 = Some app_session.
Proof. by vm_compute. Qed.

Lemma app_registered : sessions demo_store !! app_id = Some 0.
Proof. by vm_compute. Qed.

Definition later_env : SpawnEnv :=
  {| random := lit "q7m2"; path_exists := true; spawned := inl 8; now := 5 |}.

Lemma getOrCreateSession_reuses_witness :
  Terminal.getOrCreateSession quiet (λ p, p) later_env app_path demo_store
  = Ok 0 (set_heap (alter (touch 5) 0) demo_store)
  ∧ getSessionByProject app_path demo_store = Ok (Some 0) demo_store.
Proof.
  exact (getOrCreateSession_reuses quiet (λ p, p) demo_env later_env app_path
           (empty tt) demo_store 0 app_created).
Defined.

Definition no_such_dir : SpawnEnv :=
  {| random := lit "q7m2"; path_exists := false; spawned := inl 8; now := 5 |}.

Lemma missing_path_throws :
  Terminal.getOrCreateSession quiet (λ p, p) no_such_dir (lit "/srv/gone")
    demo_store
  = Throw (Error (lit "Project path does not exist: /srv/gone")) demo_store.
Proof. by vm_compute. Qed.


Lemma exit_releases_project_witness :
  ∃ st1 l' st2,
    Terminal.onExit quiet 0 0%Z demo_store = Ok tt st1
    ∧ sessions st1 !! app_id = None
    ∧ Terminal.getOrCreateSession quiet (λ p, p) later_env app_path st1
      = Ok l' st2
    ∧ l' ≠ 0.
Proof.
  destruct (exit_releases_project quiet (λ p, p) later_env 8 0%Z demo_store 0
              app_session app_in_heap eq_refl eq_refl)
    as (st1 & l' & st2 & H1 & _ & H3 & _ & H5 & H6 & _).
  exists st1, l', st2. exact (conj H1 (conj H3 (conj H5 H6))).
Defined.

Lemma closed_session_refuses_io_witness :
  ∃ r st1,
    close app_id demo_store = Ok r st1
    ∧ write 9 app_id (lit "ls") st1 = Ok false st1
    ∧ runCommand 9 app_id (lit "gemini") st1 = Ok false st1.
Proof.
  destruct (closed_session_refuses_io quiet (λ p, p) demo_store app_id
              demo_reachable) as (r & st1 & H1 & H2 & _ & H4 & _).
  exists r, st1. split; [exact H1|]. split; [apply H2|apply H4].
Defined.

(** The session after two lines of output. *)
Definition busy_store : @Terminal.Store nat unit :=
  store (onData quiet 0 1 (lit "$ ls" ++ [LF] ++ lit "src") demo_store).

Definition busy_session : @Terminal.TerminalSession nat :=
  set_buffer [lit "$ ls"; lit "src"] (touch 1 app_session).

Lemma busy_in_heap : heap busy_store !! 0 = Some busy_session.
Proof. by vm_compute. Qed.

Lemma busy_registered : sessions busy_store !! app_id = Some 0.
Proof. by vm_compute. Qed.

Lemma subscribe_replays_buffer_witness :
  delivered (store (Terminal.subscribe quiet app_id 3 busy_store))
  = delivered busy_store
    ++ (if decide (buffer busy_session = []) then []
        else [(3, replay app_id busy_session)]).
Proof.
  exact (proj1 (proj2 (subscribe_replays_buffer quiet busy_store app_id 0
                         busy_session 3 busy_registered busy_in_heap))).
Defined.

Lemma unsubscribe_removes_its_callback_witness :
  ∃ st1 s1,
    run_unsubscribe (unsubscribe_from 0 3) busy_store = Ok tt st1
    ∧ heap st1 = <[0 := s1]> (heap busy_store)
    ∧ run_unsubscribe (unsubscribe_from 0 3) st1 = Ok tt st1.
Proof.
  destruct (unsubscribe_removes_its_callback busy_store 0 busy_session 3
              busy_in_heap) as (st1 & s1 & H1 & H2 & _ & _ & _ & _ & H7).
  exists st1, s1. exact (conj H1 (conj H2 H7)).
Defined.

Lemma subscriber_is_new : 3 ∉ subscribers busy_session.
Proof. apply (bool_decide_unpack _). by vm_compute. Qed.

Lemma subscribe_then_unsubscribe_witness :
  heap (store (run_unsubscribe (unsubscribe_from 0 3)
                 (store (Terminal.subscribe quiet app_id 3 busy_store))))
  = heap busy_store.
Proof.
  exact (subscribe_then_unsubscribe quiet busy_store app_id 0 busy_session 3
           busy_registered busy_in_heap subscriber_is_new).
Defined.

(** Three sessions, registered under ids whose alphabetical order is not
    the order of their creation. *)
Definition env_c : SpawnEnv :=
  {| random := lit "c"; path_exists := true; spawned := inl 0; now := 3 |}.
Definition env_a : SpawnEnv :=
  {| random := lit "a"; path_exists := true; spawned := inl 1; now := 1 |}.
Definition env_b : SpawnEnv :=
  {| random := lit "b"; path_exists := true; spawned := inl 2; now := 2 |}.

Definition one_session : @Terminal.Store nat unit :=
  store (Terminal.getOrCreateSession quiet (λ p, p) env_c (lit "/srv/c")
           (empty tt)).
Definition two_sessions : @Terminal.Store nat unit :=
  store (Terminal.getOrCreateSession quiet (λ p, p) env_a (lit "/srv/a")
           one_session).
Definition three_sessions : @Terminal.Store nat unit :=
  store (Terminal.getOrCreateSession quiet (λ p, p) env_b (lit "/srv/b")
           two_sessions).

Lemma fresh_id_decide (i : jsstring) (st : @Terminal.Store nat unit) :
  bool_decide (map_Forall (λ _ s, id s ≠ i) (heap st)) = true →
  fresh_id i st.
Proof. intros H%bool_decide_eq_true. exact H. Qed.

Lemma three_sessions_reachable : reachable quiet (λ p, p) three_sessions.
Proof.
  eapply reachable_step.
  - eapply reachable_step.
    + eapply reachable_step; [apply (reachable_empty _ _ tt)|].
      apply (step_getOrCreateSession _ _ _ env_c).
      apply fresh_id_decide. by vm_compute.
    + apply (step_getOrCreateSession _ _ _ env_a).
      apply fresh_id_decide. by vm_compute.
  - apply (step_getOrCreateSession _ _ _ env_b).
    apply fresh_id_decide. by vm_compute.
Qed.

Lemma three_sessions_order :
  order three_sessions = [lit "term_3_c"; lit "term_1_a"; lit "term_2_b"]
  ∧ omap (kill_of three_sessions) (order three_sessions)
    = [pty_kill 0; pty_kill 1; pty_kill 2].
Proof. split; by vm_compute. Qed.

Lemma closeAll_closes_every_session_witness :
  ∃ st',
    closeAll three_sessions = Ok tt st'
    ∧ order three_sessions
      = [lit "term_3_c"; lit "term_1_a"; lit "term_2_b"]
    ∧ pty_calls st'
      = pty_calls three_sessions ++ [pty_kill 0; pty_kill 1; pty_kill 2]
    ∧ sessions st' = ∅
    ∧ projectToSession st' = ∅.
Proof.
  destruct (closeAll_closes_every_session quiet (λ p, p) three_sessions
              three_sessions_reachable)
    as (st' & H1 & _ & _ & H4 & _ & H6 & _ & H8 & _).
  destruct three_sessions_order as [Ho Hk]. rewrite Hk in H4.
  exists st'. exact (conj H1 (conj Ho (conj H4 (conj H6 H8)))).
Defined.

Lemma listSessions_lists_registered_witness :
  ∃ infos,
    listSessions demo_store = Ok infos demo_store
    ∧ length infos = size (sessions demo_store).
Proof.
  destruct (listSessions_lists_registered quiet (λ p, p) demo_store
              demo_reachable) as (infos & H1 & _ & H3 & _).
  exists infos. exact (conj H1 H3).
Defined.

Lemma later_id_fresh : fresh_id (generateId later_env) demo_store.
Proof.
  assert (heap demo_store = {[0 := app_session]}) as Hh by by vm_compute.
  intros l s. rewrite Hh, lookup_singleton_Some. intros [_ <-].
  by vm_compute.
Qed.

Lemma late_exit_unmaps_successor_witness :
  ∃ st1 l' st2 st3,
    close app_id demo_store = Ok true st1
    ∧ Terminal.getOrCreateSession quiet (λ p, p) later_env app_path st1
      = Ok l' st2
    ∧ Terminal.onExit quiet 0 0%Z st2 = Ok tt st3
    ∧ sessions st3 !! generateId later_env = Some l'
    ∧ getSessionByProject app_path st3 = Ok None st3.
Proof.
  destruct (late_exit_unmaps_successor quiet (λ p, p) later_env 8 0%Z
              demo_store 0 app_session demo_reachable app_registered
              app_in_heap later_id_fresh eq_refl eq_refl)
    as (st1 & l' & st2 & st3 & H1 & H2 & _ & H4 & H5 & H6).
  exists st1, l', st2, st3. exact (conj H1 (conj H2 (conj H4 (conj H5 H6)))).
Defined.

End TerminalLife.

(** ** The CLI chat manager: the output stream of a process *)

Module ChatStream.
Import CliParser Chat EffFacts ChatFacts.

(** *** Lines across chunks *)

Lemma split_cons_nonempty sep (s : jsstring) : split sep s ≠ [].
Proof.
  destruct s as [|c s]; cbn; [done|].
  destruct (c =? sep)%N; [done|]. by destruct (split sep s).
Qed.

Lemma removelast_cons {A} (x : A) (l : list A) :
  l ≠ [] → removelast (x :: l) = x :: removelast l.
Proof. by destruct l. Qed.

Lemma last_cons {A} (x d : A) (l : list A) :
  l ≠ [] → List.last (x :: l) d = List.last l d.
Proof. by destruct l. Qed.

Lemma last_app_nonempty {A} (l l' : list A) (d : A) :
  l' ≠ [] → List.last (l ++ l') d = List.last l' d.
Proof.
  intros Hne. induction l as [|x l IH]; [done|].
  cbn [app]. rewrite last_cons; [done|]. by destruct l.
Qed.

(** Splitting a text that arrives in two parts: the complete pieces of
    the first part, then the pieces of its unfinished last piece
    followed by the second part. *)
Lemma split_app sep (x y : jsstring) :
  split sep (x ++ y)
  = removelast (split sep x) ++ split sep (List.last (split sep x) [] ++ y).
Proof.
  induction x as [|c x IH]; [done|].
  pose proof (split_cons_nonempty sep x) as Hx.
  cbn [app split]. destruct (c =? sep)%N eqn:E.
  - rewrite removelast_cons, last_cons by done. cbn [app]. by f_equal.
  - rewrite IH. destruct (split sep x) as [|piece [|q rest]]; [done|..].
    + cbn [removelast List.last app split]. by rewrite E.
    + done.
Qed.

(** What the [data] handler makes of its line buffer and a chunk: the
    complete lines, and the new line buffer. *)
Definition cut (lineBuffer data : jsstring) : list jsstring * jsstring :=
  pop [] (split LF (lineBuffer ++ data)).

Lemma cut_app (b d1 d2 : jsstring) :
  cut b (d1 ++ d2)
  = ((cut b d1).1 ++ (cut (cut b d1).2 d2).1, (cut (cut b d1).2 d2).2).
Proof.
  unfold cut, pop. cbn [fst snd]. rewrite app_assoc, split_app.
  pose proof (split_cons_nonempty LF
                (List.last (split LF (b ++ d1)) [] ++ d2)) as Hne.
  f_equal.
  - by apply removelast_app.
  - by apply last_app_nonempty.
Qed.

Section Stream.
Context {Callback : Type} `{EqDecision Callback} {Ext : Type}.
Variable invoke : Callback → CLIEvent → M Ext unit.
Variable JSON_parse : jsstring → option JSON.
Variable ToString : JSON → jsstring.
Variable Buffer_toString : list byte → jsstring.

Abbreviation Store := (@Store Callback Ext).
Abbreviation ChatSession := (@ChatSession Callback).
Abbreviation on_line := (on_line invoke JSON_parse ToString).
Abbreviation on_stdout :=
  (on_stdout invoke JSON_parse ToString Buffer_toString).
Abbreviation broadcast := (broadcast invoke).
Abbreviation string_of := (string_of ToString).

(** The result of a computation, with the store it left changed by [f]. *)
Definition in_store {A} (f : Store → Store) (r : Res Store A) : Res Store A :=
  match r with
  | Ok a s => Ok a (f s)
  | Throw e s => Throw e (f s)
  end.

Definition set_lb (rest : jsstring) (p : Proc) : Store → Store :=
  set_invocations (alter (set_lineBuffer rest) p).

Lemma broadcast_cases (st : Store) l event :
  broadcast l event st
  = match heap st !! l with
    | Some s => Ok tt (after_calls invoke event (subscribers s) st)
    | None => Throw TypeError st
    end.
Proof.
  destruct (heap st !! l) as [s|] eqn:Hl.
  - by apply chat_broadcast_run.
  - unfold Chat.broadcast, deref. eff. by rewrite Hl.
Qed.

Lemma after_calls_set_invocations f event subs (st : Store) :
  after_calls invoke event subs (set_invocations f st)
  = set_invocations f (after_calls invoke event subs st).
Proof.
  unfold after_calls. revert st.
  induction subs as [|cb subs IH]; intros st; [done|].
  cbn [fold_left]. rewrite <- IH. done.
Qed.

Lemma after_calls_set_heap f event subs (st : Store) :
  after_calls invoke event subs (set_heap f st)
  = set_heap f (after_calls invoke event subs st).
Proof.
  unfold after_calls. revert st.
  induction subs as [|cb subs IH]; intros st; [done|].
  cbn [fold_left]. rewrite <- IH. done.
Qed.

Lemma broadcast_set_invocations f l event (st : Store) :
  broadcast l event (set_invocations f st)
  = in_store (set_invocations f) (broadcast l event st).
Proof.
  rewrite !broadcast_cases. cbn [heap set_invocations].
  destruct (heap st !! l) as [s|]; [|done].
  by rewrite after_calls_set_invocations.
Qed.

Lemma set_lb_accumulator rest a p (st : Store) :
  set_invocations (alter (set_accumulator a) p) (set_lb rest p st)
  = set_lb rest p (set_invocations (alter (set_accumulator a) p) st).
Proof.
  unfold set_lb, set_invocations. cbn. f_equal.
  rewrite !alter_alter_eq. apply alter_ext. by intros [].
Qed.

Lemma set_lb_heap rest f p (st : Store) :
  set_heap f (set_lb rest p st) = set_lb rest p (set_heap f st).
Proof. done. Qed.

Lemma set_lb_twice r1 r2 p (st : Store) :
  set_lb r2 p (set_lb r1 p st) = set_lb r2 p st.
Proof.
  unfold set_lb, set_invocations. cbn. f_equal.
  rewrite alter_alter_eq. apply alter_ext. by intros [].
Qed.

Lemma in_store_bind {A B} f (m : M Store A) (k : A → M Store B)
    (m' : M Store A) (k' : A → M Store B) (st st' : Store) :
  m' st' = in_store f (m st) →
  (∀ a s, k' a (f s) = in_store f (k a s)) →
  bind m' k' st' = in_store f (bind m k st).
Proof.
  intros Hm Hk. unfold bind. rewrite Hm.
  destruct (m st) as [a s|e s]; cbn; [apply Hk|done].
Qed.

Lemma bind_invocation {A} p (k : Invocation → M Store A) (st : Store) :
  bind (invocation p) k st
  = match invocations st !! p with
    | Some i => k i st
    | None => Throw TypeError st
    end.
Proof. unfold bind, invocation. by destruct (invocations st !! p). Qed.

(** The line buffer plays no part in the handling of a line. *)
Lemma on_line_set_lb rest p now line (st : Store) :
  on_line p now line (set_lb rest p st)
  = in_store (set_lb rest p) (on_line p now line st).
Proof.
  unfold Chat.on_line. rewrite !bind_invocation.
  cbn [invocations set_lb set_invocations]. rewrite lookup_alter_eq.
  destruct (invocations st !! p) as [i|]; [|done].
  cbn [fmap option_fmap option_map].
  change (set_invocations (alter (set_lineBuffer rest) p) st)
    with (set_lb rest p st).
  cbn [accumulator inv_session startTime set_lineBuffer].
  destruct (parseCLILine JSON_parse now line) as [event|]; [|done].
  destruct (type event);
    try (unfold set_lb; by rewrite broadcast_set_invocations).
  - (* assistant_chunk *)
    destruct (addChunk _ _) as [fullContent a]. unfold bind, modify.
    rewrite set_lb_accumulator. unfold set_lb.
    by rewrite broadcast_set_invocations.
  - (* complete *)
    destruct (complete _) as [finalContent a]. unfold bind at 1 4, modify at 1 3.
    rewrite set_lb_accumulator.
    set (st1 := set_invocations (alter (set_accumulator a) p) st).
    apply in_store_bind.
    + case_decide; [|done]. unfold update, modify. by rewrite set_lb_heap.
    + intros _ s. apply in_store_bind.
      * unfold set_lb. by rewrite broadcast_set_invocations.
      * intros _ s'. unfold modify. by rewrite set_lb_accumulator.
Qed.

Lemma forEach_set_lb rest p now lines (st : Store) :
  forEach (on_line p now) lines (set_lb rest p st)
  = in_store (set_lb rest p) (forEach (on_line p now) lines st).
Proof.
  revert st. induction lines as [|line lines IH]; intros st; [done|].
  cbn [forEach]. apply in_store_bind; [apply on_line_set_lb|].
  intros _ s. apply IH.
Qed.

Lemma forEach_app_ok {A} (f : A → M Store unit) xs ys (st st1 : Store) :
  forEach f xs st = Ok tt st1 →
  forEach f (xs ++ ys) st = forEach f ys st1.
Proof.
  revert st. induction xs as [|x xs IH]; intros st.
  - by intros [= <-].
  - cbn [forEach app]. unfold bind.
    destruct (f x st) as [[] s|e s]; [apply IH|done].
Qed.

Lemma on_stdout_cut p now data i (st : Store) :
  invocations st !! p = Some i →
  on_stdout p now data st
  = in_store (set_lb (cut (lineBuffer i) (Buffer_toString data)).2 p)
             (forEach (on_line p now)
                (cut (lineBuffer i) (Buffer_toString data)).1 st).
Proof.
  intros Hi. unfold Chat.on_stdout. rewrite bind_invocation, Hi.
  fold (cut (lineBuffer i) (Buffer_toString data)).
  destruct (cut (lineBuffer i) (Buffer_toString data)) as [lines rest].
  cbn [fst snd].
  unfold bind, modify. apply forEach_set_lb.
Qed.

(** Handling a line keeps the invocation, its session and its line
    buffer. *)
Lemma on_line_keeps p now line i (st st' : Store) :
  invocations st !! p = Some i →
  on_line p now line st = Ok tt st' →
  ∃ i', invocations st' !! p = Some i'
        ∧ lineBuffer i' = lineBuffer i
        ∧ inv_session i' = inv_session i
        ∧ startTime i' = startTime i.
Proof.
  intros Hi. unfold Chat.on_line. rewrite bind_invocation, Hi.
  assert (∀ l event (s s' : Store),
            broadcast l event s = Ok tt s' →
            invocations s' = invocations s) as Hb.
  { intros l event s s'. rewrite broadcast_cases.
    destruct (heap s !! l) as [cs|]; [|done]. intros [= <-].
    by destruct (chat_after_calls_frame invoke event (subscribers cs) s)
      as (_ & _ & ? & _). }
  assert (∀ a (s : Store), invocations s !! p = Some i →
            ∃ i', invocations (set_invocations (alter (set_accumulator a) p) s)
                  !! p = Some i'
                  ∧ lineBuffer i' = lineBuffer i
                  ∧ inv_session i' = inv_session i
                  ∧ startTime i' = startTime i) as Ha.
  { intros a s Hs. cbn. rewrite lookup_alter_eq, Hs. by eexists. }
  destruct (parseCLILine JSON_parse now line) as [event|];
    [|intros [= <-]; by exists i].
  destruct (type event);
    try (intros Hrun; apply Hb in Hrun; rewrite Hrun; by exists i).
  - destruct (addChunk _ _) as [fullContent a]. unfold bind, modify.
    intros Hrun. apply Hb in Hrun. rewrite Hrun. by apply Ha.
  - destruct (complete _) as [finalContent a]. unfold bind at 1, modify at 1.
    set (st1 := set_invocations (alter (set_accumulator a) p) st).
    unfold bind.
    destruct (if decide (finalContent ≠ []) then _ else _) as [[] st2|] eqn:H2;
      [|done].
    assert (invocations st2 = invocations st1) as Hinv2.
    { case_decide; [|by injection H2 as <-]. by injection H2 as <-. }
    destruct (broadcast _ _ st2) as [[] st3|] eqn:H3; [|done].
    apply Hb in H3. unfold modify. intros [= <-].
    cbn [invocations set_invocations]. rewrite H3, Hinv2. subst st1. cbn.
    rewrite !lookup_alter_eq, Hi. by eexists.
Qed.

Lemma forEach_keeps p now lines : ∀ i (st st' : Store),
  invocations st !! p = Some i →
  forEach (on_line p now) lines st = Ok tt st' →
  ∃ i', invocations st' !! p = Some i'
        ∧ lineBuffer i' = lineBuffer i
        ∧ inv_session i' = inv_session i
        ∧ startTime i' = startTime i.
Proof.
  induction lines as [|line lines IH]; intros i st st' Hi.
  - intros [= <-]. by exists i.
  - cbn [forEach]. unfold bind.
    destruct (on_line p now line st) as [[] st1|] eqn:H1; [|done].
    destruct (on_line_keeps p now line i st st1 Hi H1)
      as (i1 & Hi1 & Hb1 & Hs1 & Ht1).
    intros Hrun. destruct (IH i1 st1 st' Hi1 Hrun) as (i' & ? & ? & ? & ?).
    exists i'. split_and!; congruence.
Qed.

(** X23.  Where the output of a process is cut into chunks does not
    matter, as long as the cut does not change the text: the handler
    decodes every chunk on its own, so the two chunks must decode, end to
    end, to what their bytes decode to in one piece (a cut between two
    characters, not inside the bytes of one).  Then, when the handler has
    returned for the first chunk, handling the second one gives what
    handling the two as one chunk would have given (at the same clock
    reading): the same events to the same subscribers, the same history,
    the same line buffer. *)
Theorem stdout_chunking_is_immaterial p now (d1 d2 : list byte) i
    (st st1 : Store) :
  invocations st !! p = Some i →
  Buffer_toString (d1 ++ d2) = Buffer_toString d1 ++ Buffer_toString d2 →
  on_stdout p now d1 st = Ok tt st1 →
  on_stdout p now d2 st1 = on_stdout p now (d1 ++ d2) st.
Proof.
  intros Hi Hcut. rewrite (on_stdout_cut p now d1 i st Hi).
  rewrite (on_stdout_cut p now (d1 ++ d2) i st Hi), Hcut, cut_app.
  cbn [fst snd].
  destruct (cut (lineBuffer i) (Buffer_toString d1)) as [l1 r1].
  cbn [fst snd].
  destruct (forEach (on_line p now) l1 st) as [[] stA|] eqn:HA; [|done].
  cbn [in_store]. intros [= <-].
  destruct (forEach_keeps p now l1 i st stA Hi HA) as (iA & HiA & _).
  rewrite (on_stdout_cut p now d2 (set_lineBuffer r1 iA)).
  2:{ unfold set_lb. cbn. by rewrite lookup_alter_eq, HiA. }
  cbn [lineBuffer set_lineBuffer].
  rewrite (forEach_app_ok _ _ _ _ _ HA), forEach_set_lb.
  destruct (forEach (on_line p now) (cut r1 (Buffer_toString d2)).1 stA)
    as [[] s|e s];
    cbn [in_store]; by rewrite set_lb_twice.
Qed.

(** *** From chunks to the history *)

(** What is broadcast for the chunk events [es] when the accumulated
    text is [acc]: every event with the text so far. *)
Fixpoint streamed (acc : jsstring) (es : list CLIEvent) : list CLIEvent :=
  match es with
  | [] => []
  | e :: es' =>
      with_content (Some (JStr (acc ++ string_of (content e))))
                   (Some (JBool true)) e
      :: streamed (acc ++ string_of (content e)) es'
  end.

(** The text of the chunk events [es], end to end. *)
Definition reply (es : list CLIEvent) : jsstring :=
  concat (map (λ e, string_of (content e)) es).

(** Every event to every subscriber, event by event. *)
Definition fan_out (subs : list Callback) (events : list CLIEvent)
  : list (Callback * CLIEvent) :=
  concat (map (λ e, map (λ cb, (cb, e)) subs) events).

Definition chunk_line (now : N) (line : jsstring) (e : CLIEvent) : Prop :=
  parseCLILine JSON_parse now line = Some e ∧ type e = assistant_chunk.

Lemma chunk_lines_run p now lines es : ∀ i s (st : Store),
  Forall2 (chunk_line now) lines es →
  invocations st !! p = Some i →
  heap st !! inv_session i = Some s →
  ∃ st' i',
    forEach (on_line p now) lines st = Ok tt st'
    ∧ invocations st' !! p = Some i'
    ∧ currentMessage (accumulator i')
      = currentMessage (accumulator i) ++ reply es
    ∧ inv_session i' = inv_session i
    ∧ startTime i' = startTime i
    ∧ heap st' = heap st
    ∧ sessions st' = sessions st
    ∧ proc_log st' = proc_log st
    ∧ delivered st'
      = delivered st
        ++ fan_out (subscribers s)
                   (streamed (currentMessage (accumulator i)) es).
Proof.
  intros i s st Hall. revert i s st.
  induction Hall as [|line e lines es [Hparse Hty] _ IH]; intros i s st Hi Hl.
  - exists st, i. unfold reply, fan_out. cbn. rewrite !app_nil_r.
    by split_and!.
  - cbn [forEach]. unfold bind at 1. unfold Chat.on_line at 1.
    rewrite bind_invocation, Hi, Hparse, Hty.
    unfold addChunk. cbn [currentMessage]. unfold bind at 1, modify at 1.
    set (a := {| currentMessage := _; acc_isStreaming := true |}).
    set (st1 := set_invocations (alter (set_accumulator a) p) st).
    rewrite broadcast_cases. cbn [heap st1 set_invocations]. rewrite Hl.
    set (ev := with_content _ _ e).
    set (st2 := after_calls invoke ev (subscribers s) st1).
    destruct (chat_after_calls_frame invoke ev (subscribers s) st1)
      as (Hs2 & Hh2 & Hi2 & Hp2).
    fold st2 in Hs2, Hh2, Hi2, Hp2.
    destruct (IH (set_accumulator a i) s st2) as
      (st' & i' & Hrun & Hi' & Hm & Hsess & Hstart & Hheap & Hss & Hpl & Hd).
    { rewrite Hi2. subst st1. cbn. by rewrite lookup_alter_eq, Hi. }
    { by rewrite Hh2. }
    exists st', i'. split; [exact Hrun|]. split; [exact Hi'|].
    split; [rewrite Hm; subst a; cbn; unfold reply; cbn;
            by rewrite app_assoc|].
    split; [exact Hsess|]. split; [exact Hstart|].
    split; [by rewrite Hheap, Hh2|]. split; [by rewrite Hss, Hs2|].
    split; [by rewrite Hpl, Hp2|].
    rewrite Hd. unfold st2. rewrite chat_after_calls_delivered.
    subst a. cbn. unfold fan_out. cbn. by rewrite <- app_assoc.
Qed.

(** X24.  A reply that streams in.  On a process whose accumulator is empty,
    chunk events followed by a complete event are broadcast one by one,
    each chunk with the text so far and marked as streaming; the whole
    text enters the history once, as the assistant's turn, unless it is
    empty; and the accumulator is empty again. *)
Theorem assistant_reply_is_recorded p now lines es done_line ev i s
    (st : Store) :
  invocations st !! p = Some i →
  heap st !! inv_session i = Some s →
  currentMessage (accumulator i) = [] →
  Forall2 (chunk_line now) lines es →
  parseCLILine JSON_parse now done_line = Some ev →
  type ev = complete_event →
  ∃ st' s' i',
    forEach (on_line p now) (lines ++ [done_line]) st = Ok tt st'
    ∧ heap st' !! inv_session i = Some s'
    ∧ conversationHistory s'
      = conversationHistory s
        ++ (if decide (reply es = []) then [] else [(assistant, reply es)])
    ∧ delivered st'
      = delivered st
        ++ fan_out (subscribers s)
             (streamed [] es
              ++ [with_stats (fill_duration now (startTime i) <$> stats ev)
                             ev])
    ∧ invocations st' !! p = Some i'
    ∧ accumulator i' = new_accumulator.
Proof.
  intros Hi Hl Hempty Hall Hparse Hty.
  destruct (chunk_lines_run p now lines es i s st Hall Hi Hl) as
    (st1 & i1 & Hrun & Hi1 & Hm & Hsess & Hstart & Hheap & Hss & Hpl & Hd).
  rewrite Hempty in Hm, Hd. cbn [app] in Hm.
  assert (∃ st' s' i',
            on_line p now done_line st1 = Ok tt st'
            ∧ heap st' !! inv_session i = Some s'
            ∧ conversationHistory s'
              = conversationHistory s
                ++ (if decide (reply es = []) then []
                    else [(assistant, reply es)])
            ∧ delivered st'
              = delivered st
                ++ fan_out (subscribers s)
                     (streamed [] es
                      ++ [with_stats
                            (fill_duration now (startTime i) <$> stats ev)
                            ev])
            ∧ invocations st' !! p = Some i'
            ∧ accumulator i' = new_accumulator)
    as (st' & s' & i' & Hon & Hrest).
  2:{ exists st', s', i'. split; [|exact Hrest].
      rewrite (forEach_app_ok _ _ _ _ _ Hrun). cbn [forEach]. unfold bind.
      by rewrite Hon. }
  unfold Chat.on_line.
  rewrite bind_invocation, Hi1, Hparse, Hty.
  unfold complete. cbn [currentMessage]. rewrite Hm, Hsess, Hstart.
  unfold bind at 1, modify at 1.
  set (a := {| currentMessage := reply es; acc_isStreaming := false |}).
  set (st2 := set_invocations (alter (set_accumulator a) p) st1).
  set (done_event := with_stats _ ev).
  assert (∀ (s2 : ChatSession) (st3 : Store),
            heap st3 !! inv_session i = Some s2 →
            subscribers s2 = subscribers s →
            invocations st3 = invocations st2 →
            delivered st3 = delivered st1 →
            ∃ st' i',
              (broadcast (inv_session i) done_event >>
               modify (set_invocations (alter (set_accumulator (reset a)) p)))
                st3 = Ok tt st'
              ∧ heap st' !! inv_session i = Some s2
              ∧ delivered st'
                = delivered st
                  ++ fan_out (subscribers s) (streamed [] es ++ [done_event])
              ∧ invocations st' !! p = Some i'
              ∧ accumulator i' = new_accumulator) as Hend.
  { intros s2 st3 Hl3 Hsubs Hinv3 Hd3. unfold bind.
    rewrite broadcast_cases, Hl3, Hsubs. unfold modify.
    destruct (chat_after_calls_frame invoke done_event (subscribers s) st3)
      as (_ & Hh4 & Hi4 & _).
    eexists _, _. split; [reflexivity|].
    cbn [heap invocations delivered set_invocations].
    rewrite Hh4, Hi4, Hinv3, chat_after_calls_delivered, Hd3, Hd.
    split; [exact Hl3|]. split.
    - unfold fan_out. rewrite map_app, concat_app. cbn.
      by rewrite app_nil_r, <- app_assoc.
    - subst st2. cbn. rewrite !lookup_alter_eq, Hi1. cbn. by split. }
  unfold bind at 1. case_decide as Hne.
  - unfold update, modify. cbv beta iota.
    destruct (Hend (push_history assistant (reply es) s)
                (set_heap (alter (push_history assistant (reply es))
                                 (inv_session i)) st2))
      as (st' & i' & Hfin & Hl' & Hd' & Hi' & Ha'); try done.
    { cbn. by rewrite lookup_alter_eq, Hheap, Hl. }
    exists st', (push_history assistant (reply es) s), i'.
    split; [exact Hfin|]. split; [exact Hl'|]. split.
    { cbn. by rewrite decide_False. }
    by split_and!.
  - unfold ret. cbv beta iota.
    destruct (Hend s st2) as (st' & i' & Hfin & Hl' & Hd' & Hi' & Ha');
      try done.
    { subst st2. cbn. by rewrite Hheap. }
    exists st', s, i'. split; [exact Hfin|]. split; [exact Hl'|]. split.
    { rewrite decide_True; [by rewrite app_nil_r|].
      by destruct (decide (reply es = [])). }
    by split_and!.
Qed.

(** *** The end of a process *)

(** X25.  When a process closes, its session is left without a current
    process; an exit code other than zero, or none, is told to every
    subscriber as one error event, and exit code zero is silent. *)
Theorem process_exit_reports_failure p now code i s (st : Store) :
  invocations st !! p = Some i →
  heap st !! inv_session i = Some s →
  ∃ st',
    on_close invoke p now code st = Ok tt st'
    ∧ heap st' = <[inv_session i := set_currentProcess None s]> (heap st)
    ∧ proc_log st' = proc_log st ++ [proc_closed p]
    ∧ sessions st' = sessions st
    ∧ delivered st'
      = delivered st
        ++ (if decide (code = Some 0%Z) then []
            else map (λ cb, (cb, with_content (Some (JStr (exit_text code)))
                                   None (event_of error now)))
                     (subscribers s)).
Proof.
  intros Hi Hl. unfold on_close. rewrite bind_invocation, Hi.
  unfold bind at 1, log, modify at 1. unfold bind at 1, update, modify at 1.
  set (st1 := set_heap _ _).
  assert (heap st1 = <[inv_session i := set_currentProcess None s]> (heap st))
    as Hh.
  { subst st1. cbn. apply map_eq. intros l'.
    destruct (decide (inv_session i = l')) as [<-|Hne].
    - by rewrite lookup_alter_eq, Hl, lookup_insert_eq.
    - by rewrite lookup_alter_ne, lookup_insert_ne. }
  case_decide as Hcode.
  - exists st1. split; [reflexivity|]. split; [exact Hh|].
    subst st1. cbn. by rewrite app_nil_r.
  - rewrite broadcast_cases, Hh, lookup_insert_eq. cbn [subscribers set_currentProcess].
    eexists. split; [reflexivity|].
    match goal with |- context [after_calls invoke ?e ?subs st1] =>
      destruct (chat_after_calls_frame invoke e subs st1) as (-> & -> & _ & ->);
      rewrite chat_after_calls_delivered end.
    by rewrite Hh.
Qed.

(** X26.  [close] kills the process attached to the session, if any, and
    forgets the session; it tells no subscriber.  After it the id is
    unknown: [close] again does nothing, [send] returns [false] and
    starts nothing, [subscribe] registers nothing. *)
Theorem chat_close_forgets_session sid l s (st : Store) :
  sessions st !! sid = Some l →
  heap st !! l = Some s →
  ∃ st1,
    close sid st = Ok tt st1
    ∧ proc_log st1
      = proc_log st ++ match currentProcess s with
                       | Some p => [proc_kill p]
                       | None => []
                       end
    ∧ sessions st1 = delete sid (sessions st)
    ∧ heap st1 = heap st
    ∧ invocations st1 = invocations st
    ∧ delivered st1 = delivered st
    ∧ close sid st1 = Ok tt st1
    ∧ (∀ now spawn_throws message,
         send invoke now spawn_throws sid message st1 = Ok false st1)
    ∧ (∀ now cb, subscribe invoke now sid cb st1 = Ok dummy_unsubscribe st1).
Proof.
  intros Hsid Hl.
  assert (∀ st1 : Store, sessions st1 !! sid = None →
            close sid st1 = Ok tt st1
            ∧ (∀ now spawn_throws message,
                 send invoke now spawn_throws sid message st1 = Ok false st1)
            ∧ (∀ now cb, subscribe invoke now sid cb st1
                         = Ok dummy_unsubscribe st1)) as Hunknown.
  { intros st1 Hn. unfold close, send, subscribe. eff. by rewrite Hn. }
  assert (∀ st0 : Store, sessions (sessions_delete sid st0) !! sid = None)
    as Hgone by (intros st0; apply lookup_delete_eq).
  unfold close at 1. eff. rewrite Hsid. unfold deref. rewrite Hl.
  destruct (currentProcess s) as [q|]; unfold log; eff.
  - eexists. split; [reflexivity|]. do 5 (split; [reflexivity|]).
    apply Hunknown, Hgone.
  - exists (sessions_delete sid st). split; [reflexivity|].
    split; [cbn; by rewrite app_nil_r|]. do 4 (split; [reflexivity|]).
    apply Hunknown, Hgone.
Qed.

End Stream.

(** *** A concrete run: one answer in two chunks *)

(** A [JSON.parse] for three lines: an empty object stands for the
    result line, any other line for an assistant delta whose content is
    the line without its brace. *)
Definition parse_stream (line : jsstring) : option JSON :=
  if str_eqb line (lit "{}") then
    Some (JObj [(lit "type", JStr (lit "result"))])
  else
    Some (JObj [(lit "type", JStr (lit "message"));
                (lit "role", JStr (lit "assistant"));
                (lit "delta", JBool true);
                (lit "content", JStr (drop 1 line))]).

Definition no_text (_ : JSON) : jsstring := [].

Definition asked : @Chat.Store nat unit := ChatFacts.st1.

Definition asked_session : @Chat.ChatSession nat :=
  {| id := lit "chat_0_k3x9"; projectPath := lit "/srv/app";
     projectName := lit "/srv/app"; subscribers := []; isReady := true;
     session_model := Some (lit "gemini-3-pro"); createdAt := 0;
     currentProcess := Some 0;
     conversationHistory := [(user, lit "hello")] |}.

Definition asked_invocation : Invocation :=
  {| inv_session := 0; accumulator := new_accumulator;
     lineBuffer := []; startTime := 1 |}.

Lemma asked_registered : sessions asked !! lit "chat_0_k3x9" = Some 0.
Proof. by vm_compute. Qed.

Lemma asked_in_heap : heap asked !! 0 = Some asked_session.
Proof. by vm_compute. Qed.

Lemma asked_process : invocations asked !! 0 = Some asked_invocation.
Proof. by vm_compute. Qed.

(** Decoding bytes that are all ASCII: one code unit for every byte. *)
Definition ascii_text (data : list byte) : jsstring := map Byte.to_N data.

Definition bytes (s : string) : list byte := String.list_byte_of_string s.

Definition first_chunk : list byte := bytes "{Hel" ++ [x0a] ++ bytes "{l".
Definition second_chunk : list byte :=
  bytes "o" ++ [x0a] ++ bytes "{}" ++ [x0a].

Definition half_way : @Chat.Store nat unit :=
  store (Chat.on_stdout ChatFacts.quiet parse_stream no_text ascii_text 0 5
           first_chunk asked).

Lemma first_chunk_handled :
  Chat.on_stdout ChatFacts.quiet parse_stream no_text ascii_text 0 5
    first_chunk asked
  = Ok tt half_way.
Proof. by vm_compute. Qed.

Lemma stdout_chunking_is_immaterial_witness :
  Chat.on_stdout ChatFacts.quiet parse_stream no_text ascii_text 0 5
    second_chunk half_way
  = Chat.on_stdout ChatFacts.quiet parse_stream no_text ascii_text 0 5
      (first_chunk ++ second_chunk) asked.
Proof.
  exact (stdout_chunking_is_immaterial ChatFacts.quiet parse_stream no_text
           ascii_text 0 5 first_chunk second_chunk asked_invocation asked
           half_way asked_process (map_app _ _ _) first_chunk_handled).
Defined.

Definition chunk_lines : list jsstring := [lit "{Hel"; lit "{lo"].

Definition chunk_events : list CLIEvent :=
  omap (parseCLILine parse_stream 5) chunk_lines.

Definition result_event : CLIEvent :=
  {| type := complete_event; timestamp := DateNow 5; sessionId := None;
     model := None; role := None; content := None; isStreaming := None;
     toolName := None; toolArgs := None; toolResult := None;
     stats := None; raw := None |}.

Lemma chunk_lines_parse :
  Forall2 (chunk_line parse_stream 5) chunk_lines chunk_events.
Proof. repeat constructor; by vm_compute. Qed.

Lemma assistant_reply_is_recorded_witness :
  ∃ st' s' i',
    forEach (Chat.on_line ChatFacts.quiet parse_stream no_text 0 5)
            (chunk_lines ++ [lit "{}"]) asked = Ok tt st'
    ∧ heap st' !! 0 = Some s'
    ∧ conversationHistory s'
      = [(user, lit "hello"); (assistant, lit "Hello")]
    ∧ invocations st' !! 0 = Some i'
    ∧ accumulator i' = new_accumulator.
Proof.
  destruct (assistant_reply_is_recorded ChatFacts.quiet parse_stream no_text
              0 5 chunk_lines chunk_events (lit "{}") result_event
              asked_invocation asked_session asked asked_process
              asked_in_heap eq_refl chunk_lines_parse)
    as (st' & s' & i' & H1 & H2 & H3 & _ & H5 & H6); [by vm_compute..|].
  exists st', s', i'. split; [exact H1|]. split; [exact H2|].
  split; [|exact (conj H5 H6)].
  rewrite H3. by vm_compute.
Defined.

Lemma process_exit_reports_failure_witness :
  ∃ st',
    on_close ChatFacts.quiet 0 9 (Some 1%Z) asked = Ok tt st'
    ∧ heap st' = <[0 := set_currentProcess None asked_session]> (heap asked)
    ∧ proc_log st' = proc_log asked ++ [proc_closed 0].
Proof.
  destruct (process_exit_reports_failure ChatFacts.quiet 0 9 (Some 1%Z)
              asked_invocation asked_session asked asked_process
              asked_in_heap) as (st' & H1 & H2 & H3 & _).
  exists st'. exact (conj H1 (conj H2 H3)).
Defined.

Lemma chat_close_forgets_session_witness :
  ∃ st1,
    Chat.close (lit "chat_0_k3x9") asked = Ok tt st1
    ∧ proc_log st1 = proc_log asked ++ [proc_kill 0]
    ∧ send ChatFacts.quiet 7 None (lit "chat_0_k3x9") (lit "again") st1
      = Ok false st1.
Proof.
  destruct (chat_close_forgets_session ChatFacts.quiet (lit "chat_0_k3x9") 0
              asked_session asked asked_registered asked_in_heap)
    as (st1 & H1 & H2 & _ & _ & _ & _ & _ & H8 & _).
  exists st1. exact (conj H1 (conj H2 (H8 7%N None (lit "again")))).
Defined.

End ChatStream.

(** ** The gateway: refusals, subscriptions, broadcast *)

Module GatewayFacts.
Import State StateFacts Daemon EffFacts DaemonFacts.

(** The world after [sendTo(ws, message)]. *)
Definition replied (ws : Ws) (message : OutgoingMessage) (w : World) : World :=
  set_sockets (store (sendTo ws message (sockets w))) w.

Lemma reply_run ws message (w : World) :
  on_sockets (sendTo ws message) w = Ok tt (replied ws message w).
Proof. unfold on_sockets, zoom, replied. by rewrite sendTo_run. Qed.

(** What [sendTo] does to the sockets: the message is appended to what
    was sent on [ws] if that socket is open; no other socket changes. *)
Lemma replied_sockets ws message (w : World) ws' :
  sockets (replied ws message w) !! ws'
  = match sockets w !! ws' with
    | Some sock =>
        Some (if decide (ws' = ws ∧ readyState sock = OPEN)
              then {| readyState := readyState sock;
                      sent := sent sock ++ [message] |}
              else sock)
    | None => None
    end.
Proof.
  unfold replied. cbn [sockets set_sockets]. rewrite sendTo_run. cbn [store].
  unfold is_open. destruct (decide (ws' = ws)) as [->|Hne].
  - destruct (sockets w !! ws) as [sock|] eqn:Hs; [|by rewrite Hs].
    destruct (decide (readyState sock = OPEN)) as [Ho|Ho].
    + rewrite bool_decide_eq_true_2 by done.
      rewrite lookup_alter_eq, Hs. cbn. by rewrite decide_True.
    + rewrite bool_decide_eq_false_2 by done. rewrite Hs.
      rewrite decide_False; [done|]. by intros [_ ?].
  - assert ((if match sockets w !! ws with
                 | Some s => bool_decide (readyState s = OPEN)
                 | None => false
                 end
             then alter (λ s, {| readyState := readyState s;
                                 sent := sent s ++ [message] |}) ws (sockets w)
             else sockets w) !! ws' = sockets w !! ws') as ->.
    { destruct (match sockets w !! ws with Some _ => _ | None => _ end);
        [by rewrite lookup_alter_ne|done]. }
    destruct (sockets w !! ws') as [sock|]; [|done].
    rewrite decide_False; [done|]. by intros [? _].
Qed.

Lemma is_str_true v s : is_str v s = true → v = Some (JStr s).
Proof.
  unfold is_str, str_eqb. destruct v as [[]|]; try done.
  rewrite bool_decide_eq_true. by intros ->.
Qed.

(** Evaluating the tests of the [switch] on a known type. *)
Ltac switch_on_type :=
  repeat match goal with
    | |- context [is_str (Some (JStr (lit ?a))) (lit ?b)] =>
        let r := eval vm_compute in (is_str (Some (JStr (lit a))) (lit b)) in
        change (is_str (Some (JStr (lit a))) (lit b)) with r; cbv iota
    end.

(** The commands that need an argument: the type, the field, and the
    text of the error that answers when the field is missing. *)
Definition required_arguments : list (string * string * string) :=
  [ ("switch-project", "projectPath", "projectPath required");
    ("chat", "message", "message required");
    ("terminal-create", "projectPath", "projectPath required");
    ("terminal-write", "sessionId", "sessionId and data required");
    ("terminal-resize", "sessionId", "sessionId, cols, and rows required");
    ("terminal-close", "sessionId", "sessionId required");
    ("terminal-subscribe", "sessionId", "sessionId required");
    ("terminal-unsubscribe", "sessionId", "sessionId required");
    ("terminal-run-gemini", "sessionId", "sessionId required");
    ("cli-chat-create", "projectPath", "projectPath required");
    ("cli-chat-send", "sessionId", "sessionId and message required");
    ("cli-chat-subscribe", "sessionId", "sessionId required");
    ("cli-chat-close", "sessionId", "sessionId required") ]%string.

(** The types the [switch] knows. *)
Definition known_types : list jsstring :=
  [ lit "status"; lit "list-projects"; lit "switch-project"; lit "chat";
    lit "stop"; lit "terminal-create"; lit "terminal-write";
    lit "terminal-resize"; lit "terminal-close"; lit "terminal-list";
    lit "terminal-subscribe"; lit "terminal-unsubscribe";
    lit "terminal-run-gemini"; lit "cli-chat-create"; lit "cli-chat-send";
    lit "cli-chat-subscribe"; lit "cli-chat-list"; lit "cli-chat-close" ].

Section Gateway.
Variable JSON_parse : jsstring → option JSON.
Variable JSON_stringify : JSON → jsstring.
Variable ToString : JSON → jsstring.
Variable basename : jsstring → jsstring.
Variable ill_typed : Env → Ws → ClientState → JSValue → M World unit.

Abbreviation handleMessage :=
  (handleMessage JSON_parse JSON_stringify ToString basename ill_typed).
Abbreviation dispatch :=
  (dispatch JSON_parse JSON_stringify ToString basename ill_typed).

(** A message that does not parse is answered with an error, before any
    token is looked at: nothing but the socket of the sender changes,
    and the state directory is not even read. *)
Theorem invalid_json_is_refused env ws raw (w : World) :
  JSON_parse raw = None →
  ∃ w',
    handleMessage env ws raw w = Ok tt w'
    ∧ w' = replied ws (out_error (lit "Invalid JSON")) w
    ∧ fs w' = fs w
    ∧ clients w' = clients w
    ∧ term w' = term w
    ∧ chat w' = chat w
    ∧ ∀ ws', sockets w' !! ws'
             = match sockets w !! ws' with
               | Some sock =>
                   Some (if decide (ws' = ws ∧ readyState sock = OPEN)
                         then {| readyState := readyState sock;
                                 sent := sent sock
                                         ++ [out_error (lit "Invalid JSON")] |}
                         else sock)
               | None => None
               end.
Proof.
  intros Hparse. eexists. unfold Daemon.handleMessage. rewrite Hparse.
  split; [apply reply_run|]. split; [reflexivity|].
  do 4 (split; [reflexivity|]). apply replied_sockets.
Qed.

(** A message with a valid token from a connected client reaches the
    [switch]. *)
Lemma handleMessage_valid env ws raw (w : World) json fs' client :
  JSON_parse raw = Some json →
  json ≠ JNull →
  validateToken (uuid env) (get (Some json) (lit "token")) (fs w)
  = Ok true fs' →
  clients w !! ws = Some client →
  handleMessage env ws raw w
  = dispatch env ws client (Some json) (set_fs fs' w).
Proof.
  intros Hparse Hnull Hval Hclient. unfold Daemon.handleMessage.
  rewrite Hparse.
  destruct json; [done|..]; unfold on_fs; eff; rewrite Hval;
    cbn [negb clients set_fs]; by rewrite Hclient.
Qed.

(** A field that is falsy ([undefined], [null], [false], zero, the empty
    string) fails the test [!msg.k]. *)
Lemma falsy_required (msg : JSValue) (k : string) :
  truthy (get msg (lit k)) = false → required msg k = None.
Proof.
  unfold required, field. destruct (get msg (lit k)) as [[]|]; try done.
  cbn. destruct s; [done|]. by rewrite bool_decide_eq_true_2.
Qed.

Lemma falsy_arg (msg : JSValue) (k : string) :
  truthy (get msg (lit k)) = false → arg msg k = falsy.
Proof.
  unfold arg. destruct (get msg (lit k)) as [[]|]; try by intros ->.
  cbn. destruct s; [done|]. by rewrite bool_decide_eq_true_2.
Qed.

Lemma required_arg (msg : JSValue) (k : string) s :
  required msg k = Some s → arg msg k = text s.
Proof.
  unfold required, field, arg.
  destruct (get msg (lit k)) as [[]|]; try done.
  destruct s0; [done|]. by intros [= <-].
Qed.


(** The text of a [type] in the error message. *)
Definition type_text (ty : JSValue) : jsstring :=
  match ty with
  | Some (JStr s) => s
  | Some j => ToString j
  | None => lit "undefined"
  end.

(** X28.  A message of a type the [switch] does not know, of whatever shape,
    is answered with an error that names the type, and does nothing
    else. *)
Theorem unknown_type_is_refused env ws raw (w : World) json fs' client :
  JSON_parse raw = Some json →
  json ≠ JNull →
  validateToken (uuid env) (get (Some json) (lit "token")) (fs w)
  = Ok true fs' →
  clients w !! ws = Some client →
  Forall (λ t, is_str (get (Some json) (lit "type")) t = false) known_types →
  ∃ w',
    handleMessage env ws raw w = Ok tt w'
    ∧ w' = replied ws
             (out_error (lit "Unknown message type: "
                         ++ type_text (get (Some json) (lit "type"))))
             (set_fs fs' w)
    ∧ clients w' = clients w
    ∧ term w' = term w
    ∧ chat w' = chat w
    ∧ state_file (fs w') = state_file (fs w).
Proof.
  intros Hparse Hnull Hval Hclient Hall.
  rewrite (handleMessage_valid env ws raw w json fs' client) by done.
  eexists. split; [|split; [reflexivity|]].
  2:{ do 3 (split; [reflexivity|]). cbn.
      by destruct (validateToken_fs _ _ _ _ _ Hval) as (-> & _). }
  unfold Daemon.dispatch. unfold known_types in Hall.
  repeat (apply Forall_cons in Hall as [-> Hall]).
  apply reply_run.
Qed.

(** *** Subscriptions of a connection *)

Lemma on_term_frame {A} (m : M (TermStore Sockets) A) (w : World) :
  clients (store (on_term m w)) = clients w
  ∧ fs (store (on_term m w)) = fs w
  ∧ chat (store (on_term m w)) = chat w
  ∧ closures (store (on_term m w)) = closures w.
Proof.
  unfold on_term, zoom.
  by destruct (m (term_with (term w) (sockets w))).
Qed.


(** The world after a stored closure ran. *)
Definition unsubscribed (u : Unsubscribe) (w : World) : World :=
  match u with
  | term_unsubscribe (Terminal.unsubscribe_from l cb) =>
      set_term (Terminal.set_heap
                  (alter (Terminal.set_subscribers (Subscribers.delete cb)) l)
                  (term w)) w
  | chat_unsubscribe (Chat.unsubscribe_from l cb) =>
      set_chat (Chat.set_heap
                  (alter (Chat.set_subscribers (Subscribers.delete cb)) l)
                  (chat w)) w
  | _ => w
  end.

Lemma run_unsubscribe_run u (w : World) :
  run_unsubscribe u w = Ok tt (unsubscribed u w).
Proof.
  destruct w as [f n c t ch k]. destruct t, ch.
  destruct u as [[|l cb]|[|l cb]]; cbn;
    unfold on_term, on_chat, zoom; cbn; by repeat match goal with
    | u : unit |- _ => destruct u end.
Qed.

(** The callback a stored closure removes is still subscribed. *)
Definition still_subscribed (u : Unsubscribe) (w : World) : Prop :=
  match u with
  | term_unsubscribe (Terminal.unsubscribe_from l cb) =>
      ∃ s, Terminal.heap (term w) !! l = Some s ∧ cb ∈ Terminal.subscribers s
  | chat_unsubscribe (Chat.unsubscribe_from l cb) =>
      ∃ s, Chat.heap (chat w) !! l = Some s ∧ cb ∈ Chat.subscribers s
  | _ => False
  end.

Lemma delete_shrinks {C} `{EqDecision C} (cb c : C) (subs : list C) :
  c ∈ Subscribers.delete cb subs → c ∈ subs ∧ c ≠ cb.
Proof.
  unfold Subscribers.delete. rewrite list_elem_of_filter. tauto.
Qed.

Lemma unsubscribed_own u (w : World) : ¬ still_subscribed u (unsubscribed u w).
Proof.
  destruct u as [[|l cb]|[|l cb]]; cbn; try tauto.
  - intros (s & Hs & Hin). rewrite lookup_alter_eq in Hs.
    destruct (Terminal.heap (term w) !! l) as [s0|]; [|done].
    injection Hs as <-. cbn in Hin. by apply delete_shrinks in Hin as [_ ?].
  - intros (s & Hs & Hin). rewrite lookup_alter_eq in Hs.
    destruct (Chat.heap (chat w) !! l) as [s0|]; [|done].
    injection Hs as <-. cbn in Hin. by apply delete_shrinks in Hin as [_ ?].
Qed.

Lemma unsubscribed_other u u' (w : World) :
  ¬ still_subscribed u w → ¬ still_subscribed u (unsubscribed u' w).
Proof.
  intros Hnot Hsub. apply Hnot. clear Hnot.
  destruct u as [[|l cb]|[|l cb]], u' as [[|l' cb']|[|l' cb']];
    cbn in *; try done.
  - destruct Hsub as (s & Hs & Hin). rewrite lookup_alter in Hs.
    case_decide; [subst l'|by eauto].
    destruct (Terminal.heap (term w) !! l) as [s0|]; [|done].
    injection Hs as <-. cbn in Hin. apply delete_shrinks in Hin as [? _].
    eauto.
  - destruct Hsub as (s & Hs & Hin). rewrite lookup_alter in Hs.
    case_decide; [subst l'|by eauto].
    destruct (Chat.heap (chat w) !! l) as [s0|]; [|done].
    injection Hs as <-. cbn in Hin. apply delete_shrinks in Hin as [? _].
    eauto.
Qed.

Lemma unsubscribed_frame u (w : World) :
  clients (unsubscribed u w) = clients w
  ∧ fs (unsubscribed u w) = fs w
  ∧ sockets (unsubscribed u w) = sockets w
  ∧ Terminal.sessions (term (unsubscribed u w)) = Terminal.sessions (term w)
  ∧ Terminal.pty_calls (term (unsubscribed u w))
    = Terminal.pty_calls (term w)
  ∧ Chat.sessions (chat (unsubscribed u w)) = Chat.sessions (chat w)
  ∧ Chat.proc_log (chat (unsubscribed u w)) = Chat.proc_log (chat w).
Proof. by destruct u as [[|l cb]|[|l cb]]. Qed.

Lemma forEach_unsubscribe us (w : World) :
  forEach run_unsubscribe us w
  = Ok tt (fold_left (λ w u, unsubscribed u w) us w).
Proof.
  revert w. induction us as [|u us IH]; intros w; [done|].
  cbn [forEach fold_left]. unfold bind. by rewrite run_unsubscribe_run, IH.
Qed.

Lemma all_unsubscribed us : ∀ (w : World) u,
  u ∈ us → ¬ still_subscribed u (fold_left (λ w u, unsubscribed u w) us w).
Proof.
  assert (∀ us (w : World) u, ¬ still_subscribed u w →
            ¬ still_subscribed u (fold_left (λ w u, unsubscribed u w) us w))
    as Hkeep.
  { intros us'. induction us' as [|u' us' IH]; intros w u Hu; [done|].
    cbn [fold_left]. by apply IH, unsubscribed_other. }
  induction us as [|u' us IH]; intros w u Hin.
  - by apply elem_of_nil in Hin.
  - cbn [fold_left]. apply elem_of_cons in Hin as [->|Hin].
    + apply Hkeep, unsubscribed_own.
    + by apply IH.
Qed.


(** *** Broadcast *)

Lemma forEach_sendTo message (l : list Ws) : ∀ w : World,
  NoDup l →
  ∃ w', forEach (λ ws, on_sockets (sendTo ws message)) l w = Ok tt w'
    ∧ fs w' = fs w ∧ clients w' = clients w
    ∧ term w' = term w ∧ chat w' = chat w
    ∧ ∀ ws, sockets w' !! ws
            = match sockets w !! ws with
              | Some sock =>
                  Some (if decide (ws ∈ l ∧ readyState sock = OPEN)
                        then {| readyState := readyState sock;
                                sent := sent sock ++ [message] |}
                        else sock)
              | None => None
              end.
Proof.
  induction l as [|ws0 l IH]; intros w Hnd.
  - exists w. split; [done|]. do 4 (split; [done|]). intros ws.
    destruct (sockets w !! ws) as [sock|]; [|done].
    rewrite decide_False; [done|]. intros [Hin _]. by apply elem_of_nil in Hin.
  - apply NoDup_cons in Hnd as [Hws0 Hnd].
    cbn [forEach]. unfold bind. rewrite reply_run.
    destruct (IH (replied ws0 message w) Hnd)
      as (w' & Hrun & Hf & Hc & Ht & Hch & Hs).
    exists w'. split; [exact Hrun|]. do 4 (split; [done|]).
    intros ws. rewrite Hs, replied_sockets.
    destruct (sockets w !! ws) as [sock|]; [|done]. f_equal.
    destruct (decide (ws = ws0)) as [->|Hne].
    + destruct (decide (readyState sock = OPEN)) as [Ho|Ho].
      * rewrite (decide_True (P := ws0 = ws0 ∧ _)) by done.
        rewrite decide_False by (by intros [? _]).
        rewrite decide_True; [done|]. split; [by left|done].
      * rewrite (decide_False (P := ws0 = ws0 ∧ _)) by (by intros [_ ?]).
        rewrite decide_False by (by intros [? _]).
        rewrite decide_False; [done|]. by intros [_ ?].
    + rewrite (decide_False (P := ws = ws0 ∧ _)) by (by intros [? _]).
      destruct (decide (ws ∈ l ∧ readyState sock = OPEN)) as [[Hin Ho]|Hn].
      * rewrite decide_True; [done|]. split; [by right|done].
      * rewrite decide_False; [done|]. intros [Hin Ho]. apply Hn.
        apply elem_of_cons in Hin as [?|?]; done.
Qed.

(** A broadcast reaches every connected client whose socket is open,
    once, and no one else: a socket that is not open, or that belongs to
    no client, gets nothing. *)
Theorem broadcast_reaches_open_clients message (w : World) :
  ∃ w',
    broadcast message w = Ok tt w'
    ∧ fs w' = fs w ∧ clients w' = clients w
    ∧ term w' = term w ∧ chat w' = chat w
    ∧ ∀ ws, sockets w' !! ws
            = match sockets w !! ws with
              | Some sock =>
                  Some (if decide (is_Some (clients w !! ws)
                                   ∧ readyState sock = OPEN)
                        then {| readyState := readyState sock;
                                sent := sent sock ++ [message] |}
                        else sock)
              | None => None
              end.
Proof.
  unfold broadcast. eff.
  destruct (forEach_sendTo message (map_to_list (clients w)).*1 w)
    as (w' & Hrun & Hf & Hc & Ht & Hch & Hs); [apply NoDup_fst_map_to_list|].
  exists w'. split; [exact Hrun|]. do 4 (split; [done|]).
  intros ws. rewrite Hs. destruct (sockets w !! ws) as [sock|]; [|done].
  f_equal.
  assert (ws ∈ (map_to_list (clients w)).*1 ↔ is_Some (clients w !! ws))
    as Hiff.
  { rewrite list_elem_of_fmap. split.
    - intros ([ws' c] & -> & Hin). apply elem_of_map_to_list in Hin. eauto.
    - intros [c Hc']. exists (ws, c). split; [done|].
      by apply elem_of_map_to_list. }
  destruct (decide (ws ∈ (map_to_list (clients w)).*1 ∧ _)) as [[? ?]|Hn].
  - rewrite decide_True; [done|]. split; [by apply Hiff|done].
  - rewrite decide_False; [done|]. intros [? ?]. apply Hn.
    split; [by apply Hiff|done].
Qed.

End Gateway.

(** *** Concrete messages *)

Definition good_token : jsstring := lit "ah_0123456789abcdef".

(** [terminal-close] without a session id. *)
Definition close_nothing : JSON :=
  JObj [ (lit "type", JStr (lit "terminal-close"));
         (lit "token", JStr good_token) ].

(** A type the gateway does not know. *)
Definition reboot : JSON :=
  JObj [ (lit "type", JStr (lit "reboot")); (lit "token", JStr good_token) ].

(** [terminal-subscribe] to a session. *)
Definition subscribe_request : JSON :=
  JObj [ (lit "type", JStr (lit "terminal-subscribe"));
         (lit "token", JStr good_token);
         (lit "sessionId", JStr (lit "term_0_k3x9")) ].

Definition first_client : ClientState :=
  {| subscriptions := ∅; unsubscribeFns := ∅ |}.

Lemma first_client_connected : clients demo_world !! 0 = Some first_client.
Proof. by vm_compute. Qed.

Lemma invalid_json_is_refused_witness :
  ∃ w',
    Daemon.handleMessage (λ _, None) (λ _, []) (λ _, []) (λ p, p) never_run
      demo_env 0 (lit "{") demo_world = Ok tt w'
    ∧ w' = replied 0 (out_error (lit "Invalid JSON")) demo_world.
Proof.
  destruct (invalid_json_is_refused (λ _, None) (λ _, []) (λ _, []) (λ p, p) never_run
              demo_env 0 (lit "{") demo_world eq_refl)
    as (w' & H1 & H2 & _).
  exists w'. exact (conj H1 H2).
Defined.

Lemma close_nothing_in_table :
  ("terminal-close", "sessionId", "sessionId required")%string
  ∈ required_arguments.
Proof. apply (bool_decide_unpack _). by vm_compute. Qed.

Lemma good_token_accepted json :
  get (Some json) (lit "token") = Some (JStr good_token) →
  validateToken (uuid demo_env) (get (Some json) (lit "token"))
    (fs demo_world)
  = Ok true (fs demo_world).
Proof. intros ->. by vm_compute. Qed.


Lemma reboot_is_unknown :
  Forall (λ t, is_str (get (Some reboot) (lit "type")) t = false) known_types.
Proof. apply (bool_decide_unpack _). by vm_compute. Qed.

Lemma unknown_type_is_refused_witness :
  ∃ w',
    Daemon.handleMessage (λ _, Some reboot) (λ _, []) (λ _, [])
      (λ p, p) never_run demo_env 0 [] demo_world = Ok tt w'
    ∧ w' = replied 0 (out_error (lit "Unknown message type: reboot"))
             (set_fs (fs demo_world) demo_world).
Proof.
  destruct (unknown_type_is_refused (λ _, Some reboot) (λ _, [])
              (λ _, []) (λ p, p) never_run demo_env 0 [] demo_world reboot
              (fs demo_world) first_client eq_refl)
    as (w' & H1 & H2 & _);
    [discriminate|by apply good_token_accepted|exact first_client_connected
    |exact reboot_is_unknown|].
  exists w'. split; [exact H1|]. rewrite H2. reflexivity.
Defined.

Definition subscribed_world : World :=
  store (Daemon.dispatch (λ _, None) (λ _, []) (λ _, []) (λ p, p) never_run demo_env 0
           first_client (Some subscribe_request) demo_world).

Lemma subscribe_handled :
  Daemon.dispatch (λ _, None) (λ _, []) (λ _, []) (λ p, p) never_run demo_env 0
    first_client (Some subscribe_request) demo_world
  = Ok tt subscribed_world.
Proof. by vm_compute. Qed.


Lemma subscribed_client :
  ∃ client, clients subscribed_world !! 0 = Some client.
Proof. eexists. by vm_compute. Qed.


End GatewayFacts.
